(** * automerge-py: applying patches to a replicated document

    A shallow embedding of [automerge/apply_patch.py]: Lamport identifiers
    ([parse_op_id], [lamport_compare]), the value materializer
    ([get_value]), the conflict-register merger ([apply_properties]), the
    list structural editor ([update_list_obj]) and the patch dispatcher
    ([apply_patch]).

    Python objects with identity (the [Map] and [List] containers) live in
    an explicit store addressed by location; every function that mutates a
    container threads that store.  Python exceptions are values of [exn].

    A Python [str] is a sequence of Unicode code points; a Rocq string
    holds its UTF-8 encoding, byte by byte.  Equality of texts is
    equality of their encodings, and the order of the encodings, byte by
    byte, is the order in which Python compares [str] values, code point
    by code point.  Integers are unbounded ([Z]). *)

From Stdlib Require Import ZArith Lia Bool List String Ascii Permutation.
From Stdlib Require Import OrdersEx RelationClasses Sorted.
Import ListNotations.

Local Open Scope string_scope.
Local Open Scope list_scope.
Local Open Scope Z_scope.

(** ** Exceptions *)

(** The two failures the module raises itself are both a plain
    [Exception] in the source, told apart by their message:
    ["Not a valid op_id: ..."] is [MalformedIdentifier] and
    ["Unknown object type in patch: ..."] is [UnknownPatchType].  The
    other constructors are the exceptions the Python runtime raises on an
    attribute, key, index or operand that is not there, on a failed
    [assert], and when the interpreter's recursion limit is reached. *)
Inductive exn : Set :=
| MalformedIdentifier
| UnknownPatchType
| AttributeError
| KeyError
| IndexError
| TypeError
| AssertionError
| RecursionError.

Definition exn_eqb (a b : exn) : bool :=
  match a, b with
  | MalformedIdentifier, MalformedIdentifier
  | UnknownPatchType, UnknownPatchType
  | AttributeError, AttributeError
  | KeyError, KeyError
  | IndexError, IndexError
  | TypeError, TypeError
  | AssertionError, AssertionError
  | RecursionError, RecursionError => true
  | _, _ => false
  end.

(** A computation that returns or raises, without touching the store. *)
Definition result (A : Type) : Type := (exn + A)%type.

(** ** Lamport identifiers *)

Module Lamport.

(** [OpId = NamedTuple("OpId", [("counter", int), ("actorId", str)])] *)
Record OpId : Set := mkOpId { counter : Z; actorId : string }.

Definition newline : ascii := "010"%char.

(** A continuation byte of a character, and the six bits it carries. *)
Definition continuation (b : ascii) : option N :=
  let n := N_of_ascii b in
  if ((128 <=? n) && (n <? 192))%N then Some (n - 128)%N else None.

(** The first character of a text: its code point, the bytes that
    encode it, and the text after it.  There is none in the empty text,
    nor where the bytes encode no character. *)
Definition first_char (s : string) : option (N * string * string) :=
  match s with
  | EmptyString => None
  | String b0 s1 =>
      let n0 := N_of_ascii b0 in
      if (n0 <? 128)%N then Some (n0, String b0 EmptyString, s1)
      else if (n0 <? 192)%N then None
      else if (n0 <? 224)%N then
        match s1 with
        | String b1 s2 =>
            match continuation b1 with
            | Some c1 =>
                let cp := ((n0 - 192) * 64 + c1)%N in
                if (128 <=? cp)%N
                then Some (cp, String b0 (String b1 EmptyString), s2)
                else None
            | None => None
            end
        | EmptyString => None
        end
      else if (n0 <? 240)%N then
        match s1 with
        | String b1 (String b2 s3) =>
            match continuation b1, continuation b2 with
            | Some c1, Some c2 =>
                let cp := (((n0 - 224) * 64 + c1) * 64 + c2)%N in
                if (2048 <=? cp)%N
                then Some (cp, String b0 (String b1 (String b2 EmptyString)),
                           s3)
                else None
            | _, _ => None
            end
        | _ => None
        end
      else if (n0 <? 248)%N then
        match s1 with
        | String b1 (String b2 (String b3 s4)) =>
            match continuation b1, continuation b2, continuation b3 with
            | Some c1, Some c2, Some c3 =>
                let cp := ((((n0 - 240) * 64 + c1) * 64 + c2) * 64 + c3)%N in
                if ((65536 <=? cp) && (cp <=? 1114111))%N
                then Some (cp,
                           String b0
                             (String b1 (String b2 (String b3 EmptyString))),
                           s4)
                else None
            | _, _, _ => None
            end
        | _ => None
        end
      else None
  end.

(** The decimal digits of Unicode, category Nd: they are what [\d]
    matches in a pattern on [str] and what [int] converts.  They come
    in runs of ten, a digit zero and then the digits one to nine; these
    are the code points of the digit zero of every run, as of Unicode
    14.0, the database of CPython 3.11.  The first run is that of the
    ASCII digits. *)
Definition decimal_zeros : list N :=
  [48; 1632; 1776; 1984; 2406; 2534; 2662; 2790;
   2918; 3046; 3174; 3302; 3430; 3558; 3664; 3792;
   3872; 4160; 4240; 6112; 6160; 6470; 6608; 6784;
   6800; 6992; 7088; 7232; 7248; 42528; 43216; 43264;
   43472; 43504; 43600; 44016; 65296; 66720; 68912; 69734;
   69872; 69942; 70096; 70384; 70736; 70864; 71248; 71360;
   71472; 71904; 72016; 72784; 73040; 73120; 92768; 92864;
   93008; 120782; 120792; 120802; 120812; 120822; 123200; 123632;
   125264; 130032]%N.

(** The value of a code point as a decimal digit, if it is one. *)
Definition decimal (cp : N) : option Z :=
  match find (fun z => ((z <=? cp) && (cp <? z + 10))%N) decimal_zeros with
  | Some z => Some (Z.of_N (cp - z))
  | None => None
  end.

(** [\d] at the head of a text: the value of the digit that stands
    there, its bytes, and the text after it. *)
Definition first_digit (s : string) : option (Z * string * string) :=
  match first_char s with
  | Some (cp, bytes, rest) =>
      match decimal cp with
      | Some v => Some (v, bytes, rest)
      | None => None
      end
  | None => None
  end.

(** Group 1 of the pattern, one or more [\d], matched greedily: the
    longest prefix of digits, and what follows it.  A text of [n] bytes
    holds at most [n] characters. *)
Fixpoint span_digits_upto (n : nat) (s : string) : string * string :=
  match n with
  | O => (EmptyString, s)
  | S n' =>
      match first_digit s with
      | Some (_, bytes, rest) =>
          let (ds, tail) := span_digits_upto n' rest in
          (String.append bytes ds, tail)
      | None => (EmptyString, s)
      end
  end.

Definition span_digits (s : string) : string * string :=
  span_digits_upto (String.length s) s.

(** Group 2 of the pattern and the closing [$], without the DOTALL and
    MULTILINE flags: [.] is any character but a line feed, and [$] is the
    end of the text or the position just before a line feed that ends
    the text.  The group holds the characters before that position.  No
    byte of a character of several bytes is the line feed. *)
Fixpoint dot_star_eol (s : string) : option string :=
  match s with
  | EmptyString => Some EmptyString
  | String c s' =>
      if Ascii.eqb c newline
      then match s' with
           | EmptyString => Some EmptyString
           | String _ _ => None
           end
      else option_map (String c) (dot_star_eol s')
  end.

(** [OP_ID_RE.match(op_id)], where [OP_ID_RE] is the compiled pattern
    "start of text, one or more digits (group 1), an at sign, any run of
    characters other than line feeds (group 2), end of text": the two
    groups of the match, if there is one.  A shorter run of digits never
    helps the match, since the character after it would be a digit and
    not the at sign. *)
Definition OP_ID_RE_match (op_id : string) : option (string * string) :=
  let (ds, rest) := span_digits op_id in
  match ds, rest with
  | String _ _, String "@" tail =>
      match dot_star_eol tail with
      | Some actor => Some (ds, actor)
      | None => None
      end
  | _, _ => None
  end.

(** [int(text)] on a run of decimal digits. *)
Fixpoint int_of_digits_upto (n : nat) (acc : Z) (s : string) : Z :=
  match n with
  | O => acc
  | S n' =>
      match first_digit s with
      | Some (v, _, rest) => int_of_digits_upto n' (10 * acc + v) rest
      | None => acc
      end
  end.

Definition int_of_digits (s : string) : Z :=
  int_of_digits_upto (String.length s) 0 s.

Definition parse_op_id (op_id : string) : result OpId :=
  match OP_ID_RE_match op_id with
  | None => inl MalformedIdentifier
  | Some (g1, g2) => inr (mkOpId (int_of_digits g1) g2)
  end.

(** [a > b] on [str]: lexicographic, by code point, which on the
    encodings is lexicographic by byte. *)
Definition str_gt (a b : string) : bool :=
  match String_as_OT.compare a b with
  | Gt => true
  | _ => false
  end.

Definition lamport_compare (ts1 ts2 : string) : result Z :=
  match parse_op_id ts1 with
  | inl e => inl e
  | inr time1 =>
      match parse_op_id ts2 with
      | inl e => inl e
      | inr time2 =>
          if negb (counter time1 =? counter time2)
          then inr (counter time1 - counter time2)
          else if negb (String.eqb (actorId time1) (actorId time2))
          then inr (if str_gt (actorId time1) (actorId time2) then 1 else -1)
          else inr 0
      end
  end.

End Lamport.

(** ** Python containers: [dict] and [list] *)

(** A [dict] keeps its keys in insertion order, and the merger iterates
    over dicts, so a dict is an association list without repeated keys. *)
Section Dict.
Context {K V : Type} (eqb : K -> K -> bool).

Definition dict : Type := list (K * V).

(** [d.get(k)] *)
Fixpoint dict_get (k : K) (d : dict) : option V :=
  match d with
  | [] => None
  | (k', v) :: d' => if eqb k' k then Some v else dict_get k d'
  end.

(** [k in d] *)
Definition dict_mem (k : K) (d : dict) : bool :=
  match dict_get k d with Some _ => true | None => false end.

(** [d[k] = v]: an existing key keeps its place, a new one goes last. *)
Fixpoint dict_set (k : K) (v : V) (d : dict) : dict :=
  match d with
  | [] => [(k, v)]
  | (k', v') :: d' =>
      if eqb k' k then (k, v) :: d' else (k', v') :: dict_set k v d'
  end.

(** [del d[k]], which raises [KeyError] when [k] is not a key. *)
Fixpoint dict_del (k : K) (d : dict) : option dict :=
  match d with
  | [] => None
  | (k', v') :: d' =>
      if eqb k' k then Some d'
      else option_map (cons (k', v')) (dict_del k d')
  end.

(** [list(d.keys())] *)
Definition dict_keys (d : dict) : list K := map fst d.
End Dict.

Arguments dict : clear implicits.

(** Python's [list], indexed by a Python integer: a negative index counts
    from the end, and an index outside the list raises [IndexError],
    except in [insert], which clamps it. *)
Module PyList.
Section Ops.
Context {A : Type}.

Definition norm_index (n : nat) (i : Z) : option nat :=
  if 0 <=? i
  then (if i <? Z.of_nat n then Some (Z.to_nat i) else None)
  else (if 0 <=? i + Z.of_nat n then Some (Z.to_nat (i + Z.of_nat n)) else None).

(** [l[i]] *)
Definition getitem (l : list A) (i : Z) : option A :=
  match norm_index (List.length l) i with
  | Some n => nth_error l n
  | None => None
  end.

(** [l[i] = x] *)
Definition setitem (l : list A) (i : Z) (x : A) : option (list A) :=
  match norm_index (List.length l) i with
  | Some n => Some (firstn n l ++ x :: skipn (S n) l)
  | None => None
  end.

(** [del l[i]] *)
Definition delitem (l : list A) (i : Z) : option (list A) :=
  match norm_index (List.length l) i with
  | Some n => Some (firstn n l ++ skipn (S n) l)
  | None => None
  end.

(** [l.insert(i, x)] *)
Definition insert (l : list A) (i : Z) (x : A) : list A :=
  let n := Z.of_nat (List.length l) in
  let j := if i <? 0 then Z.max 0 (i + n) else Z.min i n in
  firstn (Z.to_nat j) l ++ x :: skipn (Z.to_nat j) l.
End Ops.
End PyList.

(** ** Document values, containers and the store *)

(** A primitive: [None], a boolean, a number or a string. *)
Inductive prim : Set :=
| PNone
| PBool (b : bool)
| PInt (n : Z)
| PStr (s : string).

(** The address of a container in the store: its Python identity. *)
Definition loc : Set := nat.

(** A Python value as the module handles it: a primitive, a [Counter]
    built from a primitive, or a reference to a container. *)
Inductive value : Set :=
| VPrim (p : prim)
| VCounter (p : prim)
| VRef (l : loc).

Definition VNone : value := VPrim PNone.

(** A key of [props]: a string for a map, a position for a list. *)
Inductive key : Set :=
| KStr (s : string)
| KInt (i : Z).

Definition key_eqb (a b : key) : bool :=
  match a, b with
  | KStr s, KStr t => String.eqb s t
  | KInt i, KInt j => Z.eqb i j
  | _, _ => false
  end.

(** The candidates of one slot: OperationId text to materialized value. *)
Definition ops : Type := dict string value.

(** Modelled from the spec: the classes [Map], [List] and [Counter] of
    [automerge/datatypes.py], which is not among the sources.  A [Map] is
    a mapping from key to value and its [recent_ops] a dict from key to
    the candidates of that key.  A [List] is a sequence of values with
    two more sequences, [elem_ids] and [recent_ops], held position by
    position; an entry of [recent_ops] is [None] until the merger fills
    it.  Item assignment, [del], [insert] and [len] are those of [dict]
    and [list].  Both carry [object_id] and the [_frozen] flag; a [Map]
    has no [elem_ids].  A container is true in a condition, whatever it
    holds, as is a [Counter].  A [Counter] is its value and no more: it
    has no [object_id], no [recent_ops] and no [elem_ids].  It is an
    instance of a class of that module like [Map], on which the source
    sets [_frozen] although the class never declared it, and so it
    takes an attribute that is assigned to it.  A primitive has none of
    these attributes, and none can be set on it. *)
Inductive body : Type :=
| MapBody (items : dict key value) (recent_ops : dict key ops)
| ListBody (items : list value) (elem_ids : list string)
           (recent_ops : list (option ops)).

Record container : Type := mkContainer {
  object_id : string;
  _frozen : bool;
  contents : body
}.

(** [Map([], object_id)] and [List([], object_id)]: empty, and frozen
    like every container that no call is working on. *)
Definition Map_empty (oid : string) : container :=
  mkContainer oid true (MapBody [] []).
Definition List_empty (oid : string) : container :=
  mkContainer oid true (ListBody [] [] []).

(** The store: the containers allocated so far, a container's location
    being its position.  Nothing is ever freed. *)
Definition heap : Type := list container.

Definition heap_get (h : heap) (l : loc) : option container := nth_error h l.

Fixpoint heap_set (h : heap) (l : loc) (c : container) : heap :=
  match h, l with
  | [], _ => []
  | _ :: h', O => c :: h'
  | c' :: h', S l' => c' :: heap_set h' l' c
  end.

(** ** Patches *)

(** One structural edit of a list patch: [{action, index, elemId?}]. *)
Record edit : Set := mkEdit {
  action : string;
  index : Z;
  elemId : option string
}.

(** A patch node is a JSON object; a field that may be missing is an
    option, [None] meaning that the key is not in the object.  [props]
    maps a key to its conflict set, which maps an OperationId to a
    sub-patch. *)
#[local] Unset Elimination Schemes.
Inductive patch : Type := mkPatch {
  p_objectId : option string;
  p_type : option string;
  p_props : option (list (key * list (string * patch)));
  p_edits : option (list edit);
  p_datatype : option string;
  p_value : option prim
}.
#[local] Set Elimination Schemes.

(** ** Computations on the store *)

(** A computation reads the store and leaves a store behind, also when
    it raises: what was mutated before the exception stays mutated. *)
Definition M (A : Type) : Type := heap -> heap * result A.

Definition ret {A} (a : A) : M A := fun h => (h, inr a).
Definition raise {A} (e : exn) : M A := fun h => (h, inl e).
Definition bind {A B} (c : M A) (k : A -> M B) : M B :=
  fun h => match c h with
           | (h', inr a) => k a h'
           | (h', inl e) => (h', inl e)
           end.

Declare Scope py_scope.
Delimit Scope py_scope with py.
Notation "x <- c ;; k" := (bind c (fun x => k))
  (at level 61, c at next level, right associativity) : py_scope.
Notation "c ;; k" := (bind c (fun _ => k))
  (at level 61, right associativity) : py_scope.
Local Open Scope py_scope.

(** A pure step that may raise [e]. *)
Definition lift_opt {A} (e : exn) (o : option A) : M A :=
  match o with Some a => ret a | None => raise e end.

Definition lift_result {A} (r : result A) : M A := fun h => (h, r).

(** [for x in xs: f(x)] *)
Fixpoint for_each {A} (f : A -> M unit) (xs : list A) : M unit :=
  match xs with
  | [] => ret tt
  | x :: xs' => f x ;; for_each f xs'
  end.

Definition alloc (c : container) : M value :=
  fun h => (h ++ [c], inr (VRef (List.length h))).

(** The container a value refers to; a value that is no container has
    none of a container's attributes. *)
Definition deref (obj : value) : M (loc * container) :=
  fun h => match obj with
           | VRef l => match heap_get h l with
                       | Some c => (h, inr (l, c))
                       | None => (h, inl AttributeError)
                       end
           | _ => (h, inl AttributeError)
           end.

Definition store (l : loc) (c : container) : M unit :=
  fun h => (heap_set h l c, inr tt).

(** ** Attribute and item access on containers *)

(** [obj._frozen = b].  On a container the flag is part of the store.
    On a [Counter] the assignment succeeds as on any instance; nothing
    in this module reads the attribute back, and the store, which holds
    the containers, does not keep it.  On a primitive it raises. *)
Definition set_frozen (obj : value) (b : bool) : M unit :=
  match obj with
  | VCounter _ => ret tt
  | _ =>
      lc <- deref obj ;;
      let (l, c) := lc in
      store l (mkContainer (object_id c) b (contents c))
  end.

(** [conflict.object_id] *)
Definition get_object_id (obj : value) : M string :=
  lc <- deref obj ;; ret (object_id (snd lc)).

(** Whether a value counts as true in a condition.  For a primitive this
    is Python's rule: [None], [False], zero and the empty string are
    false.  A container and a [Counter] are true (see [body]). *)
Definition truthy (v : value) : bool :=
  match v with
  | VPrim PNone => false
  | VPrim (PBool b) => b
  | VPrim (PInt n) => negb (n =? 0)
  | VPrim (PStr s) => negb (String.eqb s "")
  | VCounter _ => true
  | VRef _ => true
  end.

(** [isinstance(our_recent_ops, dict)] *)
Definition recent_ops_is_dict (c : container) : bool :=
  match contents c with
  | MapBody _ _ => true
  | ListBody _ _ _ => false
  end.

(** [key in our_recent_ops], for the dict of a map. *)
Definition key_in_recent_ops (key : key) (c : container) : bool :=
  match contents c with
  | MapBody _ ro => dict_mem key_eqb key ro
  | ListBody _ _ _ => false
  end.

(** [len(our_recent_ops)], for the array of a list. *)
Definition len_recent_ops (c : container) : Z :=
  match contents c with
  | MapBody _ ro => Z.of_nat (List.length ro)
  | ListBody _ _ ro => Z.of_nat (List.length ro)
  end.

(** [our_recent_ops[key]]: the candidates stored for a slot; [None] is
    the placeholder of a list slot that the merger has not filled. *)
Definition recent_ops_getitem (key : key) (c : container) : result (option ops) :=
  match contents c, key with
  | MapBody _ ro, _ =>
      match dict_get key_eqb key ro with
      | Some d => inr (Some d)
      | None => inl KeyError
      end
  | ListBody _ _ ro, KInt i =>
      match PyList.getitem ro i with
      | Some d => inr d
      | None => inl IndexError
      end
  | ListBody _ _ _, KStr _ => inl TypeError
  end.

(** An empty dict and [None] are both false in a condition. *)
Definition ops_truthy (d : option ops) : bool :=
  match d with
  | Some (_ :: _) => true
  | _ => false
  end.

(** [patch_op_id in our_recent_ops[key]]; [None] has no members to ask
    for. *)
Definition ops_mem (id : string) (d : option ops) : result bool :=
  match d with
  | Some d => inr (dict_mem String.eqb id d)
  | None => inl TypeError
  end.

(** [our_recent_ops[key][patch_op_id]] *)
Definition ops_getitem (id : string) (d : option ops) : result value :=
  match d with
  | Some d => match dict_get String.eqb id d with
              | Some v => inr v
              | None => inl KeyError
              end
  | None => inl TypeError
  end.

(** [obj[key] = v] *)
Definition setitem (key : key) (v : value) (c : container) : result container :=
  match contents c, key with
  | MapBody items ro, _ =>
      inr (mkContainer (object_id c) (_frozen c)
             (MapBody (dict_set key_eqb key v items) ro))
  | ListBody items ids ro, KInt i =>
      match PyList.setitem items i v with
      | Some items' =>
          inr (mkContainer (object_id c) (_frozen c) (ListBody items' ids ro))
      | None => inl IndexError
      end
  | ListBody _ _ _, KStr _ => inl TypeError
  end.

(** [our_recent_ops[key] = values] *)
Definition recent_ops_setitem (key : key) (values : ops) (c : container)
  : result container :=
  match contents c, key with
  | MapBody items ro, _ =>
      inr (mkContainer (object_id c) (_frozen c)
             (MapBody items (dict_set key_eqb key values ro)))
  | ListBody items ids ro, KInt i =>
      match PyList.setitem ro i (Some values) with
      | Some ro' =>
          inr (mkContainer (object_id c) (_frozen c) (ListBody items ids ro'))
      | None => inl IndexError
      end
  | ListBody _ _ _, KStr _ => inl TypeError
  end.

(** [del obj[key]] *)
Definition delitem (key : key) (c : container) : result container :=
  match contents c, key with
  | MapBody items ro, _ =>
      match dict_del key_eqb key items with
      | Some items' =>
          inr (mkContainer (object_id c) (_frozen c) (MapBody items' ro))
      | None => inl KeyError
      end
  | ListBody items ids ro, KInt i =>
      match PyList.delitem items i with
      | Some items' =>
          inr (mkContainer (object_id c) (_frozen c) (ListBody items' ids ro))
      | None => inl IndexError
      end
  | ListBody _ _ _, KStr _ => inl TypeError
  end.

(** [del our_recent_ops[key]] *)
Definition recent_ops_delitem (key : key) (c : container) : result container :=
  match contents c, key with
  | MapBody items ro, _ =>
      match dict_del key_eqb key ro with
      | Some ro' =>
          inr (mkContainer (object_id c) (_frozen c) (MapBody items ro'))
      | None => inl KeyError
      end
  | ListBody items ids ro, KInt i =>
      match PyList.delitem ro i with
      | Some ro' =>
          inr (mkContainer (object_id c) (_frozen c) (ListBody items ids ro'))
      | None => inl IndexError
      end
  | ListBody _ _ _, KStr _ => inl TypeError
  end.

(** Run an update of the container [obj] refers to, in place. *)
Definition update (obj : value) (f : container -> result container) : M unit :=
  lc <- deref obj ;;
  let (l, c) := lc in
  c' <- lift_result (f c) ;;
  store l c'.

(** Read from the container [obj] refers to. *)
Definition read {A} (obj : value) (f : container -> result A) : M A :=
  lc <- deref obj ;; lift_result (f (snd lc)).

(** [elem_ids.insert(idx, e)], [listobj.insert(idx, None)] and
    [our_recent_ops.insert(idx, None)] *)
Definition elem_ids_insert (idx : Z) (e : string) (c : container) : result container :=
  match contents c with
  | ListBody items ids ro =>
      inr (mkContainer (object_id c) (_frozen c)
             (ListBody items (PyList.insert ids idx e) ro))
  | MapBody _ _ => inl AttributeError
  end.

Definition list_insert (idx : Z) (v : value) (c : container) : result container :=
  match contents c with
  | ListBody items ids ro =>
      inr (mkContainer (object_id c) (_frozen c)
             (ListBody (PyList.insert items idx v) ids ro))
  | MapBody _ _ => inl AttributeError
  end.

Definition recent_ops_insert (idx : Z) (c : container) : result container :=
  match contents c with
  | ListBody items ids ro =>
      inr (mkContainer (object_id c) (_frozen c)
             (ListBody items ids (PyList.insert ro idx None)))
  | MapBody _ _ => inl AttributeError
  end.

(** [del elem_ids[idx]] *)
Definition elem_ids_delitem (idx : Z) (c : container) : result container :=
  match contents c with
  | ListBody items ids ro =>
      match PyList.delitem ids idx with
      | Some ids' =>
          inr (mkContainer (object_id c) (_frozen c) (ListBody items ids' ro))
      | None => inl IndexError
      end
  | MapBody _ _ => inl AttributeError
  end.

(** [listobj.recent_ops, listobj.elem_ids] *)
Definition has_elem_ids (c : container) : result unit :=
  match contents c with
  | ListBody _ _ _ => inr tt
  | MapBody _ _ => inl AttributeError
  end.

Definition rbind {A B} (r : result A) (k : A -> result B) : result B :=
  match r with
  | inr a => k a
  | inl e => inl e
  end.

(** ** Sorting the OperationIds of a conflict set *)

(** [patch_op_ids.sort(key=cmp_to_key(lamport_compare))] is a stable
    comparison sort that decides by [lamport_compare(a, b) < 0] alone.
    On a list of fewer than two keys it compares nothing; on a longer one
    every key takes part in a comparison, so that a malformed key raises.
    Insertion sort has the same result and the same failures. *)
Fixpoint insert_sorted (x : string) (l : list string) : result (list string) :=
  match l with
  | [] => inr [x]
  | y :: l' =>
      rbind (Lamport.lamport_compare y x) (fun c =>
        if c <? 0
        then rbind (insert_sorted x l') (fun l'' => inr (y :: l''))
        else inr (x :: y :: l'))
  end.

Fixpoint sort_op_ids (l : list string) : result (list string) :=
  match l with
  | [] => inr []
  | x :: l' => rbind (sort_op_ids l') (insert_sorted x)
  end.

(** ** The merge engine *)

Definition is_not_none (obj : value) : bool :=
  match obj with
  | VPrim PNone => false
  | _ => true
  end.

Definition has_field {A} (f : option A) : bool :=
  match f with Some _ => true | None => false end.

(** [patch[name]] on a field that may be missing. *)
Definition field {A} (f : option A) : M A := lift_opt KeyError f.

(** The condition [have_key_entry] of [apply_properties]. *)
Definition have_key_entry (key : key) (c : container) : result bool :=
  if recent_ops_is_dict c
  then inr (key_in_recent_ops key c)
  else match key with
       | KInt i =>
           if i <? len_recent_ops c
           then rbind (recent_ops_getitem key c) (fun d => inr (ops_truthy d))
           else inr false
       | KStr _ => inl TypeError
       end.

Section Engine.

(** The dispatcher that [get_value] calls on a nested patch. *)
Variable apply_patch : value -> patch -> M value.

Definition get_value (conflict : value) (patch : patch) : M value :=
  match p_objectId patch with
  | Some oid =>
      conflict <-
        (if truthy conflict
         then
           cid <- get_object_id conflict ;;
           if negb (String.eqb cid oid)
           then
             ty <- field (p_type patch) ;;
             if String.eqb ty "map" then alloc (Map_empty oid)
             else if String.eqb ty "list" then alloc (List_empty oid)
             else raise AssertionError
           else ret conflict
         else ret conflict) ;;
      apply_patch conflict patch
  | None =>
      match p_datatype patch with
      | Some _ => v <- field (p_value patch) ;; ret (VCounter v)
      | None => v <- field (p_value patch) ;; ret (VPrim v)
      end
  end.

(** The body of the loop over [patch_op_ids]: materialize one
    candidate and record it in [values]. *)
Definition materialize_candidate (obj : value) (key : key)
    (patch_recent_ops : dict string patch) (values : ops)
    (patch_op_id : string) : M ops :=
  subpatch <- field (dict_get String.eqb patch_op_id patch_recent_ops) ;;
  have <- read obj (have_key_entry key) ;;
  known <-
    (if have
     then read obj (fun c => rbind (recent_ops_getitem key c) (ops_mem patch_op_id))
     else ret false) ;;
  if known
  then
    old <- read obj (fun c =>
             rbind (recent_ops_getitem key c) (ops_getitem patch_op_id)) ;;
    v <- get_value old subpatch ;;
    ret (dict_set String.eqb patch_op_id v values)
  else
    v <-
      (match p_objectId subpatch with
       | Some oid =>
           ty <- field (p_type subpatch) ;;
           new_val <- alloc (if String.eqb ty "map"
                             then Map_empty oid else List_empty oid) ;;
           get_value new_val subpatch
       | None => get_value VNone subpatch
       end) ;;
    ret (dict_set String.eqb patch_op_id v values).

Fixpoint materialize_candidates (obj : value) (key : key)
    (patch_recent_ops : dict string patch) (values : ops)
    (patch_op_ids : list string) : M ops :=
  match patch_op_ids with
  | [] => ret values
  | patch_op_id :: rest =>
      values' <- materialize_candidate obj key patch_recent_ops values
                   patch_op_id ;;
      materialize_candidates obj key patch_recent_ops values' rest
  end.

(** The body of the loop of [apply_properties] over [props.items()]. *)
Definition apply_properties_slot (obj : value) (key : key)
    (patch_recent_ops : dict string patch) : M unit :=
  sorted <- lift_result (sort_op_ids (dict_keys patch_recent_ops)) ;;
  let patch_op_ids := rev sorted in
  values <- materialize_candidates obj key patch_recent_ops [] patch_op_ids ;;
  match patch_op_ids with
  | [] =>
      update obj (delitem key) ;;
      update obj (recent_ops_delitem key)
  | winner :: _ =>
      v <- field (dict_get String.eqb winner values) ;;
      update obj (setitem key v) ;;
      update obj (recent_ops_setitem key values)
  end.

Definition apply_properties (obj : value)
    (props : dict key (dict string patch)) : M unit :=
  _ <- deref obj ;;
  for_each (fun kv => apply_properties_slot obj (fst kv) (snd kv)) props.

Definition apply_edit (listobj : value) (edit : edit) : M unit :=
  let idx := index edit in
  if String.eqb (action edit) "insert"
  then
    e <- field (elemId edit) ;;
    update listobj (elem_ids_insert idx e) ;;
    update listobj (list_insert idx VNone) ;;
    update listobj (recent_ops_insert idx)
  else if String.eqb (action edit) "remove"
  then
    update listobj (elem_ids_delitem idx) ;;
    update listobj (delitem (KInt idx)) ;;
    update listobj (recent_ops_delitem (KInt idx))
  else ret tt.

Definition update_list_obj (listobj : value)
    (props : dict key (dict string patch)) (edits : list edit) : M unit :=
  read listobj has_elem_ids ;;
  for_each (apply_edit listobj) edits ;;
  apply_properties listobj props.

Definition apply_patch_body (obj : value) (patch : patch) : M value :=
  let not_none := is_not_none obj in
  (if not_none then set_frozen obj false else ret tt) ;;
  if not_none && negb (has_field (p_props patch))
              && negb (has_field (p_edits patch))
  then
    set_frozen obj true ;;
    ret obj
  else
    ty <- field (p_type patch) ;;
    (if String.eqb ty "map"
     then
       props <- field (p_props patch) ;;
       apply_properties obj props
     else if String.eqb ty "list"
     then
       props <- field (p_props patch) ;;
       edits <- field (p_edits patch) ;;
       update_list_obj obj props edits
     else raise UnknownPatchType) ;;
    (if not_none then set_frozen obj true else ret tt) ;;
    ret obj.

End Engine.

(** [apply_patch], the entry point.  The recursion goes through
    [get_value] into the sub-patches; [depth] is the number of nested
    calls the interpreter still allows, and a patch nested deeper than
    that raises [RecursionError]. *)
Fixpoint apply_patch (depth : nat) (obj : value) (patch : patch) : M value :=
  match depth with
  | O => raise RecursionError
  | S depth' => apply_patch_body (apply_patch depth') obj patch
  end.

(** ** Vocabulary of the statements *)

Module LamportOrder.
Import Lamport.

(** [ts] is a valid identifier: [parse_op_id] accepts it. *)
Definition valid (ts : string) : Prop := exists t, parse_op_id ts = inr t.

Definition validb (ts : string) : bool :=
  match parse_op_id ts with inr _ => true | inl _ => false end.

(** The three outcomes of the comparison, read off its sign. *)
Definition lt (a b : string) : Prop :=
  exists z, lamport_compare a b = inr z /\ z < 0.
Definition gt (a b : string) : Prop :=
  exists z, lamport_compare a b = inr z /\ 0 < z.
Definition tied (a b : string) : Prop := lamport_compare a b = inr 0.

(** The comparison on parsed identifiers. *)
Definition compare_parsed (t1 t2 : OpId) : Z :=
  if negb (counter t1 =? counter t2) then counter t1 - counter t2
  else if negb (String.eqb (actorId t1) (actorId t2))
  then (if str_gt (actorId t1) (actorId t2) then 1 else -1)
  else 0.

Definition ltb (a b : string) : bool :=
  match lamport_compare a b with
  | inr z => z <? 0
  | inl _ => false
  end.

End LamportOrder.

Module Shape.
Import Lamport.

(** The text that a list of characters spells. *)
Definition join (cs : list string) : string :=
  fold_right String.append EmptyString cs.

(** [c] is one character, and that character is a decimal digit: its
    value. *)
Definition digit_char (c : string) : option Z :=
  match first_digit c with
  | Some (v, _, EmptyString) => Some v
  | _ => None
  end.

Definition all_digits (cs : list string) : bool :=
  forallb (fun c => match digit_char c with Some _ => true | None => false end)
          cs.

(** The number that a list of digits writes in base ten. *)
Definition digits_value (cs : list string) : Z :=
  fold_left (fun acc c =>
               10 * acc + match digit_char c with Some v => v | None => 0 end)
            cs 0.

Fixpoint no_newline (s : string) : bool :=
  match s with
  | EmptyString => true
  | String c s' => negb (Ascii.eqb c newline) && no_newline s'
  end.

(** The shape the specification names, [<digits>@<rest>], read with an
    arbitrary remainder. *)
Definition digits_at_rest (text : string) (ds : list string) (rest : string)
  : Prop :=
  ds <> [] /\ all_digits ds = true /\
  text = String.append (join ds) (String "@" rest).

(** The shape the pattern accepts: the remainder holds no line feed,
    and one line feed may follow it. *)
Definition accepted (text : string) (ds : list string) (actor : string)
  : Prop :=
  ds <> [] /\ all_digits ds = true /\ no_newline actor = true /\
  (text = String.append (join ds) (String "@" actor) \/
   text = String.append (join ds)
            (String "@" (String.append actor (String newline EmptyString)))).

End Shape.

Module Store.

(** [obj[key]], read from a container. *)
Definition getitem (key : key) (c : container) : option value :=
  match contents c, key with
  | MapBody items _, _ => dict_get key_eqb key items
  | ListBody items _ _, KInt i => PyList.getitem items i
  | ListBody _ _ _, KStr _ => None
  end.

(** [c'] is the container [c] at a later time: the same objectId and the
    same class. *)
Definition same_object (c c' : container) : Prop :=
  object_id c' = object_id c /\
  recent_ops_is_dict c' = recent_ops_is_dict c.

(** Every container of [h] is still there in [h'], at its location. *)
Definition heap_extends (h h' : heap) : Prop :=
  forall l c, heap_get h l = Some c ->
    exists c', heap_get h' l = Some c' /\ same_object c c'.

(** A computation that keeps every container in place, whether it
    returns or raises. *)
Definition preserves {A} (m : M A) : Prop :=
  forall h h' r, m h = (h', r) -> heap_extends h h'.

(** An update of a container that keeps its identity. *)
Definition keeps_identity (f : container -> result container) : Prop :=
  forall c c', f c = inr c' -> same_object c c'.

(** The three sequences of a list have one length. *)
Definition lock_step (c : container) : Prop :=
  match contents c with
  | ListBody items ids ro =>
      List.length items = List.length ids /\
      List.length ids = List.length ro
  | MapBody _ _ => True
  end.

(** A computation that changes no container but the one at [l]. *)
Definition touches_only {A} (l : loc) (m : M A) : Prop :=
  forall h h' r, m h = (h', r) ->
    forall l', l' <> l -> heap_get h' l' = heap_get h l'.

(** Every list of the store is in lock-step. *)
Definition all_lock_step (h : heap) : Prop :=
  forall l c, heap_get h l = Some c -> lock_step c.

(** A computation that leaves every list in lock-step, whether it
    returns or raises. *)
Definition keeps_lock_step {A} (m : M A) : Prop :=
  forall h h' r, all_lock_step h -> m h = (h', r) -> all_lock_step h'.

End Store.

Module Conflict.

(** No two distinct OperationIds of the list are tied in Lamport order. *)
Definition lamport_distinct (ids : list string) : Prop :=
  forall a b, In a ids -> In b ids -> a <> b -> ~ LamportOrder.tied a b.

(** [winner] is Lamport-greater than every other OperationId of the list. *)
Definition greatest (winner : string) (ids : list string) : Prop :=
  In winner ids /\
  forall id, In id ids -> id <> winner -> LamportOrder.gt winner id.

End Conflict.

(** Patches as the examples write them. *)
Module Build.

(** A leaf sub-patch [{"value": v}]. *)
Definition leaf (v : prim) : patch :=
  mkPatch None None None None None (Some v).

(** [{"objectId": oid, "type": "map", "props": props}] *)
Definition map_patch (oid : string) (props : dict key (dict string patch))
  : patch :=
  mkPatch (Some oid) (Some "map") (Some props) None None None.

(** [{"objectId": oid, "type": "list", "props": props, "edits": edits}] *)
Definition list_patch (oid : string) (props : dict key (dict string patch))
    (edits : list edit) : patch :=
  mkPatch (Some oid) (Some "list") (Some props) (Some edits) None None.

(** A root map that holds 10 for x, written by 3@A. *)
Definition root_x10 : container :=
  mkContainer "root" true
    (MapBody [(KStr "x", VPrim (PInt 10))]
             [(KStr "x", [("3@A", VPrim (PInt 10))])]).

(** A nested map o1 that holds 1 for a. *)
Definition child_o1 : container :=
  mkContainer "o1" true
    (MapBody [(KStr "a", VPrim (PInt 1))]
             [(KStr "a", [("1@A", VPrim (PInt 1))])]).

(** The root refers to the child twice, under x and under alias. *)
Definition root_with_child : container :=
  mkContainer "root" true
    (MapBody [(KStr "x", VRef 1%nat); (KStr "alias", VRef 1%nat)]
             [(KStr "x", [("2@A", VRef 1%nat)]);
              (KStr "alias", [("3@A", VRef 1%nat)])]).

End Build.

(** ** The nesting depth of a patch *)

Module Depth.

(** The number of nested [apply_patch] calls that a patch takes: one
    for the patch itself, on top of the deepest of its sub-patches. *)
Fixpoint patch_depth (p : patch) : nat :=
  match p with
  | mkPatch _ _ props _ _ _ =>
      S (match props with
         | None => 0
         | Some slots =>
             list_max
               (map (fun slot =>
                       list_max (map (fun cand => patch_depth (snd cand))
                                     (snd slot)))
                    slots)
         end)
  end.

(** [sub] is a candidate of one of the slots of [p]. *)
Definition sub_patch (sub p : patch) : Prop :=
  exists slots k cands id,
    p_props p = Some slots /\ In (k, cands) slots /\ In (id, sub) cands.

(** No conflict set of [p] or of a patch nested in [p] is empty. *)
Inductive well_slotted : patch -> Prop :=
| well_slotted_intro (p : patch) :
    (forall slots k cands,
       p_props p = Some slots -> In (k, cands) slots -> cands <> []) ->
    (forall sub, sub_patch sub p -> well_slotted sub) ->
    well_slotted p.

(** A computation that never runs into the recursion limit. *)
Definition no_overflow {A} (m : M A) : Prop :=
  forall h h' r, m h = (h', r) -> r <> inl RecursionError.

(** Two computations that do the same on every store. *)
Definition same_run {A} (m1 m2 : M A) : Prop := forall h, m1 h = m2 h.

End Depth.

(** ** Vocabulary of the further properties *)

Module Coverage.

(** [a] is not Lamport-greater than [b]. *)
Definition le (a b : string) : Prop :=
  exists z, Lamport.lamport_compare a b = inr z /\ z <= 0.

(** A conflict set whose candidates are all leaves: none carries an
    objectId. *)
Definition flat (cands : dict string patch) : Prop :=
  forall id sp, In (id, sp) cands -> p_objectId sp = None.

(** What [get_value] returns on a leaf sub-patch: a [Counter] when the
    leaf has a datatype, the primitive itself otherwise. *)
Definition leaf_value (sp : patch) : result value :=
  match p_datatype sp, p_value sp with
  | _, None => inl KeyError
  | Some _, Some v => inr (VCounter v)
  | None, Some v => inr (VPrim v)
  end.

(** The dict [values] that the loop over [patch_op_ids] builds from
    leaves. *)
Fixpoint leaf_values (cands : dict string patch) (values : ops)
    (patch_op_ids : list string) : result ops :=
  match patch_op_ids with
  | [] => inr values
  | id :: rest =>
      match dict_get String.eqb id cands with
      | None => inl KeyError
      | Some sp =>
          rbind (leaf_value sp) (fun v =>
            leaf_values cands (dict_set String.eqb id v values) rest)
      end
  end.

(** Every container of the store is frozen, but for those at the
    locations of [open]. *)
Definition frozen_outside (open : list loc) (h : heap) : Prop :=
  forall l c, heap_get h l = Some c -> ~ In l open -> _frozen c = true.

End Coverage.

(** Containers that the further examples start from. *)
Module Samples.

(** A list that holds 10, inserted and written by 1@A. *)
Definition list_ten : container :=
  mkContainer "l" true
    (ListBody [VPrim (PInt 10)] ["1@A"] [Some [("1@A", VPrim (PInt 10))]]).

End Samples.

(** ** The merge of a slot whose candidates are leaves *)

Module FlatMerge.

(** What the merge of a slot computes from a conflict set of leaves,
    without the store: the visible value, which is the value of the
    first OperationId after the sort and the reversal, and the new
    conflict history of the slot. *)
Definition flat_outcome (cands : dict string patch) : result (value * ops) :=
  rbind (sort_op_ids (dict_keys cands)) (fun sorted =>
    rbind (Coverage.leaf_values cands [] (rev sorted)) (fun values =>
      match rev sorted with
      | [] => inl KeyError
      | winner :: _ =>
          match dict_get String.eqb winner values with
          | Some v => inr (v, values)
          | None => inl KeyError
          end
      end)).

(** The map [items], [recent_ops] after the merge of one slot with the
    outcome [(v, values)]. *)
Definition merged (c : container) (k : key) (v : value) (values : ops)
  : container :=
  match contents c with
  | MapBody items ro =>
      mkContainer (object_id c) (_frozen c)
        (MapBody (dict_set key_eqb k v items) (dict_set key_eqb k values ro))
  | ListBody _ _ _ => c
  end.

End FlatMerge.

Module FlatProps.

(** Every conflict set of [props] holds candidates, all of them leaves. *)
Definition flat_props (props : dict key (dict string patch)) : Prop :=
  forall k cands, In (k, cands) props -> Coverage.flat cands /\ cands <> [].

(** The slot [k] of [c] shows [v] and remembers exactly [values]. *)
Definition settled (c : container) (k : key) (v : value) (values : ops)
  : Prop :=
  Store.getitem k c = Some v /\ recent_ops_getitem k c = inr (Some values).

End FlatProps.

Module Guard.

(** The container [c] with its frozen flag set to [b]. *)
Definition with_frozen (c : container) (b : bool) : container :=
  mkContainer (object_id c) b (contents c).

End Guard.

Module GuardProps.

(** A computation that, when it returns, leaves frozen every container
    outside [open] that it found frozen, and those it created. *)
Definition stays_frozen {A} (open : list loc) (m : M A) : Prop :=
  forall h h' a, Coverage.frozen_outside open h -> m h = (h', inr a) ->
                 Coverage.frozen_outside open h'.

(** An update of a container that leaves its frozen flag alone. *)
Definition keeps_flag (f : container -> result container) : Prop :=
  forall c c', f c = inr c' -> _frozen c' = _frozen c.

End GuardProps.

Module Footprint.
Section Region.

(** A set of locations, the containers a call may work on. *)
Variable region : loc -> Prop.

Definition val_in (v : value) : Prop :=
  match v with
  | VRef l => region l
  | _ => True
  end.

Definition ops_in (d : ops) : Prop :=
  forall id v, In (id, v) d -> val_in v.

(** The conflict history of a container refers to the region only. *)
Definition container_in (c : container) : Prop :=
  match contents c with
  | MapBody _ ro => forall k d, In (k, d) ro -> ops_in d
  | ListBody _ _ ro => forall d, In (Some d) ro -> ops_in d
  end.

(** The region is closed in the store: the conflict history of its
    containers stays inside it, and it holds every location that is
    still free. *)
Definition closed (h : heap) : Prop :=
  (forall l c, heap_get h l = Some c -> region l -> container_in c) /\
  (forall l, (List.length h <= l)%nat -> region l).

Definition outside_untouched (h h' : heap) : Prop :=
  forall l, ~ region l -> heap_get h' l = heap_get h l.

(** A computation that stays inside a closed region, whether it returns
    or raises, and whose result satisfies [post]. *)
Definition confined {A} (m : M A) (post : A -> Prop) : Prop :=
  forall h h' r, closed h -> m h = (h', r) ->
    closed h' /\ outside_untouched h h' /\
    match r with inr a => post a | inl _ => True end.

(** An update that keeps the conflict history of a container inside
    the region. *)
Definition keeps_inside (f : container -> result container) : Prop :=
  forall c c', container_in c -> f c = inr c' -> container_in c'.

End Region.

(** The locations a store has not allocated yet. *)
Definition beyond (h : heap) (l : loc) : Prop := (List.length h <= l)%nat.

End Footprint.

(** ** Vocabulary of the merge of a whole [props] *)

Module Merge.

(** No OperationId stands twice in the conflict set, which is a dict,
    and no two of them are tied in Lamport order. *)
Definition untied (cands : dict string patch) : Prop :=
  NoDup (dict_keys cands) /\ Conflict.lamport_distinct (dict_keys cands).

(** A key that addresses a slot of [c] whatever the length of [c]: any
    key of a map, a position counted from the start of a list. *)
Definition plain_key (c : container) (k : key) : Prop :=
  recent_ops_is_dict c = false -> exists i, k = KInt i /\ 0 <= i.

(** The keys of [props] address the slots of [c] one by one, and none
    of them moves a slot: on a list no conflict set is empty and every
    key is a position counted from the start. *)
Definition plain_keys (c : container) (props : dict key (dict string patch))
  : Prop :=
  forall k cands, In (k, cands) props ->
    plain_key c k /\ (recent_ops_is_dict c = false -> cands <> []).

(** [c'] holds under [k] what [c] holds: the value and the conflict
    history. *)
Definition same_slot (k : key) (c c' : container) : Prop :=
  Store.getitem k c' = Store.getitem k c /\
  recent_ops_getitem k c' = recent_ops_getitem k c.

(** The container at [l] stands above the region: its conflict history
    refers to the region, which is closed and does not hold [l], so
    that no chain of conflict entries leads from the container back to
    itself. *)
Definition above (region : loc -> Prop) (l : loc) (c : container) (h : heap)
  : Prop :=
  heap_get h l = Some c /\ ~ region l /\
  Footprint.closed region h /\ Footprint.container_in region c.

(** The store outside the region and apart from [l]. *)
Definition others_untouched (region : loc -> Prop) (l : loc) (h h' : heap)
  : Prop :=
  forall l', l' <> l -> ~ region l' -> heap_get h' l' = heap_get h l'.

(** Two [props] with the same keys in the same order, whose conflict
    sets hold the same candidates in any order. *)
Definition same_candidates (props props' : dict key (dict string patch))
  : Prop :=
  Forall2 (fun kc kc' => fst kc = fst kc' /\ Permutation (snd kc) (snd kc'))
          props props'.

End Merge.

Module MoreSamples.

(** A list that holds 10 and 20. *)
Definition list_ten_twenty : container :=
  mkContainer "l" true
    (ListBody [VPrim (PInt 10); VPrim (PInt 20)] ["1@A"; "2@A"]
              [Some [("1@A", VPrim (PInt 10))];
               Some [("2@A", VPrim (PInt 20))]]).

(** A root map whose conflict history for a refers to the root itself. *)
Definition root_in_itself : container :=
  mkContainer "root" true
    (MapBody [(KStr "a", VRef 0%nat)]
             [(KStr "a", [("1@A", VRef 0%nat)])]).

(** The child o1 with two keys. *)
Definition child_ab : container :=
  mkContainer "o1" true
    (MapBody [(KStr "a", VPrim (PInt 1)); (KStr "b", VPrim (PInt 2))]
             [(KStr "a", [("1@A", VPrim (PInt 1))]);
              (KStr "b", [("2@A", VPrim (PInt 2))])]).

End MoreSamples.

Module Outcome.

(** In the store [hk], the merge of the slot [k] from the conflict set
    [cands] makes [v] the visible value and [values] the conflict
    history: [winner] is Lamport-greater than every other OperationId
    of the conflict set, the materializer run on it first, before any
    other, returns [v], and [values] is the mapping that the
    materializer builds from the OperationIds of the conflict set, and
    from no others, the winner first. *)
Definition slot_outcome (rec : value -> patch -> M value) (l : loc)
    (k : key) (cands : dict string patch) (hk : heap) (v : value)
    (values : ops) : Prop :=
  exists winner rest h1 hv,
    Conflict.greatest winner (dict_keys cands) /\
    Permutation (winner :: rest) (dict_keys cands) /\
    materialize_candidate rec (VRef l) k cands [] winner hk =
      (h1, inr [(winner, v)]) /\
    materialize_candidates rec (VRef l) k cands [] (winner :: rest) hk =
      (hv, inr values) /\
    dict_get String.eqb winner values = Some v /\
    (forall id, In id (dict_keys values) <-> In id (dict_keys cands)).

(** [c'] is [c] with [props] merged into it: what [props] does not
    name is kept, value and conflict history, and every slot with
    candidates, no two of them tied, shows the outcome of its merge in
    some store [hk]. *)
Definition merged_into (rec : value -> patch -> M value) (l : loc)
    (props : dict key (dict string patch)) (c c' : container) : Prop :=
  (forall k0, ~ In k0 (dict_keys props) -> Merge.plain_key c k0 ->
     Merge.same_slot k0 c c') /\
  (forall k cands, In (k, cands) props -> cands <> [] ->
     Merge.untied cands ->
     exists hk v values,
       slot_outcome rec l k cands hk v values /\
       Store.getitem k c' = Some v /\
       recent_ops_getitem k c' = inr (Some values)).

End Outcome.

(** * Properties *)

(** ** Lamport identifiers *)

Module LamportFacts.
Import Lamport LamportOrder.

Lemma lamport_compare_parsed (a b : string) (ta tb : OpId) :
  parse_op_id a = inr ta -> parse_op_id b = inr tb ->
  lamport_compare a b = inr (compare_parsed ta tb).
Proof.
  intros Ha Hb. unfold lamport_compare, compare_parsed.
  rewrite Ha, Hb.
  destruct (negb (counter ta =? counter tb)); [reflexivity|].
  destruct (negb (String.eqb (actorId ta) (actorId tb))); reflexivity.
Qed.

Lemma lamport_compare_inr (a b : string) (z : Z) :
  lamport_compare a b = inr z ->
  exists ta tb, parse_op_id a = inr ta /\ parse_op_id b = inr tb /\
                z = compare_parsed ta tb.
Proof.
  intros H. unfold lamport_compare in H.
  destruct (parse_op_id a) as [e|ta] eqn:Ha; [discriminate|].
  destruct (parse_op_id b) as [e|tb] eqn:Hb; [discriminate|].
  exists ta, tb. repeat split; trivial.
  unfold compare_parsed.
  destruct (negb (counter ta =? counter tb)); [congruence|].
  destruct (negb (String.eqb (actorId ta) (actorId tb))); congruence.
Qed.

Lemma lamport_compare_inl (a b : string) (e : exn) :
  lamport_compare a b = inl e -> e = MalformedIdentifier.
Proof.
  unfold lamport_compare, parse_op_id.
  destruct (OP_ID_RE_match a) as [[? ?]|]; [|congruence].
  destruct (OP_ID_RE_match b) as [[? ?]|]; [|congruence].
  cbn. repeat match goal with |- context [if ?c then _ else _] => destruct c end;
    discriminate.
Qed.

Lemma str_gt_lt (x y : string) : str_gt x y = true <-> String_as_OT.lt y x.
Proof.
  unfold str_gt.
  destruct (String_as_OT.compare_spec x y) as [E|L|G]; split; intros H;
    try discriminate; try reflexivity; try assumption.
  - hnf in E. subst. exfalso. eapply (StrictOrder_Irreflexive y). exact H.
  - exfalso. eapply (StrictOrder_Irreflexive x).
    eapply (StrictOrder_Transitive x y x); eassumption.
Qed.

Lemma str_gt_total (x y : string) :
  x <> y -> str_gt x y = false -> str_gt y x = true.
Proof.
  intros Hne Hf. apply str_gt_lt.
  destruct (String_as_OT.compare_spec x y) as [E|L|G]; trivial.
  - hnf in E. contradiction.
  - apply str_gt_lt in G. congruence.
Qed.

Lemma str_gt_asym (x y : string) : str_gt x y = true -> str_gt y x = false.
Proof.
  intros H. destruct (str_gt y x) eqn:E; trivial.
  apply str_gt_lt in H, E. exfalso.
  eapply (StrictOrder_Irreflexive x).
  eapply (StrictOrder_Transitive x y x); eassumption.
Qed.

Lemma str_gt_trans (x y z : string) :
  str_gt x y = true -> str_gt y z = true -> str_gt x z = true.
Proof.
  rewrite !str_gt_lt. intros A B.
  eapply (StrictOrder_Transitive z y x); eassumption.
Qed.

(** The sign of the comparison, case by case. *)
Lemma compare_parsed_neg (t1 t2 : OpId) :
  compare_parsed t1 t2 < 0 <->
  counter t1 < counter t2 \/
  (counter t1 = counter t2 /\ str_gt (actorId t2) (actorId t1) = true).
Proof.
  unfold compare_parsed.
  destruct (Z.eqb_spec (counter t1) (counter t2)) as [E|N]; cbn.
  - destruct (String.eqb_spec (actorId t1) (actorId t2)) as [E'|N']; cbn.
    + rewrite E'. split; [lia|]. intros [?|[_ H]]; [lia|].
      apply str_gt_lt in H. exfalso.
      eapply (StrictOrder_Irreflexive (actorId t2)). exact H.
    + destruct (str_gt (actorId t1) (actorId t2)) eqn:G.
      * split; [lia|]. intros [?|[_ H]]; [lia|].
        apply str_gt_asym in G. congruence.
      * split; [|lia]. intros _. right. split; trivial.
        apply str_gt_total; trivial.
  - split; intros; [left; lia|]. destruct H as [?|[? _]]; lia.
Qed.

Lemma compare_parsed_zero (t1 t2 : OpId) :
  compare_parsed t1 t2 = 0 <->
  counter t1 = counter t2 /\ actorId t1 = actorId t2.
Proof.
  unfold compare_parsed.
  destruct (Z.eqb_spec (counter t1) (counter t2)) as [E|N]; cbn.
  - destruct (String.eqb_spec (actorId t1) (actorId t2)) as [E'|N']; cbn.
    + tauto.
    + destruct (str_gt (actorId t1) (actorId t2)); split;
        try discriminate; intros [_ ?]; contradiction.
  - split; [lia|]. intros [? _]. contradiction.
Qed.

Lemma compare_parsed_opp (t1 t2 : OpId) :
  compare_parsed t2 t1 = - compare_parsed t1 t2.
Proof.
  unfold compare_parsed.
  rewrite (Z.eqb_sym (counter t2)), (String.eqb_sym (actorId t2)).
  destruct (Z.eqb_spec (counter t1) (counter t2)) as [E|N]; cbn; [|lia].
  destruct (String.eqb_spec (actorId t1) (actorId t2)) as [E'|N']; cbn; [lia|].
  destruct (str_gt (actorId t1) (actorId t2)) eqn:G.
  - rewrite (str_gt_asym _ _ G). reflexivity.
  - rewrite (str_gt_total _ _ N' G). reflexivity.
Qed.

Lemma compare_parsed_trans (t1 t2 t3 : OpId) :
  compare_parsed t1 t2 < 0 -> compare_parsed t2 t3 < 0 ->
  compare_parsed t1 t3 < 0.
Proof.
  rewrite !compare_parsed_neg.
  intros [A|[A A']] [B|[B B']]; try (left; lia).
  right. split; [lia|]. eapply str_gt_trans; eassumption.
Qed.

End LamportFacts.

Module ShapeFacts.
Import Lamport Shape.

Lemma append_nil_r (s : string) : String.append s EmptyString = s.
Proof. induction s as [|c s IH]; cbn; [reflexivity|rewrite IH; reflexivity]. Qed.

Lemma append_assoc (a b c : string) :
  String.append (String.append a b) c = String.append a (String.append b c).
Proof. induction a as [|x a IH]; cbn; [reflexivity|rewrite IH; reflexivity]. Qed.

Lemma append_length (a b : string) :
  String.length (String.append a b) = (String.length a + String.length b)%nat.
Proof. induction a as [|x a IH]; cbn; [reflexivity|rewrite IH; reflexivity]. Qed.

(** The first character of a text is a prefix of one to four bytes, and
    it is read the same whatever follows it. *)
Lemma first_char_spec (s bytes rest : string) (cp : N) :
  first_char s = Some (cp, bytes, rest) ->
  s = String.append bytes rest /\ bytes <> EmptyString /\
  forall r, first_char (String.append bytes r) = Some (cp, bytes, r).
Proof.
  unfold first_char. destruct s as [|b0 s1]; [discriminate|].
  cbv zeta.
  destruct (N_of_ascii b0 <? 128)%N eqn:T1.
  { intros [= <- <- <-]. repeat split; [discriminate|].
    intros r. cbn [String.append]. rewrite T1. reflexivity. }
  destruct (N_of_ascii b0 <? 192)%N eqn:T2; [discriminate|].
  destruct (N_of_ascii b0 <? 224)%N eqn:T3.
  { destruct s1 as [|b1 s2]; [discriminate|].
    destruct (continuation b1) as [c1|] eqn:C1; [|discriminate].
    destruct (128 <=? (N_of_ascii b0 - 192) * 64 + c1)%N eqn:R;
      [|discriminate].
    intros [= <- <- <-]. repeat split; [discriminate|].
    intros r. cbn [String.append]. rewrite T1, T2, T3, C1, R. reflexivity. }
  destruct (N_of_ascii b0 <? 240)%N eqn:T4.
  { destruct s1 as [|b1 [|b2 s3]]; try discriminate.
    destruct (continuation b1) as [c1|] eqn:C1; [|discriminate].
    destruct (continuation b2) as [c2|] eqn:C2; [|discriminate].
    destruct (2048 <=? ((N_of_ascii b0 - 224) * 64 + c1) * 64 + c2)%N eqn:R;
      [|discriminate].
    intros [= <- <- <-]. repeat split; [discriminate|].
    intros r. cbn [String.append]. rewrite T1, T2, T3, T4, C1, C2, R.
    reflexivity. }
  destruct (N_of_ascii b0 <? 248)%N eqn:T5; [|discriminate].
  destruct s1 as [|b1 [|b2 [|b3 s4]]]; try discriminate.
  destruct (continuation b1) as [c1|] eqn:C1; [|discriminate].
  destruct (continuation b2) as [c2|] eqn:C2; [|discriminate].
  destruct (continuation b3) as [c3|] eqn:C3; [|discriminate].
  match goal with
  | |- (if ?c then _ else _) = _ -> _ => destruct c eqn:R; [|discriminate]
  end.
  intros [= <- <- <-]. repeat split; [discriminate|].
  intros r. cbn [String.append]. rewrite T1, T2, T3, T4, T5, C1, C2, C3, R.
  reflexivity.
Qed.

Lemma decimal_range (cp : N) (v : Z) : decimal cp = Some v -> 0 <= v <= 9.
Proof.
  unfold decimal.
  destruct (find (fun z => ((z <=? cp) && (cp <? z + 10))%N) decimal_zeros)
    as [z|] eqn:F; [|discriminate].
  apply find_some in F. destruct F as [_ F]. apply andb_prop in F.
  destruct F as [A B]. apply N.leb_le in A. apply N.ltb_lt in B.
  intros [= <-]. lia.
Qed.

Lemma first_digit_spec (s bytes rest : string) (v : Z) :
  first_digit s = Some (v, bytes, rest) ->
  s = String.append bytes rest /\ bytes <> EmptyString /\
  0 <= v <= 9 /\
  forall r, first_digit (String.append bytes r) = Some (v, bytes, r).
Proof.
  unfold first_digit.
  destruct (first_char s) as [[[cp b] r0]|] eqn:C; [|discriminate].
  destruct (decimal cp) as [v0|] eqn:D; [|discriminate].
  intros [= <- <- <-].
  destruct (first_char_spec _ _ _ _ C) as (E & N & A).
  repeat split; trivial; try (apply (decimal_range _ _ D)).
  intros r. rewrite A, D. reflexivity.
Qed.

Lemma first_digit_shorter (s bytes rest : string) (v : Z) :
  first_digit s = Some (v, bytes, rest) ->
  (String.length rest < String.length s)%nat.
Proof.
  intros H. destruct (first_digit_spec _ _ _ _ H) as (-> & N & _).
  rewrite append_length. destruct bytes; [contradiction|cbn; lia].
Qed.

Lemma first_digit_char (s bytes rest : string) (v : Z) :
  first_digit s = Some (v, bytes, rest) -> digit_char bytes = Some v.
Proof.
  intros H. destruct (first_digit_spec _ _ _ _ H) as (_ & _ & _ & A).
  unfold digit_char. specialize (A EmptyString).
  rewrite append_nil_r in A. rewrite A. reflexivity.
Qed.

Lemma digit_char_first (c : string) (v : Z) :
  digit_char c = Some v ->
  c <> EmptyString /\ 0 <= v <= 9 /\
  forall r, first_digit (String.append c r) = Some (v, c, r).
Proof.
  unfold digit_char.
  destruct (first_digit c) as [[[v0 b] r0]|] eqn:F; [|discriminate].
  destruct r0; [|discriminate]. intros [= <-].
  destruct (first_digit_spec _ _ _ _ F) as (E & N & R & A).
  rewrite append_nil_r in E. subst b. auto.
Qed.

Lemma first_digit_empty : first_digit EmptyString = None.
Proof. reflexivity. Qed.

(** The bound on the number of characters is never reached. *)
Lemma span_digits_upto_spec (n : nat) (s ds rest : string) :
  (String.length s <= n)%nat ->
  span_digits_upto n s = (ds, rest) ->
  exists cs, all_digits cs = true /\ ds = join cs /\
             s = String.append ds rest /\ first_digit rest = None.
Proof.
  revert s ds rest. induction n as [|n IH]; intros s ds rest L H; cbn in H.
  - inversion H; subst. destruct rest; [|cbn in L; lia].
    exists []. auto.
  - destruct (first_digit s) as [[[v b] r]|] eqn:F.
    + destruct (span_digits_upto n r) as [ds' tail] eqn:E.
      inversion H; subst; clear H.
      pose proof (first_digit_shorter _ _ _ _ F) as Sh.
      destruct (IH r ds' rest ltac:(lia) E) as (cs & A & -> & -> & N).
      exists (b :: cs). cbn [all_digits forallb join fold_right].
      rewrite (first_digit_char _ _ _ _ F). fold (all_digits cs).
      rewrite A. destruct (first_digit_spec _ _ _ _ F) as (-> & _).
      rewrite append_assoc. auto.
    + inversion H; subst. exists []. auto.
Qed.

Lemma span_digits_upto_join (cs : list string) (rest : string) (n : nat) :
  all_digits cs = true -> first_digit rest = None ->
  (String.length (String.append (join cs) rest) <= n)%nat ->
  span_digits_upto n (String.append (join cs) rest) = (join cs, rest).
Proof.
  intros A N. revert n. induction cs as [|c cs IH]; intros n L.
  - cbn [join fold_right String.append]. destruct n; cbn; [reflexivity|].
    rewrite N. reflexivity.
  - cbn [all_digits forallb] in A. apply andb_prop in A.
    destruct A as [Ac A].
    destruct (digit_char c) as [v|] eqn:D; [|discriminate].
    destruct (digit_char_first _ _ D) as (Ne & _ & F).
    cbn [join fold_right] in *. fold (join cs) in *.
    rewrite append_assoc in *. rewrite append_length in L.
    destruct n as [|n]; [destruct c; [contradiction|cbn in L; lia]|].
    cbn [span_digits_upto]. rewrite F.
    rewrite (IH A n) by (destruct c; [contradiction|cbn in L; lia]).
    reflexivity.
Qed.

Lemma int_of_digits_upto_join (cs : list string) (n : nat) (acc : Z) :
  all_digits cs = true -> (String.length (join cs) <= n)%nat ->
  int_of_digits_upto n acc (join cs) =
  fold_left (fun acc c =>
               10 * acc + match digit_char c with Some v => v | None => 0 end)
            cs acc.
Proof.
  intros A. revert n acc. induction cs as [|c cs IH]; intros n acc L.
  - cbn. destruct n; reflexivity.
  - cbn [all_digits forallb] in A. apply andb_prop in A.
    destruct A as [Ac A].
    destruct (digit_char c) as [v|] eqn:D; [|discriminate].
    destruct (digit_char_first _ _ D) as (Ne & _ & F).
    cbn [join fold_right fold_left] in *. fold (join cs) in *.
    rewrite append_length in L.
    destruct n as [|n]; [destruct c; [contradiction|cbn in L; lia]|].
    cbn [int_of_digits_upto]. rewrite F, D.
    apply IH; [exact A|]. destruct c; [contradiction|cbn in L; lia].
Qed.

Lemma span_digits_spec (s ds rest : string) :
  span_digits s = (ds, rest) ->
  exists cs, all_digits cs = true /\ ds = join cs /\
             s = String.append ds rest /\ first_digit rest = None.
Proof. apply span_digits_upto_spec. apply Nat.le_refl. Qed.

Lemma span_digits_append (cs : list string) (rest : string) :
  all_digits cs = true -> first_digit rest = None ->
  span_digits (String.append (join cs) rest) = (join cs, rest).
Proof.
  intros A N. apply span_digits_upto_join; [exact A|exact N|apply Nat.le_refl].
Qed.

(** [int] of a run of digits is the number they write in base ten. *)
Lemma int_of_digits_join (cs : list string) :
  all_digits cs = true -> int_of_digits (join cs) = digits_value cs.
Proof.
  intros A. apply int_of_digits_upto_join; [exact A|apply Nat.le_refl].
Qed.

Lemma join_nonempty (cs : list string) :
  cs <> [] -> all_digits cs = true -> join cs <> EmptyString.
Proof.
  destruct cs as [|c cs]; [contradiction|]. intros _ A.
  cbn [all_digits forallb] in A. apply andb_prop in A. destruct A as [Ac _].
  destruct (digit_char c) as [v|] eqn:D; [|discriminate].
  destruct (digit_char_first _ _ D) as (Ne & _).
  cbn. destruct c; [contradiction|discriminate].
Qed.

Lemma dot_star_eol_spec (s a : string) :
  dot_star_eol s = Some a <->
  no_newline a = true /\
  (s = a \/ s = String.append a (String newline EmptyString)).
Proof.
  split.
  - revert a. induction s as [|c s IH]; intros a H; cbn in H.
    + inversion H. cbn. auto.
    + destruct (Ascii.eqb_spec c newline) as [E|N].
      * destruct s; [|discriminate]. inversion H; subst. cbn. auto.
      * destruct (dot_star_eol s) as [a'|]; [|discriminate].
        inversion H; subst. destruct (IH a' eq_refl) as [A B].
        cbn. rewrite A. destruct (Ascii.eqb_spec c newline); [contradiction|].
        split; [reflexivity|].
        destruct B as [B|B]; [left|right]; subst s; reflexivity.
  - revert s. induction a as [|c a IH]; intros s [Hn [H|H]]; subst; cbn in *.
    + reflexivity.
    + reflexivity.
    + apply andb_prop in Hn. destruct Hn as [Hc Hn].
      destruct (Ascii.eqb c newline); [discriminate|].
      rewrite (IH a (conj Hn (or_introl eq_refl))). reflexivity.
    + apply andb_prop in Hn. destruct Hn as [Hc Hn].
      destruct (Ascii.eqb c newline); [discriminate|].
      rewrite (IH _ (conj Hn (or_intror eq_refl))). reflexivity.
Qed.

Lemma parse_op_id_accepted (text : string) (ds : list string)
    (actor : string) :
  accepted text ds actor ->
  parse_op_id text = inr (mkOpId (digits_value ds) actor).
Proof.
  intros (Hne & Hd & Hn & Ht).
  assert (Hs : exists tail,
             text = String.append (join ds) (String "@" tail) /\
             dot_star_eol tail = Some actor).
  { destruct Ht as [Ht|Ht]; eexists; (split; [exact Ht|]);
      apply dot_star_eol_spec; auto. }
  destruct Hs as (tail & -> & Htail).
  unfold parse_op_id, OP_ID_RE_match.
  rewrite (span_digits_append ds (String "@" tail) Hd eq_refl).
  pose proof (join_nonempty ds Hne Hd) as J.
  rewrite <- (int_of_digits_join ds Hd).
  destruct (join ds); [contradiction|]. rewrite Htail. reflexivity.
Qed.

Lemma parse_op_id_inr (text : string) (t : OpId) :
  parse_op_id text = inr t ->
  exists ds, accepted text ds (actorId t) /\ counter t = digits_value ds.
Proof.
  unfold parse_op_id, OP_ID_RE_match.
  destruct (span_digits text) as [g1 rest] eqn:E.
  destruct (span_digits_spec _ _ _ E) as (cs & A & -> & B & _).
  destruct (join cs) as [|d g] eqn:J; [discriminate|].
  destruct rest as [|c tail]; [discriminate|].
  destruct c as [[] [] [] [] [] [] [] []]; try discriminate.
  destruct (dot_star_eol tail) as [actor|] eqn:T; [|discriminate].
  intros H. inversion H; subst t; clear H. cbn [actorId counter].
  exists cs. rewrite <- J in *. split; [|apply int_of_digits_join; exact A].
  apply dot_star_eol_spec in T. destruct T as [T1 T2].
  repeat split; trivial.
  - intros ->. discriminate J.
  - destruct T2 as [T2|T2]; subst tail; [left|right]; exact B.
Qed.

Lemma parse_op_id_inl (text : string) (e : exn) :
  parse_op_id text = inl e -> e = MalformedIdentifier.
Proof.
  unfold parse_op_id. destruct (OP_ID_RE_match text) as [[? ?]|]; congruence.
Qed.

(** A digit of another script counts as one: the Arabic-Indic digit
    three, code point 1635, whose encoding is the bytes 217 and 163,
    and the fullwidth digits one and two, code points 65297 and 65298.
    A superscript two, code point 178, is no decimal digit. *)
Lemma parse_op_id_other_scripts :
  parse_op_id (String "217" (String "163" "@A")) = inr (mkOpId 3 "A") /\
  parse_op_id (String "239" (String "188" (String "145"
                 (String "239" (String "188" (String "146" "@x"))))))
    = inr (mkOpId 12 "x") /\
  parse_op_id (String "194" (String "178" "@A")) = inl MalformedIdentifier.
Proof. repeat split. Qed.

End ShapeFacts.

Module LamportClaims.
Import Lamport LamportOrder Shape LamportFacts ShapeFacts.

(** C7: [lamport_compare] is a total order on valid identifiers.  For
    valid [a], [b], [c]: exactly one of less, tied and greater holds of
    [a] and [b]; they are tied only when counter and actorId are both
    the same; less is transitive; swapping the arguments negates the
    result; and the order looks at the counter first and, on equal
    counters, at the actorIds in lexicographic order. *)
Theorem lamport_compare_total_order (a b c : string) :
  valid a -> valid b -> valid c ->
  ((lt a b /\ ~ tied a b /\ ~ gt a b) \/
   (~ lt a b /\ tied a b /\ ~ gt a b) \/
   (~ lt a b /\ ~ tied a b /\ gt a b)) /\
  (tied a b <-> parse_op_id a = parse_op_id b) /\
  (lt a b -> lt b c -> lt a c) /\
  (exists z, lamport_compare a b = inr z /\ lamport_compare b a = inr (- z)) /\
  (forall ta tb, parse_op_id a = inr ta -> parse_op_id b = inr tb ->
     (lt a b <->
      counter ta < counter tb \/
      (counter ta = counter tb /\
       String_as_OT.lt (actorId ta) (actorId tb)))).
Proof.
  intros [ta Ha] [tb Hb] [tc Hc].
  pose proof (lamport_compare_parsed a b ta tb Ha Hb) as Hab.
  pose proof (lamport_compare_parsed b a tb ta Hb Ha) as Hba.
  pose proof (lamport_compare_parsed b c tb tc Hb Hc) as Hbc.
  pose proof (lamport_compare_parsed a c ta tc Ha Hc) as Hac.
  unfold lt, gt, tied. rewrite Hab, Hbc, Hac, Hba.
  repeat split.
  - destruct (Z.lt_trichotomy (compare_parsed ta tb) 0) as [L|[E|G]].
    + left. repeat split.
      * eexists; split; [reflexivity|exact L].
      * intros H. inversion H. lia.
      * intros (z & H & Hz). inversion H. lia.
    + right; left. repeat split.
      * intros (z & H & Hz). inversion H. lia.
      * rewrite E. reflexivity.
      * intros (z & H & Hz). inversion H. lia.
    + right; right. repeat split.
      * intros (z & H & Hz). inversion H. lia.
      * intros H. inversion H. lia.
      * eexists; split; [reflexivity|lia].
  - intros H. inversion H as [H0]. apply compare_parsed_zero in H0.
    rewrite Ha, Hb. destruct ta, tb; cbn in *. destruct H0; subst; reflexivity.
  - rewrite Ha, Hb. intros H. inversion H; subst.
    assert (E : compare_parsed tb tb = 0) by (apply compare_parsed_zero; auto).
    rewrite E. reflexivity.
  - intros (z & H & Hz) (z' & H' & Hz'). inversion H; inversion H'; subst.
    eexists; split; [reflexivity|]. eapply compare_parsed_trans; eassumption.
  - eexists; split; [reflexivity|]. rewrite compare_parsed_opp. reflexivity.
  - intros (z & P & Hz). inversion P; subst.
    rewrite Ha in H. rewrite Hb in H0. inversion H; inversion H0; subst.
    apply compare_parsed_neg in Hz. rewrite str_gt_lt in Hz. exact Hz.
  - intros Hlex. rewrite Ha in H. rewrite Hb in H0.
    inversion H; inversion H0; subst.
    eexists; split; [reflexivity|]. apply compare_parsed_neg.
    rewrite str_gt_lt. exact Hlex.
Qed.

Lemma lamport_compare_total_order_witness :
  valid "5@A" /\ valid "7@B" /\ valid "7@C" /\ lt "5@A" "7@C".
Proof.
  assert (Ha : valid "5@A") by (eexists; reflexivity).
  assert (Hb : valid "7@B") by (eexists; reflexivity).
  assert (Hc : valid "7@C") by (eexists; reflexivity).
  repeat split; trivial.
  destruct (lamport_compare_total_order "5@A" "7@B" "7@C" Ha Hb Hc)
    as (_ & _ & Htrans & _).
  apply Htrans; eexists; (split; [reflexivity|reflexivity]).
Defined.

End LamportClaims.

Module ParseClaims.
Import Lamport Shape ShapeFacts.

(** C8, as amended: [parse_op_id] fails with MalformedIdentifier exactly
    when the text is not of the shape the pattern accepts, which is one
    or more decimal digits, of any script, an at sign and a remainder
    without line feeds, optionally followed by one final line feed; on
    a text of that shape it returns the identifier whose counter is the
    number the digits write in base ten and whose actorId is the
    remainder, without the final line feed. *)
Theorem parse_op_id_accepts (text : string) :
  (forall ds actor, accepted text ds actor ->
     parse_op_id text = inr (mkOpId (digits_value ds) actor)) /\
  (parse_op_id text = inl MalformedIdentifier <->
   ~ exists ds actor, accepted text ds actor).
Proof.
  split; [apply parse_op_id_accepted|]. split.
  - intros H (ds & actor & Hacc).
    rewrite (parse_op_id_accepted _ _ _ Hacc) in H. discriminate.
  - intros H. destruct (parse_op_id text) as [e|t] eqn:E.
    + f_equal. eapply parse_op_id_inl. exact E.
    + exfalso. apply H. destruct (parse_op_id_inr _ _ E) as (ds & Hacc & _).
      eauto.
Qed.

(** C8 as stated does not hold: the text made of 5, an at sign, a, a
    line feed and b has the shape digits-at-rest and is rejected; and
    on 5, an at sign, A and a final line feed the actorId returned is A,
    not the whole remainder after the at sign. *)
Lemma parse_op_id_rest_counterexample :
  (digits_at_rest (String "5" (String "@" (String "a" (String newline "b"))))
     ["5"] (String "a" (String newline "b")) /\
   parse_op_id (String "5" (String "@" (String "a" (String newline "b"))))
     = inl MalformedIdentifier) /\
  (digits_at_rest (String "5" (String "@" (String "A" (String newline ""))))
     ["5"] (String "A" (String newline "")) /\
   parse_op_id (String "5" (String "@" (String "A" (String newline ""))))
     = inr (mkOpId 5 "A")).
Proof.
  repeat split; discriminate.
Qed.

End ParseClaims.

(** ** The store and the computations on it *)

Lemma heap_get_set_same (h : heap) (l : loc) (c c' : container) :
  heap_get h l = Some c -> heap_get (heap_set h l c') l = Some c'.
Proof.
  unfold heap_get. revert l. induction h as [|x h IH]; intros [|l] H; cbn in *;
    try discriminate; auto.
Qed.

Lemma heap_get_set_other (h : heap) (l l' : loc) (c' : container) :
  l <> l' -> heap_get (heap_set h l c') l' = heap_get h l'.
Proof.
  unfold heap_get. revert l l'.
  induction h as [|x h IH]; intros [|l] [|l'] H; cbn; try reflexivity;
    try contradiction. apply IH. congruence.
Qed.

Lemma heap_set_set (h : heap) (l : loc) (c c' : container) :
  heap_set (heap_set h l c) l c' = heap_set h l c'.
Proof.
  revert l. induction h as [|x h IH]; intros [|l]; cbn; try reflexivity.
  rewrite IH. reflexivity.
Qed.

Lemma heap_set_length (h : heap) (l : loc) (c : container) :
  List.length (heap_set h l c) = List.length h.
Proof.
  revert l. induction h as [|x h IH]; intros [|l]; cbn; auto.
Qed.

Lemma bind_inv {A B} (c : M A) (k : A -> M B) (h h' : heap) (r : result B) :
  bind c k h = (h', r) ->
  (exists e, c h = (h', inl e) /\ r = inl e) \/
  (exists h1 a, c h = (h1, inr a) /\ k a h1 = (h', r)).
Proof.
  unfold bind. destruct (c h) as [h1 [e|a]]; intros H.
  - left. inversion H; subst. eauto.
  - right. eauto.
Qed.

Lemma bind_inr {A B} (c : M A) (k : A -> M B) (h h' : heap) (b : B) :
  bind c k h = (h', inr b) ->
  exists h1 a, c h = (h1, inr a) /\ k a h1 = (h', inr b).
Proof.
  intros H. destruct (bind_inv _ _ _ _ _ H) as [(e & _ & E)|R];
    [discriminate|exact R].
Qed.

Lemma bind_ok {A B} (c : M A) (k : A -> M B) (h h1 : heap) (a : A) :
  c h = (h1, inr a) -> bind c k h = k a h1.
Proof. unfold bind. intros ->. reflexivity. Qed.

Lemma bind_raise {A B} (c : M A) (k : A -> M B) (h h1 : heap) (e : exn) :
  c h = (h1, inl e) -> bind c k h = (h1, inl e).
Proof. unfold bind. intros ->. reflexivity. Qed.

Lemma deref_ok (l : loc) (c : container) (h : heap) :
  heap_get h l = Some c -> deref (VRef l) h = (h, inr (l, c)).
Proof. unfold deref. intros ->. reflexivity. Qed.

Lemma deref_inr (obj : value) (h h' : heap) (l : loc) (c : container) :
  deref obj h = (h', inr (l, c)) ->
  obj = VRef l /\ h' = h /\ heap_get h l = Some c.
Proof.
  unfold deref. destruct obj as [p|p|l0]; try discriminate.
  destruct (heap_get h l0) eqn:E; intros H; inversion H; subst. auto.
Qed.

Lemma set_frozen_ok (l : loc) (c : container) (b : bool) (h : heap) :
  heap_get h l = Some c ->
  set_frozen (VRef l) b h =
    (heap_set h l (mkContainer (object_id c) b (contents c)), inr tt).
Proof.
  intros H. unfold set_frozen. rewrite (bind_ok _ _ _ _ _ (deref_ok _ _ _ H)).
  reflexivity.
Qed.

Lemma set_frozen_inr (l0 : loc) (b : bool) (h h' : heap) (u : unit) :
  set_frozen (VRef l0) b h = (h', inr u) ->
  exists l c, VRef l0 = VRef l /\ heap_get h l = Some c /\
    h' = heap_set h l (mkContainer (object_id c) b (contents c)).
Proof.
  unfold set_frozen. intros H.
  apply bind_inr in H. destruct H as (h1 & [l c] & D & S).
  apply deref_inr in D. destruct D as (E & -> & G).
  unfold store in S. inversion S. eauto.
Qed.

(** On a [Counter] the assignment succeeds and the store is as it was. *)
Lemma set_frozen_counter (p : prim) (b : bool) (h : heap) :
  set_frozen (VCounter p) b h = (h, inr tt).
Proof. reflexivity. Qed.

(** [obj._frozen = b] succeeds on a container and on a [Counter]. *)
Lemma set_frozen_cases (obj : value) (b : bool) (h h' : heap)
    (r : result unit) :
  set_frozen obj b h = (h', r) ->
  (exists p, obj = VCounter p /\ h' = h /\ r = inr tt) \/
  (exists l c, obj = VRef l /\ heap_get h l = Some c /\ r = inr tt /\
     h' = heap_set h l (mkContainer (object_id c) b (contents c))) \/
  (h' = h /\ r = inl AttributeError).
Proof.
  destruct obj as [p|p|l]; cbn.
  - intros [= <- <-]. right. right. auto.
  - intros [= <- <-]. left. eauto.
  - unfold bind, deref, store.
    destruct (heap_get h l) as [c|] eqn:G; intros [= <- <-].
    + right. left. eauto 8.
    + right. right. auto.
Qed.

Lemma set_frozen_prim (p : prim) (b : bool) (h : heap) :
  set_frozen (VPrim p) b h = (h, inl AttributeError).
Proof. reflexivity. Qed.

Module DispatcherClaims.

(** C10: called without an object on a patch of type map or list that
    carries props or edits, [apply_patch] raises, and it leaves the
    store as it found it: the dispatcher creates no container. *)
Theorem apply_patch_absent_raises (depth : nat) (patch : patch) (h : heap) :
  p_type patch = Some "map" \/ p_type patch = Some "list" ->
  has_field (p_props patch) = true \/ has_field (p_edits patch) = true ->
  exists e, apply_patch (S depth) VNone patch h = (h, inl e) /\
            (e = AttributeError \/ e = KeyError).
Proof.
  intros Hty _. cbn. unfold apply_patch_body. cbn.
  destruct patch as [oid ty props edits dt v]. cbn in *.
  destruct Hty as [->| ->]; cbn.
  - destruct props as [props|]; cbn; eauto.
  - destruct props as [props|]; cbn; eauto.
    destruct edits as [edits|]; cbn; eauto.
Qed.

Lemma apply_patch_absent_raises_witness :
  exists e,
    apply_patch 1 VNone
      (mkPatch (Some "o") (Some "map") (Some []) None None None)
      [Map_empty "root"] = ([Map_empty "root"], inl e) /\
    (e = AttributeError \/ e = KeyError).
Proof.
  apply (apply_patch_absent_raises 0
           (mkPatch (Some "o") (Some "map") (Some []) None None None)
           [Map_empty "root"]).
  - left. reflexivity.
  - left. reflexivity.
Defined.

(** C6, as amended: for every container present in the store and every
    patch that has neither props nor edits, [apply_patch] returns that
    same object, raises nothing, and leaves the store as it was except
    that the object's frozen flag is true. *)
Theorem apply_patch_noop (depth : nat) (l : loc) (c : container)
    (patch : patch) (h : heap) :
  heap_get h l = Some c ->
  p_props patch = None -> p_edits patch = None ->
  apply_patch (S depth) (VRef l) patch h =
    (heap_set h l (mkContainer (object_id c) true (contents c)),
     inr (VRef l)).
Proof.
  intros Hc Hp He. cbn. unfold apply_patch_body. cbn.
  rewrite Hp, He. cbn.
  rewrite (bind_ok _ _ _ _ _ (set_frozen_ok l c false h Hc)).
  erewrite bind_ok
    by (apply set_frozen_ok; eapply heap_get_set_same; exact Hc).
  cbn. rewrite heap_set_set. reflexivity.
Qed.

Lemma apply_patch_noop_witness :
  apply_patch 1 (VRef 0%nat)
    (mkPatch (Some "root") (Some "map") None None None None)
    [mkContainer "root" false (MapBody [(KStr "x", VPrim (PInt 1))] [])] =
  ([mkContainer "root" true (MapBody [(KStr "x", VPrim (PInt 1))] [])],
   inr (VRef 0%nat)).
Proof.
  apply (apply_patch_noop 0 0%nat
           (mkContainer "root" false (MapBody [(KStr "x", VPrim (PInt 1))] []))
           (mkPatch (Some "root") (Some "map") None None None None));
    reflexivity.
Defined.

(** C6 as stated does not hold for an absent object: the patch without
    props and edits is then no no-op, the call raises. *)
Lemma apply_patch_noop_absent_counterexample :
  apply_patch 1 VNone
    (mkPatch (Some "root") (Some "map") None None None None) [] =
  ([], inl KeyError).
Proof. reflexivity. Qed.

End DispatcherClaims.

Module GuardClaims.

(** C3, as amended: for every container present in the store and every
    patch, when [apply_patch] returns normally it returns that object
    with its frozen flag true; when it raises on an unknown patch type
    the flag stays false, as the call set it on entry: nothing restores
    the flag on the way out of a failing call. *)
Theorem apply_patch_frozen_on_return (depth : nat) (l : loc) (c : container)
    (patch : patch) (h : heap) :
  heap_get h l = Some c ->
  (forall h' v, apply_patch depth (VRef l) patch h = (h', inr v) ->
     v = VRef l /\
     exists c', heap_get h' l = Some c' /\ _frozen c' = true) /\
  (forall ty, p_type patch = Some ty ->
     String.eqb ty "map" = false -> String.eqb ty "list" = false ->
     has_field (p_props patch) = true \/ has_field (p_edits patch) = true ->
     apply_patch (S depth) (VRef l) patch h =
       (heap_set h l (mkContainer (object_id c) false (contents c)),
        inl UnknownPatchType)).
Proof.
  intros Hc. split.
  - intros h' v H. destruct depth as [|depth]; [discriminate|].
    cbn in H. unfold apply_patch_body in H. cbn in H.
    apply bind_inr in H. destruct H as (h1 & [] & _ & H).
    destruct (negb (has_field (p_props patch)) &&
              negb (has_field (p_edits patch))).
    + apply bind_inr in H. destruct H as (h2 & [] & F & H).
      inversion H; subst. split; [reflexivity|].
      apply set_frozen_inr in F. destruct F as (l' & c' & E & G & ->).
      inversion E; subst l'. eexists. split.
      * eapply heap_get_set_same. exact G.
      * reflexivity.
    + apply bind_inr in H. destruct H as (h2 & ty & _ & H).
      apply bind_inr in H. destruct H as (h3 & [] & _ & H).
      apply bind_inr in H. destruct H as (h4 & [] & F & H).
      inversion H; subst. split; [reflexivity|].
      apply set_frozen_inr in F. destruct F as (l' & c' & E & G & ->).
      inversion E; subst l'. eexists. split.
      * eapply heap_get_set_same. exact G.
      * reflexivity.
  - intros ty Hty Hm Hl Hpe. cbn. unfold apply_patch_body. cbn.
    rewrite (bind_ok _ _ _ _ _ (set_frozen_ok l c false h Hc)).
    assert (E : negb (has_field (p_props patch)) &&
                negb (has_field (p_edits patch)) = false).
    { destruct Hpe as [-> | ->]; cbn; [reflexivity|apply andb_false_r]. }
    rewrite E, Hty. cbn. rewrite Hm, Hl. reflexivity.
Qed.

Lemma apply_patch_frozen_on_return_witness :
  heap_get [Map_empty "root"] 0%nat = Some (Map_empty "root") /\
  apply_patch 1 (VRef 0%nat)
    (mkPatch (Some "root") (Some "text") (Some []) None None None)
    [Map_empty "root"] =
  ([mkContainer "root" false (MapBody [] [])], inl UnknownPatchType).
Proof.
  split; [reflexivity|].
  destruct (apply_patch_frozen_on_return 0 0%nat (Map_empty "root")
              (mkPatch (Some "root") (Some "text") (Some []) None None None)
              [Map_empty "root"] eq_refl) as [_ H].
  apply (H "text"); try reflexivity. left. reflexivity.
Defined.

(** C3 as stated does not hold on the raising paths.  On a frozen root
    map, a patch of an unknown type raises and leaves the flag false;
    so does a map patch with a malformed OperationId among the
    candidates of a key. *)
Lemma apply_patch_raise_leaves_guard_open_counterexample :
  (exists c',
     apply_patch 2 (VRef 0%nat)
       (mkPatch (Some "root") (Some "text") (Some []) None None None)
       [Map_empty "root"] = ([c'], inl UnknownPatchType) /\
     _frozen c' = false) /\
  (exists c',
     apply_patch 2 (VRef 0%nat)
       (mkPatch (Some "root") (Some "map")
          (Some [(KStr "k",
                  [("bad", mkPatch None None None None None (Some (PInt 1)));
                   ("1@A", mkPatch None None None None None (Some (PInt 2)))])])
          None None None)
       [Map_empty "root"] = ([c'], inl MalformedIdentifier) /\
     _frozen c' = false).
Proof.
  split; eexists; split; reflexivity.
Qed.

End GuardClaims.

Module Defects.
Import Build Store.

(** A primitive in the place of an existing conflict entry makes
    [get_value] raise [AttributeError] on a sub-patch that carries an
    objectId: a true primitive fails on [conflict.object_id], a false
    one other than [None] on [obj._frozen] in the dispatcher. *)
Lemma get_value_primitive_conflict (depth : nat) (p : prim) (patch : patch)
    (oid : string) (h : heap) :
  p <> PNone -> p_objectId patch = Some oid ->
  get_value (apply_patch (S depth)) (VPrim p) patch h = (h, inl AttributeError).
Proof.
  intros Hp Hoid. unfold get_value. rewrite Hoid.
  destruct (truthy (VPrim p)) eqn:T.
  - reflexivity.
  - cbn. unfold apply_patch_body.
    assert (N : is_not_none (VPrim p) = true)
      by (destruct p; [contradiction|reflexivity..]).
    rewrite N. reflexivity.
Qed.

(** C9, evaluated where it fails: the root map holds the primitive 10
    as the candidate of 3@A for key x, and the patch brings a map
    sub-patch for that same OperationId.  The call raises
    [AttributeError], which is neither of the two documented kinds. *)
Theorem apply_patch_primitive_then_object_raises :
  apply_patch 3 (VRef 0%nat)
    (map_patch "root" [(KStr "x", [("3@A", map_patch "o1" [])])])
    [mkContainer "root" true
       (MapBody [(KStr "x", VPrim (PInt 10))]
                [(KStr "x", [("3@A", VPrim (PInt 10))])])] =
  ([mkContainer "root" false
      (MapBody [(KStr "x", VPrim (PInt 10))]
               [(KStr "x", [("3@A", VPrim (PInt 10))])])],
   inl AttributeError) /\
  exn_eqb AttributeError MalformedIdentifier = false /\
  exn_eqb AttributeError UnknownPatchType = false.
Proof. repeat split. Qed.

(** C2, evaluated where it fails: a list of one element in lock-step,
    and a list patch without edits whose props give position 0 an empty
    conflict set.  The call returns, and the list is left with no
    value, one elemId and no conflict history. *)
Theorem empty_props_entry_breaks_lock_step :
  lock_step (mkContainer "l" true
               (ListBody [VPrim (PStr "hello")] ["1@A"]
                         [Some [("1@A", VPrim (PStr "hello"))]])) /\
  apply_patch 2 (VRef 0%nat) (list_patch "l" [(KInt 0, [])] [])
    [mkContainer "l" true
       (ListBody [VPrim (PStr "hello")] ["1@A"]
                 [Some [("1@A", VPrim (PStr "hello"))]])] =
  ([mkContainer "l" true (ListBody [] ["1@A"] [])], inr (VRef 0%nat)) /\
  ~ lock_step (mkContainer "l" true (ListBody [] ["1@A"] [])).
Proof.
  repeat split. intros [H _]. discriminate.
Qed.

(** C5, evaluated where it fails: on a list of two elements, an empty
    conflict set for position 0 removes the positional slot itself from
    the values and from the conflict history, so that position 0 then
    holds what position 1 held, while both elemIds stay. *)
Theorem empty_props_entry_removes_list_slot :
  apply_patch 2 (VRef 0%nat) (list_patch "l" [(KInt 0, [])] [])
    [mkContainer "l" true
       (ListBody [VPrim (PInt 10); VPrim (PInt 20)] ["1@A"; "2@A"]
                 [Some [("1@A", VPrim (PInt 10))];
                  Some [("2@A", VPrim (PInt 20))]])] =
  ([mkContainer "l" true
      (ListBody [VPrim (PInt 20)] ["1@A"; "2@A"]
                [Some [("2@A", VPrim (PInt 20))]])],
   inr (VRef 0%nat)).
Proof. reflexivity. Qed.

End Defects.

(** ** Containers keep their place and their identity *)

Module StoreFacts.
Import Store.

Lemma same_object_refl (c : container) : same_object c c.
Proof. split; reflexivity. Qed.

Lemma same_object_trans (c1 c2 c3 : container) :
  same_object c1 c2 -> same_object c2 c3 -> same_object c1 c3.
Proof. intros [A B] [C D]. split; congruence. Qed.

Lemma heap_extends_refl (h : heap) : heap_extends h h.
Proof. intros l c H. exists c. split; [exact H|apply same_object_refl]. Qed.

Lemma heap_extends_trans (h1 h2 h3 : heap) :
  heap_extends h1 h2 -> heap_extends h2 h3 -> heap_extends h1 h3.
Proof.
  intros A B l c H. destruct (A l c H) as (c2 & H2 & S2).
  destruct (B l c2 H2) as (c3 & H3 & S3).
  exists c3. split; [exact H3|]. eapply same_object_trans; eassumption.
Qed.

Lemma heap_extends_set (h : heap) (l : loc) (c c' : container) :
  heap_get h l = Some c -> same_object c c' ->
  heap_extends h (heap_set h l c').
Proof.
  intros H S l0 c0 H0. destruct (Nat.eq_dec l l0) as [<-|N].
  - exists c'. split; [eapply heap_get_set_same; exact H|]. congruence.
  - exists c0. rewrite heap_get_set_other by exact N.
    split; [exact H0|apply same_object_refl].
Qed.

Lemma heap_extends_alloc (h : heap) (c : container) :
  heap_extends h (h ++ [c]).
Proof.
  intros l c0 H. exists c0. split; [|apply same_object_refl].
  unfold heap_get in *. rewrite nth_error_app1; [exact H|].
  apply nth_error_Some. congruence.
Qed.

Lemma heap_get_alloc (h : heap) (c : container) :
  heap_get (h ++ [c]) (List.length h) = Some c.
Proof.
  unfold heap_get. rewrite nth_error_app2 by apply Nat.le_refl.
  rewrite Nat.sub_diag. reflexivity.
Qed.

Lemma heap_get_lt (h : heap) (l : loc) (c : container) :
  heap_get h l = Some c -> (l < List.length h)%nat.
Proof. unfold heap_get. intros H. apply nth_error_Some. congruence. Qed.

Lemma preserves_ret {A} (a : A) : preserves (ret a).
Proof. intros h h' r H. inversion H. apply heap_extends_refl. Qed.

Lemma preserves_raise {A} (e : exn) : preserves (@raise A e).
Proof. intros h h' r H. inversion H. apply heap_extends_refl. Qed.

Lemma preserves_bind {A B} (c : M A) (k : A -> M B) :
  preserves c -> (forall a, preserves (k a)) -> preserves (bind c k).
Proof.
  intros Hc Hk h h' r H.
  destruct (bind_inv _ _ _ _ _ H) as [(e & E & _)|(h1 & a & E & K)].
  - eapply Hc. exact E.
  - eapply heap_extends_trans; [eapply Hc; exact E|eapply Hk; exact K].
Qed.

Lemma preserves_lift_result {A} (r : result A) : preserves (lift_result r).
Proof. intros h h' r' H. inversion H. apply heap_extends_refl. Qed.

Lemma preserves_lift_opt {A} (e : exn) (o : option A) :
  preserves (lift_opt e o).
Proof. destruct o; [apply preserves_ret|apply preserves_raise]. Qed.

Lemma preserves_field {A} (o : option A) : preserves (field o).
Proof. apply preserves_lift_opt. Qed.

Lemma preserves_deref (obj : value) : preserves (deref obj).
Proof.
  intros h h' r H. unfold deref in H.
  destruct obj; try (inversion H; apply heap_extends_refl).
  destruct (heap_get h l); inversion H; apply heap_extends_refl.
Qed.

Lemma preserves_alloc (c : container) : preserves (alloc c).
Proof. intros h h' r H. inversion H. apply heap_extends_alloc. Qed.

Lemma preserves_read {A} (obj : value) (f : container -> result A) :
  preserves (read obj f).
Proof.
  apply preserves_bind; [apply preserves_deref|].
  intros a. apply preserves_lift_result.
Qed.

Lemma preserves_update (obj : value) (f : container -> result container) :
  keeps_identity f -> preserves (update obj f).
Proof.
  intros Hf h h' r H. unfold update in H.
  destruct (bind_inv _ _ _ _ _ H) as [(e & E & _)|(h1 & [l c] & E & K)].
  - eapply preserves_deref. exact E.
  - apply deref_inr in E. destruct E as (-> & -> & G).
    destruct (f c) as [e|c'] eqn:F; cbn in K.
    + inversion K. apply heap_extends_refl.
    + inversion K. eapply heap_extends_set; [exact G|]. apply Hf. exact F.
Qed.

Lemma preserves_set_frozen (obj : value) (b : bool) :
  preserves (set_frozen obj b).
Proof.
  intros h h' r H.
  destruct (set_frozen_cases _ _ _ _ _ H)
    as [(p & _ & -> & _)|[(l & c & _ & G & _ & ->)|(-> & _)]].
  - apply heap_extends_refl.
  - eapply heap_extends_set; [exact G|]. split; reflexivity.
  - apply heap_extends_refl.
Qed.

Lemma preserves_for_each {A} (f : A -> M unit) (xs : list A) :
  (forall x, preserves (f x)) -> preserves (for_each f xs).
Proof.
  intros Hf. induction xs as [|x xs IH]; cbn.
  - apply preserves_ret.
  - apply preserves_bind; [apply Hf|intros _; exact IH].
Qed.

(** Every update the engine makes keeps the container's identity. *)
Ltac identity_step :=
  intros c c' H;
  unfold setitem, recent_ops_setitem, delitem, recent_ops_delitem,
    elem_ids_insert, list_insert, recent_ops_insert, elem_ids_delitem in H;
  destruct (contents c) eqn:E;
  repeat match type of H with
         | context [match ?x with _ => _ end] => destruct x
         end;
  inversion H; subst;
  (split;
   [reflexivity|unfold recent_ops_is_dict; cbn; rewrite E; reflexivity]).

Lemma setitem_identity (k : key) (v : value) : keeps_identity (setitem k v).
Proof. identity_step. Qed.

Lemma recent_ops_setitem_identity (k : key) (d : ops) :
  keeps_identity (recent_ops_setitem k d).
Proof. identity_step. Qed.

Lemma delitem_identity (k : key) : keeps_identity (delitem k).
Proof. identity_step. Qed.

Lemma recent_ops_delitem_identity (k : key) :
  keeps_identity (recent_ops_delitem k).
Proof. identity_step. Qed.

Lemma elem_ids_insert_identity (i : Z) (e : string) :
  keeps_identity (elem_ids_insert i e).
Proof. identity_step. Qed.

Lemma list_insert_identity (i : Z) (v : value) :
  keeps_identity (list_insert i v).
Proof. identity_step. Qed.

Lemma recent_ops_insert_identity (i : Z) :
  keeps_identity (recent_ops_insert i).
Proof. identity_step. Qed.

Lemma elem_ids_delitem_identity (i : Z) :
  keeps_identity (elem_ids_delitem i).
Proof. identity_step. Qed.

Create HintDb store.

#[local] Hint Resolve preserves_ret preserves_raise preserves_lift_result
  preserves_lift_opt preserves_field preserves_deref preserves_alloc
  preserves_read preserves_set_frozen setitem_identity
  recent_ops_setitem_identity delitem_identity recent_ops_delitem_identity
  elem_ids_insert_identity list_insert_identity recent_ops_insert_identity
  elem_ids_delitem_identity : store.

(** Break a computation of the engine into its steps. *)
Ltac preserve :=
  repeat first
    [ progress auto with store
    | apply preserves_update
    | apply preserves_for_each; intros ?
    | apply preserves_bind; [|intros ?]
    | match goal with
      | |- preserves (if ?b then _ else _) => destruct b
      | |- preserves (match ?x with _ => _ end) => destruct x
      end ].

Section Engine.
Variable rec : value -> patch -> M value.
Hypothesis rec_preserves : forall obj p, preserves (rec obj p).

#[local] Hint Resolve rec_preserves : store.

Lemma preserves_get_value (conflict : value) (p : patch) :
  preserves (get_value rec conflict p).
Proof. unfold get_value, get_object_id. preserve. Qed.

#[local] Hint Resolve preserves_get_value : store.

Lemma preserves_materialize_candidate (obj : value) (k : key)
    (cands : dict string patch) (values : ops) (id : string) :
  preserves (materialize_candidate rec obj k cands values id).
Proof. unfold materialize_candidate. preserve. Qed.

Lemma preserves_materialize_candidates (obj : value) (k : key)
    (cands : dict string patch) (ids : list string) (values : ops) :
  preserves (materialize_candidates rec obj k cands values ids).
Proof.
  revert values. induction ids as [|id ids IH]; intros values; cbn.
  - apply preserves_ret.
  - apply preserves_bind; [apply preserves_materialize_candidate|].
    intros a. apply IH.
Qed.

#[local] Hint Resolve preserves_materialize_candidates : store.

Lemma preserves_apply_properties_slot (obj : value) (k : key)
    (cands : dict string patch) :
  preserves (apply_properties_slot rec obj k cands).
Proof. unfold apply_properties_slot. preserve. Qed.

#[local] Hint Resolve preserves_apply_properties_slot : store.

Lemma preserves_apply_properties (obj : value)
    (props : dict key (dict string patch)) :
  preserves (apply_properties rec obj props).
Proof. unfold apply_properties. preserve. Qed.

Lemma preserves_apply_edit (listobj : value) (e : edit) :
  preserves (apply_edit listobj e).
Proof. unfold apply_edit. preserve. Qed.

#[local] Hint Resolve preserves_apply_properties preserves_apply_edit : store.

Lemma preserves_update_list_obj (listobj : value)
    (props : dict key (dict string patch)) (edits : list edit) :
  preserves (update_list_obj rec listobj props edits).
Proof. unfold update_list_obj. preserve. Qed.

#[local] Hint Resolve preserves_update_list_obj : store.

Lemma preserves_apply_patch_body (obj : value) (p : patch) :
  preserves (apply_patch_body rec obj p).
Proof. unfold apply_patch_body. preserve. Qed.

End Engine.

Lemma preserves_apply_patch (depth : nat) (obj : value) (p : patch) :
  preserves (apply_patch depth obj p).
Proof.
  revert obj p. induction depth as [|depth IH]; intros obj p; cbn.
  - apply preserves_raise.
  - apply preserves_apply_patch_body. exact IH.
Qed.

End StoreFacts.

(** ** The materializer and object identity *)

Module MaterializerClaims.
Import Store StoreFacts Build.

Lemma apply_patch_returns_obj (depth : nat) (obj : value) (p : patch)
    (h h' : heap) (v : value) :
  apply_patch depth obj p h = (h', inr v) -> v = obj.
Proof.
  destruct depth as [|depth]; [discriminate|]. cbn.
  unfold apply_patch_body. intros H.
  apply bind_inr in H. destruct H as (h1 & [] & _ & H).
  destruct (is_not_none obj && negb (has_field (p_props p)) &&
            negb (has_field (p_edits p))).
  - apply bind_inr in H. destruct H as (h2 & [] & _ & H).
    inversion H. reflexivity.
  - apply bind_inr in H. destruct H as (h2 & ty & _ & H).
    apply bind_inr in H. destruct H as (h3 & [] & _ & H).
    apply bind_inr in H. destruct H as (h4 & [] & _ & H).
    inversion H. reflexivity.
Qed.

(** The two ways of a sub-patch that carries an objectId.  When the
    existing conflict entry is a container with that objectId, the
    dispatcher is run on that very container, in the store as it is,
    and what comes back is the same reference to a container that still
    has that objectId and class.  When the entry's objectId differs,
    the dispatcher is run on a container created on the spot, empty, of
    the type the sub-patch declares and with the sub-patch's objectId;
    the reference that comes back is the new one, not the old. *)
Lemma get_value_container_identity (depth : nat) (l : loc) (c : container)
    (patch : patch) (oid : string) (h : heap) :
  heap_get h l = Some c -> p_objectId patch = Some oid ->
  (object_id c = oid ->
     get_value (apply_patch depth) (VRef l) patch h =
       apply_patch depth (VRef l) patch h /\
     forall h' v,
       get_value (apply_patch depth) (VRef l) patch h = (h', inr v) ->
       v = VRef l /\
       exists c', heap_get h' l = Some c' /\ same_object c c') /\
  (object_id c <> oid ->
     forall ty, p_type patch = Some ty -> ty = "map" \/ ty = "list" ->
     let fresh := if String.eqb ty "map"
                  then Map_empty oid else List_empty oid in
     get_value (apply_patch depth) (VRef l) patch h =
       apply_patch depth (VRef (List.length h)) patch (h ++ [fresh]) /\
     forall h' v,
       get_value (apply_patch depth) (VRef l) patch h = (h', inr v) ->
       v = VRef (List.length h) /\ List.length h <> l /\
       (exists c', heap_get h' (List.length h) = Some c' /\
                   same_object fresh c') /\
       (exists c0, heap_get h' l = Some c0 /\ same_object c c0)).
Proof.
  intros Hc Hoid. split.
  - intros Hsame.
    assert (E : get_value (apply_patch depth) (VRef l) patch h =
                apply_patch depth (VRef l) patch h).
    { unfold get_value, get_object_id. rewrite Hoid. cbn.
      unfold bind at 1. unfold bind at 1. unfold bind at 1.
      rewrite (deref_ok _ _ _ Hc). cbn.
      rewrite Hsame, String.eqb_refl. reflexivity. }
    split; [exact E|]. intros h' v H. rewrite E in H. split.
    + eapply apply_patch_returns_obj. exact H.
    + eapply preserves_apply_patch; eassumption.
  - intros Hdiff ty Hty Hmapl fresh.
    assert (E : get_value (apply_patch depth) (VRef l) patch h =
                apply_patch depth (VRef (List.length h)) patch (h ++ [fresh])).
    { unfold get_value, get_object_id. rewrite Hoid, Hty. cbn.
      unfold bind at 1. unfold bind at 1. unfold bind at 1.
      rewrite (deref_ok _ _ _ Hc). cbn.
      apply String.eqb_neq in Hdiff. rewrite Hdiff. cbn.
      subst fresh. destruct Hmapl as [-> | ->]; reflexivity. }
    split; [exact E|]. intros h' v H. rewrite E in H.
    pose proof (preserves_apply_patch _ _ _ _ _ _ H) as Hext.
    repeat split.
    + eapply apply_patch_returns_obj. exact H.
    + apply heap_get_lt in Hc. lia.
    + apply Hext. apply heap_get_alloc.
    + destruct (heap_extends_alloc h fresh l c Hc) as (c1 & G1 & S1).
      destruct (Hext l c1 G1) as (c2 & G2 & S2).
      exists c2. split; [exact G2|]. eapply same_object_trans; eassumption.
Qed.

Lemma get_value_container_identity_witness :
  heap_get [Map_empty "root"; Map_empty "o1"] 1%nat = Some (Map_empty "o1") /\
  get_value (apply_patch 2) (VRef 1%nat)
    (map_patch "o1" [(KStr "y", [("4@A", leaf (PInt 1))])])
    [Map_empty "root"; Map_empty "o1"] =
  apply_patch 2 (VRef 1%nat)
    (map_patch "o1" [(KStr "y", [("4@A", leaf (PInt 1))])])
    [Map_empty "root"; Map_empty "o1"].
Proof.
  split; [reflexivity|].
  destruct (get_value_container_identity 2 1%nat (Map_empty "o1")
              (map_patch "o1" [(KStr "y", [("4@A", leaf (PInt 1))])]) "o1"
              [Map_empty "root"; Map_empty "o1"] eq_refl eq_refl) as [H _].
  destruct (H eq_refl) as [E _]. exact E.
Defined.

End MaterializerClaims.

(** ** Sorting the candidates of a slot *)

Module SortFacts.
Import Lamport LamportOrder LamportFacts Conflict.

Lemma lt_parsed (a b : string) :
  lt a b <->
  exists ta tb, parse_op_id a = inr ta /\ parse_op_id b = inr tb /\
                compare_parsed ta tb < 0.
Proof.
  split.
  - intros (z & H & Hz).
    destruct (lamport_compare_inr _ _ _ H) as (ta & tb & A & B & ->). eauto.
  - intros (ta & tb & A & B & Hz). exists (compare_parsed ta tb).
    split; [apply lamport_compare_parsed; assumption|exact Hz].
Qed.

Lemma lt_trans (a b c : string) : lt a b -> lt b c -> lt a c.
Proof.
  rewrite !lt_parsed.
  intros (ta & tb & A & B & H1) (tb' & tc & B' & C & H2).
  rewrite B in B'. inversion B'; subst tb'.
  exists ta, tc. repeat split; trivial.
  eapply compare_parsed_trans; eassumption.
Qed.

Lemma lt_asym (a b : string) : lt a b -> lt b a -> False.
Proof.
  rewrite !lt_parsed.
  intros (ta & tb & A & B & H1) (tb' & ta' & B' & A' & H2).
  rewrite B in B'. rewrite A in A'. inversion B'; inversion A'; subst.
  rewrite compare_parsed_opp in H2. lia.
Qed.

Lemma gt_lt (a b : string) : gt a b <-> lt b a.
Proof.
  unfold gt. rewrite lt_parsed. split.
  - intros (z & H & Hz).
    destruct (lamport_compare_inr _ _ _ H) as (ta & tb & A & B & ->).
    exists tb, ta. repeat split; trivial. rewrite compare_parsed_opp. lia.
  - intros (tb & ta & B & A & Hz). exists (compare_parsed ta tb).
    split; [apply lamport_compare_parsed; assumption|].
    rewrite compare_parsed_opp in Hz. lia.
Qed.

Lemma valid_compare (a b : string) :
  valid a -> valid b -> exists z, lamport_compare a b = inr z.
Proof.
  intros [ta A] [tb B]. eexists. apply lamport_compare_parsed; eassumption.
Qed.

Lemma compare_valid (a b : string) (z : Z) :
  lamport_compare a b = inr z -> valid a /\ valid b.
Proof.
  intros H. destruct (lamport_compare_inr _ _ _ H) as (ta & tb & A & B & _).
  split; eexists; eassumption.
Qed.

(** What a successful insertion yields. *)
Lemma insert_sorted_inr (x : string) (s s' : list string) :
  insert_sorted x s = inr s' ->
  StronglySorted lt s ->
  (forall y, In y s -> ~ tied y x) ->
  StronglySorted lt s' /\ Permutation (x :: s) s'.
Proof.
  revert s'. induction s as [|y s IH]; intros s' H Hs Hd; cbn in H.
  - inversion H; subst. split; [|apply Permutation_refl].
    constructor; constructor.
  - destruct (lamport_compare y x) as [e|c] eqn:C; cbn in H; [discriminate|].
    apply StronglySorted_inv in Hs. destruct Hs as [Hs Hy].
    destruct (Z.ltb_spec c 0) as [L|G].
    + destruct (insert_sorted x s) as [e|s1] eqn:I; cbn in H; [discriminate|].
      inversion H; subst s'.
      destruct (IH s1 eq_refl Hs) as [S1 P1].
      { intros z Hz. apply Hd. right. exact Hz. }
      split.
      * constructor; [exact S1|].
        eapply Permutation_Forall; [exact P1|].
        constructor; [exists c; auto|exact Hy].
      * eapply perm_trans; [apply perm_swap|]. apply perm_skip. exact P1.
    + inversion H; subst s'. split; [|apply Permutation_refl].
      assert (Hxy : lt x y).
      { apply gt_lt. exists c. split; [exact C|].
        assert (c <> 0) by (intros ->; apply (Hd y); [left; reflexivity|exact C]).
        lia. }
      constructor; [constructor; assumption|].
      constructor; [exact Hxy|].
      eapply Forall_impl; [|exact Hy]. intros z Hz. eapply lt_trans; eassumption.
Qed.

Lemma insert_sorted_length (x : string) (s s' : list string) :
  insert_sorted x s = inr s' -> List.length s' = S (List.length s).
Proof.
  revert s'. induction s as [|y s IH]; intros s' H; cbn in H.
  - inversion H. reflexivity.
  - destruct (lamport_compare y x) as [e|c]; cbn in H; [discriminate|].
    destruct (c <? 0).
    + destruct (insert_sorted x s) as [e|s1]; cbn in H; [discriminate|].
      inversion H. cbn. rewrite (IH s1 eq_refl). reflexivity.
    + inversion H. reflexivity.
Qed.

Lemma sort_op_ids_length (l s : list string) :
  sort_op_ids l = inr s -> List.length s = List.length l.
Proof.
  revert s. induction l as [|x l IH]; intros s H; cbn in H.
  - inversion H. reflexivity.
  - destruct (sort_op_ids l) as [e|s1]; cbn in H; [discriminate|].
    rewrite (insert_sorted_length _ _ _ H), (IH s1 eq_refl). reflexivity.
Qed.

Lemma insert_sorted_perm (x : string) (s s' : list string) :
  insert_sorted x s = inr s' -> Permutation (x :: s) s'.
Proof.
  revert s'. induction s as [|y s IH]; intros s' H; cbn in H.
  - inversion H. apply Permutation_refl.
  - destruct (lamport_compare y x) as [e|c]; cbn in H; [discriminate|].
    destruct (c <? 0).
    + destruct (insert_sorted x s) as [e|s1]; cbn in H; [discriminate|].
      inversion H. eapply perm_trans; [apply perm_swap|].
      apply perm_skip. apply IH. reflexivity.
    + inversion H. apply Permutation_refl.
Qed.

Lemma sort_op_ids_perm (l s : list string) :
  sort_op_ids l = inr s -> Permutation l s.
Proof.
  revert s. induction l as [|x l IH]; intros s H; cbn in H.
  - inversion H. apply Permutation_refl.
  - destruct (sort_op_ids l) as [e|s1]; cbn in H; [discriminate|].
    eapply perm_trans; [apply perm_skip; apply IH; reflexivity|].
    apply insert_sorted_perm. exact H.
Qed.

Lemma lamport_distinct_tail (x : string) (l : list string) :
  lamport_distinct (x :: l) -> lamport_distinct l.
Proof. intros H a b A B. apply H; right; assumption. Qed.

Lemma sort_op_ids_sorted (l s : list string) :
  sort_op_ids l = inr s -> NoDup l -> lamport_distinct l ->
  StronglySorted lt s.
Proof.
  revert s. induction l as [|x l IH]; intros s H Hn Hd; cbn in H.
  - inversion H. constructor.
  - destruct (sort_op_ids l) as [e|s1] eqn:E; cbn in H; [discriminate|].
    inversion Hn; subst.
    eapply insert_sorted_inr; [exact H| |].
    + apply IH; trivial. eapply lamport_distinct_tail; exact Hd.
    + intros y Hy. apply Hd.
      * right. eapply Permutation_in; [|exact Hy].
        apply Permutation_sym. apply sort_op_ids_perm. exact E.
      * left. reflexivity.
      * intros ->. apply H2. eapply Permutation_in; [|exact Hy].
        apply Permutation_sym. apply sort_op_ids_perm. exact E.
Qed.

Lemma insert_sorted_inl (x : string) (s : list string) (e : exn) :
  insert_sorted x s = inl e -> e = MalformedIdentifier.
Proof.
  induction s as [|y s IH]; cbn; [discriminate|].
  destruct (lamport_compare y x) as [e'|c] eqn:C; cbn.
  - intros H. inversion H; subst. eapply lamport_compare_inl. exact C.
  - destruct (c <? 0); [|discriminate].
    destruct (insert_sorted x s) as [e'|s1]; cbn; [|discriminate].
    intros H. inversion H; subst. apply IH. reflexivity.
Qed.

Lemma sort_op_ids_inl (l : list string) (e : exn) :
  sort_op_ids l = inl e -> e = MalformedIdentifier.
Proof.
  induction l as [|x l IH]; cbn; [discriminate|].
  destruct (sort_op_ids l) as [e'|s1]; cbn.
  - intros H. inversion H; subst. apply IH. reflexivity.
  - apply insert_sorted_inl.
Qed.

Lemma insert_sorted_total (x : string) (s : list string) :
  valid x -> Forall valid s -> exists s', insert_sorted x s = inr s'.
Proof.
  intros Hx Hs. induction Hs as [|y s Hy Hs IH]; cbn; [eauto|].
  destruct (valid_compare y x Hy Hx) as [c ->]. cbn.
  destruct (c <? 0); [|eauto].
  destruct IH as [s1 ->]. cbn. eauto.
Qed.

Lemma sort_op_ids_total (l : list string) :
  Forall valid l -> exists s, sort_op_ids l = inr s.
Proof.
  intros Hl. induction Hl as [|x l Hx Hl IH]; cbn; [eauto|].
  destruct IH as [s1 E]. rewrite E. cbn.
  apply insert_sorted_total; [exact Hx|].
  eapply Permutation_Forall; [apply sort_op_ids_perm; exact E|exact Hl].
Qed.

Lemma insert_sorted_cons_valid (x y : string) (s s' : list string) :
  insert_sorted x (y :: s) = inr s' -> valid x /\ valid y.
Proof.
  cbn. destruct (lamport_compare y x) as [e|c] eqn:C; [discriminate|].
  intros _. apply compare_valid in C. tauto.
Qed.

Lemma sort_op_ids_inr_valid (l s : list string) :
  sort_op_ids l = inr s -> (2 <= List.length l)%nat -> Forall valid l.
Proof.
  revert s. induction l as [|x l IH]; intros s H Hlen; cbn in *; [lia|].
  destruct (sort_op_ids l) as [e|s1] eqn:E; cbn in H; [discriminate|].
  pose proof (sort_op_ids_length _ _ E) as Hl.
  destruct s1 as [|y s1]; [cbn in Hl; lia|].
  destruct (insert_sorted_cons_valid _ _ _ _ H) as [Hx Hy].
  constructor; [exact Hx|].
  destruct l as [|z [|z' l]].
  - cbn in Hlen. lia.
  - cbn in E. inversion E; subst. constructor; [exact Hy|constructor].
  - apply (IH (y :: s1)); [reflexivity|cbn; lia].
Qed.

Lemma sort_op_ids_succeeds (l : list string) :
  (exists s, sort_op_ids l = inr s) <->
  (List.length l <= 1)%nat \/ Forall valid l.
Proof.
  split.
  - intros [s H]. destruct (Nat.le_gt_cases (List.length l) 1) as [L|G];
      [left; exact L|right]. eapply sort_op_ids_inr_valid; [exact H|lia].
  - intros [L|V]; [|apply sort_op_ids_total; exact V].
    destruct l as [|x [|y l]]; cbn in *; eauto. lia.
Qed.

(** A list sorted strictly is the only one of its permutations that is. *)
Lemma sorted_unique (s s' : list string) :
  StronglySorted lt s -> StronglySorted lt s' -> Permutation s s' -> s = s'.
Proof.
  revert s'. induction s as [|a s IH]; intros s' Hs Hs' P.
  - apply Permutation_nil in P. congruence.
  - destruct s' as [|a' s'];
      [apply Permutation_sym, Permutation_nil in P; discriminate|].
    apply StronglySorted_inv in Hs. destruct Hs as [Hs Ha].
    apply StronglySorted_inv in Hs'. destruct Hs' as [Hs' Ha'].
    assert (E : a = a').
    { assert (I : In a (a' :: s')) by
        (eapply Permutation_in; [exact P|left; reflexivity]).
      assert (I' : In a' (a :: s)) by
        (eapply Permutation_in; [apply Permutation_sym; exact P|left; reflexivity]).
      destruct I as [I|I]; [congruence|].
      destruct I' as [I'|I']; [congruence|].
      exfalso. rewrite Forall_forall in Ha, Ha'.
      eapply lt_asym; [apply Ha; exact I'|apply Ha'; exact I]. }
    subst a'. f_equal. apply IH; trivial.
    eapply Permutation_cons_inv. exact P.
Qed.

Lemma lamport_distinct_perm (l l' : list string) :
  Permutation l l' -> lamport_distinct l -> lamport_distinct l'.
Proof.
  intros P H a b A B. apply H; eapply Permutation_in;
    try (apply Permutation_sym; exact P); assumption.
Qed.

(** The sort does not depend on the order in which the keys come. *)
Lemma sort_op_ids_permutation (l l' : list string) :
  NoDup l -> lamport_distinct l -> Permutation l l' ->
  sort_op_ids l' = sort_op_ids l.
Proof.
  intros Hn Hd P.
  destruct (sort_op_ids l) as [e|s] eqn:E;
    destruct (sort_op_ids l') as [e'|s'] eqn:E'.
  - apply sort_op_ids_inl in E, E'. congruence.
  - exfalso.
    assert (S : exists s, sort_op_ids l = inr s).
    { apply sort_op_ids_succeeds.
      destruct (proj1 (sort_op_ids_succeeds l') (ex_intro _ s' E')) as [L|V].
      - left. rewrite (Permutation_length P). exact L.
      - right. eapply Permutation_Forall; [apply Permutation_sym; exact P|exact V]. }
    destruct S as [s S]. congruence.
  - exfalso.
    assert (S : exists s, sort_op_ids l' = inr s).
    { apply sort_op_ids_succeeds.
      destruct (proj1 (sort_op_ids_succeeds l) (ex_intro _ s E)) as [L|V].
      - left. rewrite <- (Permutation_length P). exact L.
      - right. eapply Permutation_Forall; [exact P|exact V]. }
    destruct S as [s0 S]. congruence.
  - f_equal. apply sorted_unique.
    + eapply sort_op_ids_sorted; [exact E'| |].
      * eapply Permutation_NoDup; eassumption.
      * eapply lamport_distinct_perm; eassumption.
    + eapply sort_op_ids_sorted; eassumption.
    + eapply perm_trans; [apply Permutation_sym, sort_op_ids_perm; exact E'|].
      eapply perm_trans; [apply Permutation_sym; exact P|].
      apply sort_op_ids_perm. exact E.
Qed.

(** The first key after the reversal is the Lamport-greatest. *)
Lemma sorted_last_greatest (s : list string) (w : string) (rest : list string) :
  StronglySorted lt s -> rev s = w :: rest ->
  forall id, In id s -> id <> w -> lt id w.
Proof.
  intros Hs Hr.
  assert (E : s = rev rest ++ [w]).
  { rewrite <- (rev_involutive s), Hr. reflexivity. }
  subst s. clear Hr. induction (rev rest) as [|a l IH]; cbn in *.
  - intros id [->|[]] N. contradiction.
  - apply StronglySorted_inv in Hs. destruct Hs as [Hs Ha].
    intros id [->|I] N.
    + rewrite Forall_forall in Ha. apply Ha. apply in_or_app. right. left.
      reflexivity.
    + apply IH; assumption.
Qed.

End SortFacts.

(** ** Dicts and lists *)

Module ContainerFacts.

Lemma key_eqb_spec (a b : key) : reflect (a = b) (key_eqb a b).
Proof.
  destruct a as [s|i], b as [t|j]; cbn; try (constructor; discriminate).
  - destruct (String.eqb_spec s t); constructor; congruence.
  - destruct (Z.eqb_spec i j); constructor; congruence.
Qed.

Section Dict.
Context {K V : Type} (eqb : K -> K -> bool).
Hypothesis eqb_spec : forall a b, reflect (a = b) (eqb a b).

Lemma dict_get_set_same (k : K) (v : V) (d : dict K V) :
  dict_get eqb k (dict_set eqb k v d) = Some v.
Proof.
  induction d as [|[k' v'] d IH]; cbn.
  - destruct (eqb_spec k k); [reflexivity|contradiction].
  - destruct (eqb_spec k' k) as [E|N]; cbn.
    + destruct (eqb_spec k k); [reflexivity|contradiction].
    + destruct (eqb_spec k' k); [contradiction|exact IH].
Qed.

Lemma dict_get_set_other (k k' : K) (v : V) (d : dict K V) :
  k <> k' -> dict_get eqb k' (dict_set eqb k v d) = dict_get eqb k' d.
Proof.
  intros N. induction d as [|[k0 v0] d IH]; cbn.
  - destruct (eqb_spec k k'); [contradiction|reflexivity].
  - destruct (eqb_spec k0 k) as [E|N0]; cbn.
    + subst k0. destruct (eqb_spec k k'); [contradiction|reflexivity].
    + destruct (eqb_spec k0 k'); [reflexivity|exact IH].
Qed.

Lemma dict_mem_keys (k : K) (d : dict K V) :
  dict_mem eqb k d = true <-> In k (dict_keys d).
Proof.
  unfold dict_mem. induction d as [|[k' v'] d IH]; cbn.
  - split; [discriminate|tauto].
  - destruct (eqb_spec k' k) as [E|N].
    + split; auto.
    + rewrite IH. split; [auto|]. intros [E|I]; [contradiction|exact I].
Qed.

Lemma dict_get_not_in (k : K) (d : dict K V) :
  ~ In k (dict_keys d) -> dict_get eqb k d = None.
Proof.
  intros H. destruct (dict_get eqb k d) eqn:E; [|reflexivity].
  exfalso. apply H. apply dict_mem_keys. unfold dict_mem. rewrite E.
  reflexivity.
Qed.

(** Reordering a dict does not change what its keys map to. *)
Lemma dict_get_permutation (k : K) (d d' : dict K V) :
  NoDup (dict_keys d) -> Permutation d d' ->
  dict_get eqb k d' = dict_get eqb k d.
Proof.
  intros Hn P. induction P as [|[k0 v0] d d' P IH|[k0 v0] [k1 v1] d|d d' d'' P IH P' IH'].
  - reflexivity.
  - cbn. inversion Hn; subst. rewrite IH by assumption. reflexivity.
  - cbn. destruct (eqb_spec k1 k) as [E1|N1]; destruct (eqb_spec k0 k) as [E0|N0];
      try reflexivity.
    subst. inversion Hn; subst. exfalso. apply H1. left. reflexivity.
  - rewrite IH', IH; trivial.
    eapply Permutation_NoDup; [|exact Hn]. unfold dict_keys.
    apply Permutation_map. exact P.
Qed.

End Dict.

Lemma norm_index_lt (n : nat) (i : Z) (m : nat) :
  PyList.norm_index n i = Some m -> (m < n)%nat.
Proof.
  unfold PyList.norm_index.
  destruct (Z.leb_spec 0 i).
  - destruct (Z.ltb_spec i (Z.of_nat n)); intros E; inversion E. lia.
  - destruct (Z.leb_spec 0 (i + Z.of_nat n)); intros E; inversion E. lia.
Qed.

Lemma replace_length {A} (l : list A) (n : nat) (x : A) :
  (n < List.length l)%nat ->
  List.length (firstn n l ++ x :: skipn (S n) l) = List.length l.
Proof.
  intros H. rewrite length_app, length_firstn. cbn [List.length].
  rewrite length_skipn. lia.
Qed.

Lemma replace_nth_error {A} (l : list A) (n : nat) (x : A) :
  (n < List.length l)%nat ->
  nth_error (firstn n l ++ x :: skipn (S n) l) n = Some x.
Proof.
  intros H. rewrite nth_error_app2; rewrite length_firstn; [|lia].
  replace (n - Nat.min n (List.length l))%nat with 0%nat by lia. reflexivity.
Qed.

Lemma setitem_length {A} (l l' : list A) (i : Z) (x : A) :
  PyList.setitem l i x = Some l' -> List.length l' = List.length l.
Proof.
  unfold PyList.setitem.
  destruct (PyList.norm_index (List.length l) i) as [n|] eqn:E; [|discriminate].
  apply norm_index_lt in E. intros [= <-]. apply replace_length. exact E.
Qed.

Lemma getitem_setitem {A} (l l' : list A) (i : Z) (x : A) :
  PyList.setitem l i x = Some l' -> PyList.getitem l' i = Some x.
Proof.
  intros H. pose proof (setitem_length _ _ _ _ H) as L.
  unfold PyList.getitem. rewrite L. unfold PyList.setitem in H.
  destruct (PyList.norm_index (List.length l) i) as [n|] eqn:E; [|discriminate].
  apply norm_index_lt in E. injection H as <-.
  apply replace_nth_error. exact E.
Qed.

Lemma setitem_getitem (k : key) (v : value) (c c' : container) :
  setitem k v c = inr c' -> Store.getitem k c' = Some v.
Proof.
  unfold setitem, Store.getitem.
  destruct (contents c) as [items ro|items ids ro].
  - intros H. inversion H. cbn. apply dict_get_set_same. apply key_eqb_spec.
  - destruct k as [s|i]; [discriminate|].
    destruct (PyList.setitem items i v) as [items'|] eqn:E; [|discriminate].
    intros H. inversion H. cbn. eapply getitem_setitem. exact E.
Qed.

Lemma recent_ops_setitem_getitem (k : key) (d : ops) (c c' : container) :
  recent_ops_setitem k d c = inr c' ->
  recent_ops_getitem k c' = inr (Some d) /\
  Store.getitem k c' = Store.getitem k c.
Proof.
  unfold recent_ops_setitem, recent_ops_getitem, Store.getitem.
  destruct (contents c) as [items ro|items ids ro].
  - intros H. inversion H. cbn.
    rewrite dict_get_set_same by apply key_eqb_spec. auto.
  - destruct k as [s|i]; [discriminate|].
    destruct (PyList.setitem ro i (Some d)) as [ro'|] eqn:E; [|discriminate].
    intros H. inversion H. cbn.
    rewrite (getitem_setitem _ _ _ _ E). auto.
Qed.

Lemma update_inr (obj : value) (f : container -> result container)
    (h h' : heap) (u : unit) :
  update obj f h = (h', inr u) ->
  exists l c c', obj = VRef l /\ heap_get h l = Some c /\ f c = inr c' /\
                 h' = heap_set h l c'.
Proof.
  unfold update. intros H.
  apply bind_inr in H. destruct H as (h1 & [l c] & D & H).
  apply deref_inr in D. destruct D as (-> & -> & G).
  destruct (f c) as [e|c'] eqn:F; cbn in H; [discriminate|].
  inversion H. exists l, c, c'. auto.
Qed.

End ContainerFacts.

(** ** The conflict-register merger *)

Module MergerClaims.
Import Store Conflict Build LamportOrder SortFacts ContainerFacts.

Section Merger.
Variable rec : value -> patch -> M value.

Lemma dict_set_keys (id k : string) (v : value) (d : ops) :
  In id (dict_keys (dict_set String.eqb k v d)) <->
  id = k \/ In id (dict_keys d).
Proof.
  rewrite <- !(dict_mem_keys String.eqb String.eqb_spec). unfold dict_mem.
  destruct (String.eqb_spec k id) as [E|N].
  - subst. rewrite dict_get_set_same by apply String.eqb_spec. tauto.
  - rewrite dict_get_set_other by (apply String.eqb_spec || exact N).
    split; [auto|]. intros [E|H]; [congruence|exact H].
Qed.

Lemma materialize_candidate_inr (obj : value) (k : key)
    (cands : dict string patch) (vals vals' : ops) (id : string)
    (h h' : heap) :
  materialize_candidate rec obj k cands vals id h = (h', inr vals') ->
  exists v, vals' = dict_set String.eqb id v vals.
Proof.
  unfold materialize_candidate. intros H.
  apply bind_inr in H. destruct H as (h1 & sp & _ & H).
  apply bind_inr in H. destruct H as (h2 & have & _ & H).
  apply bind_inr in H. destruct H as (h3 & known & _ & H).
  destruct known.
  - apply bind_inr in H. destruct H as (h4 & old & _ & H).
    apply bind_inr in H. destruct H as (h5 & v & _ & H).
    inversion H. eauto.
  - apply bind_inr in H. destruct H as (h4 & v & _ & H).
    inversion H. eauto.
Qed.

Lemma materialize_candidates_keys (obj : value) (k : key)
    (cands : dict string patch) (ids : list string) (vals vals' : ops)
    (h h' : heap) :
  materialize_candidates rec obj k cands vals ids h = (h', inr vals') ->
  (forall id, In id (dict_keys vals') <-> In id (dict_keys vals) \/ In id ids) /\
  (forall w, ~ In w ids ->
     dict_get String.eqb w vals' = dict_get String.eqb w vals).
Proof.
  revert vals h. induction ids as [|id ids IH]; intros vals h H; cbn in H.
  - inversion H; subst. split; [intros; cbn; tauto|reflexivity].
  - apply bind_inr in H. destruct H as (h1 & vals1 & M1 & H).
    destruct (materialize_candidate_inr _ _ _ _ _ _ _ _ M1) as [v ->].
    destruct (IH _ _ H) as [K G]. split.
    + intros i. rewrite K, dict_set_keys. cbn. intuition congruence.
    + intros w Hw. rewrite G by (intros I; apply Hw; right; exact I).
      apply dict_get_set_other; [apply String.eqb_spec|].
      intros ->. apply Hw. left. reflexivity.
Qed.

Lemma materialize_candidates_ext (obj : value) (k : key)
    (d d' : dict string patch) (ids : list string) :
  (forall id, dict_get String.eqb id d' = dict_get String.eqb id d) ->
  forall vals h,
    materialize_candidates rec obj k d' vals ids h =
    materialize_candidates rec obj k d vals ids h.
Proof.
  intros E. induction ids as [|id ids IH]; intros vals h; cbn; [reflexivity|].
  assert (C : materialize_candidate rec obj k d' vals id =
              materialize_candidate rec obj k d vals id).
  { unfold materialize_candidate. rewrite E. reflexivity. }
  rewrite C. unfold bind.
  destruct (materialize_candidate rec obj k d vals id h) as [h1 [e|vals1]];
    [reflexivity|apply IH].
Qed.

Lemma field_inr {A} (o : option A) (h h' : heap) (a : A) :
  field o h = (h', inr a) -> o = Some a /\ h' = h.
Proof. destruct o; cbn; intros H; inversion H; auto. Qed.

Lemma lift_result_inr {A} (r : result A) (h h' : heap) (a : A) :
  lift_result r h = (h', inr a) -> r = inr a /\ h' = h.
Proof. unfold lift_result. intros H. inversion H; auto. Qed.

Lemma apply_properties_one_slot (l : loc) (c : container) (key : key)
    (cands : dict string patch) (h : heap) :
  heap_get h l = Some c ->
  apply_properties rec (VRef l) [(key, cands)] h =
  apply_properties_slot rec (VRef l) key cands h.
Proof.
  intros G. unfold apply_properties.
  rewrite (bind_ok _ _ _ _ _ (deref_ok _ _ _ G)).
  cbn [for_each fst snd]. unfold bind, ret.
  destruct (apply_properties_slot rec (VRef l) key cands h) as [h1 [e|[]]];
    reflexivity.
Qed.

(** The merge of one slot.  Take a slot whose conflict set is not empty
    and in which no two distinct OperationIds are tied in Lamport order.
    Then
    the merge of that slot does not depend on the order in which the
    candidate mapping is iterated; and when it returns, the visible
    value of the slot is the value that the materializer produced for
    the one candidate whose OperationId is Lamport-greater than all
    others, and the slot's conflict history is exactly the mapping just
    computed, from the OperationIds of the conflict set and no others
    to their materialized values. *)
Lemma apply_properties_slot_winner (obj : value) (key : key)
    (cands : dict string patch) :
  cands <> [] -> NoDup (dict_keys cands) ->
  lamport_distinct (dict_keys cands) ->
  (forall cands' h, Permutation cands cands' ->
     apply_properties_slot rec obj key cands' h =
     apply_properties_slot rec obj key cands h) /\
  (forall h l c, obj = VRef l -> heap_get h l = Some c ->
     apply_properties rec obj [(key, cands)] h =
     apply_properties_slot rec obj key cands h) /\
  (forall h h', apply_properties_slot rec obj key cands h = (h', inr tt) ->
     exists l c' winner rest v values h1 hv,
       obj = VRef l /\ heap_get h' l = Some c' /\
       greatest winner (dict_keys cands) /\
       Permutation (winner :: rest) (dict_keys cands) /\
       materialize_candidate rec obj key cands [] winner h =
         (h1, inr [(winner, v)]) /\
       materialize_candidates rec obj key cands [] (winner :: rest) h =
         (hv, inr values) /\
       getitem key c' = Some v /\
       recent_ops_getitem key c' = inr (Some values) /\
       dict_get String.eqb winner values = Some v /\
       (forall id, In id (dict_keys values) <-> In id (dict_keys cands))).
Proof.
  intros Hne Hn Hd. split; [|split].
  - intros cands' h P. unfold apply_properties_slot.
    assert (PK : Permutation (dict_keys cands) (dict_keys cands'))
      by (apply Permutation_map; exact P).
    rewrite (sort_op_ids_permutation _ _ Hn Hd PK).
    unfold bind at 1 3. unfold lift_result.
    destruct (sort_op_ids (dict_keys cands)) as [e|sorted]; [reflexivity|].
    unfold bind at 1 3.
    rewrite (materialize_candidates_ext obj key cands cands' (rev sorted)
               (fun id => dict_get_permutation String.eqb String.eqb_spec
                            id cands cands' Hn P)).
    reflexivity.
  - intros h l c -> G. eapply apply_properties_one_slot. exact G.
  - intros h h' H. unfold apply_properties_slot in H.
    apply bind_inr in H. destruct H as (h0 & sorted & S & H).
    apply lift_result_inr in S. destruct S as [S ->].
    apply bind_inr in H. destruct H as (hv & values & MV & H).
    pose proof (sort_op_ids_perm _ _ S) as PS.
    pose proof (sort_op_ids_sorted _ _ S Hn Hd) as SS.
    destruct (rev sorted) as [|winner rest] eqn:R.
    { exfalso. apply Hne.
      assert (E : sorted = []).
      { rewrite <- (rev_involutive sorted), R. reflexivity. }
      subst sorted. apply Permutation_sym, Permutation_nil in PS.
      destruct cands; [reflexivity|discriminate]. }
    assert (PR : Permutation (winner :: rest) (dict_keys cands)).
    { rewrite <- R. eapply perm_trans; [apply Permutation_sym, Permutation_rev|].
      apply Permutation_sym. exact PS. }
    apply bind_inr in H. destruct H as (h2 & v & F & H).
    apply field_inr in F. destruct F as [F ->].
    apply bind_inr in H. destruct H as (h3 & [] & U1 & U2).
    apply update_inr in U1. destruct U1 as (l & c0 & c1 & -> & G0 & F1 & ->).
    apply update_inr in U2. destruct U2 as (l' & c1' & c2 & E & G1 & F2 & ->).
    inversion E; subst l'; clear E.
    rewrite (heap_get_set_same _ _ _ _ G0) in G1. inversion G1; subst c1'.
    destruct (recent_ops_setitem_getitem _ _ _ _ F2) as [R2 I2].
    pose proof MV as MV'. cbn in MV'.
    apply bind_inr in MV'. destruct MV' as (h1 & vals1 & M1 & MR).
    destruct (materialize_candidate_inr _ _ _ _ _ _ _ _ M1) as [v0 E0].
    cbn in E0. subst vals1.
    destruct (materialize_candidates_keys _ _ _ _ _ _ _ _ MR) as [_ KR].
    destruct (materialize_candidates_keys _ _ _ _ _ _ _ _ MV) as [KV _].
    assert (NR : NoDup (winner :: rest)).
    { eapply Permutation_NoDup; [apply Permutation_sym; exact PR|exact Hn]. }
    assert (Wv : v0 = v).
    { inversion NR; subst. rewrite (KR winner) in F by assumption.
      cbn in F. rewrite String.eqb_refl in F. congruence. }
    subst v0.
    exists l, c2, winner, rest, v, values, h1, hv.
    repeat split; trivial.
    + eapply heap_get_set_same. eapply heap_get_set_same. exact G0.
    + eapply Permutation_in; [exact PR|left; reflexivity].
    + intros id I N. apply gt_lt.
      eapply sorted_last_greatest; [exact SS|exact R| |exact N].
      eapply Permutation_in; [exact PS|exact I].
    + rewrite I2. eapply setitem_getitem. exact F1.
    + intros I. apply KV in I. destruct I as [[]|I].
      eapply Permutation_in; [exact PR|exact I].
    + intros I. apply KV. right.
      eapply Permutation_in; [apply Permutation_sym; exact PR|exact I].
Qed.

End Merger.

Lemma distinct_3A_4B : lamport_distinct ["3@A"; "4@B"].
Proof.
  intros a b [<-|[<-|[]]] [<-|[<-|[]]] N; try contradiction; discriminate.
Qed.

Lemma apply_properties_slot_winner_witness :
  apply_properties_slot (apply_patch 1) (VRef 0%nat) (KStr "x")
    [("4@B", leaf (PInt 20)); ("3@A", leaf (PInt 10))] [Map_empty "root"] =
  apply_properties_slot (apply_patch 1) (VRef 0%nat) (KStr "x")
    [("3@A", leaf (PInt 10)); ("4@B", leaf (PInt 20))] [Map_empty "root"].
Proof.
  assert (Hne : [("3@A", leaf (PInt 10)); ("4@B", leaf (PInt 20))] <> [])
    by discriminate.
  assert (Hn : NoDup (dict_keys
                        [("3@A", leaf (PInt 10)); ("4@B", leaf (PInt 20))])).
  { repeat constructor; cbn; intuition discriminate. }
  destruct (apply_properties_slot_winner (apply_patch 1) (VRef 0%nat)
              (KStr "x") _ Hne Hn distinct_3A_4B) as [H _].
  apply H. apply perm_swap.
Defined.

End MergerClaims.

(** ** Structural edits of a list *)

Module EditFacts.
Import Store ContainerFacts.

Lemma update_ok (l : loc) (c c' : container)
    (f : container -> result container) (h : heap) :
  heap_get h l = Some c -> f c = inr c' ->
  update (VRef l) f h = (heap_set h l c', inr tt).
Proof.
  intros G F. unfold update.
  rewrite (bind_ok _ _ _ _ _ (deref_ok _ _ _ G)). unfold bind, lift_result.
  rewrite F. reflexivity.
Qed.

Lemma update_fail (l : loc) (c : container) (e : exn)
    (f : container -> result container) (h : heap) :
  heap_get h l = Some c -> f c = inl e ->
  update (VRef l) f h = (h, inl e).
Proof.
  intros G F. unfold update.
  rewrite (bind_ok _ _ _ _ _ (deref_ok _ _ _ G)). unfold bind, lift_result.
  rewrite F. reflexivity.
Qed.

Lemma insert_length {A} (l : list A) (i : Z) (x : A) :
  List.length (PyList.insert l i x) = S (List.length l).
Proof.
  unfold PyList.insert. rewrite length_app. cbn [List.length].
  rewrite length_firstn, length_skipn. lia.
Qed.

Lemma remove_length {A} (l : list A) (n : nat) :
  (n < List.length l)%nat ->
  S (List.length (firstn n l ++ skipn (S n) l)) = List.length l.
Proof.
  intros H. rewrite length_app, length_firstn, length_skipn. lia.
Qed.

Lemma delitem_length {A} (l l' : list A) (i : Z) :
  PyList.delitem l i = Some l' -> S (List.length l') = List.length l.
Proof.
  unfold PyList.delitem.
  destruct (PyList.norm_index (List.length l) i) as [n|] eqn:E; [|discriminate].
  apply norm_index_lt in E. intros [= <-]. apply remove_length. exact E.
Qed.

Lemma delitem_same_length {A B} (l l' : list A) (m : list B) (i : Z) :
  PyList.delitem l i = Some l' -> List.length m = List.length l ->
  exists m', PyList.delitem m i = Some m'.
Proof.
  unfold PyList.delitem. intros H E. rewrite E.
  destruct (PyList.norm_index (List.length l) i); [eauto|discriminate].
Qed.

Lemma elem_ids_delitem_list (oid : string) (fr : bool) (items : list value)
    (ids ids' : list string) (ro : list (option ops)) (i : Z) :
  PyList.delitem ids i = Some ids' ->
  elem_ids_delitem i (mkContainer oid fr (ListBody items ids ro)) =
  inr (mkContainer oid fr (ListBody items ids' ro)).
Proof. unfold elem_ids_delitem. cbn [contents]. intros ->. reflexivity. Qed.

Lemma delitem_list (oid : string) (fr : bool) (items items' : list value)
    (ids : list string) (ro : list (option ops)) (i : Z) :
  PyList.delitem items i = Some items' ->
  delitem (KInt i) (mkContainer oid fr (ListBody items ids ro)) =
  inr (mkContainer oid fr (ListBody items' ids ro)).
Proof. unfold delitem. cbn [contents]. intros ->. reflexivity. Qed.

Lemma recent_ops_delitem_list (oid : string) (fr : bool) (items : list value)
    (ids : list string) (ro ro' : list (option ops)) (i : Z) :
  PyList.delitem ro i = Some ro' ->
  recent_ops_delitem (KInt i) (mkContainer oid fr (ListBody items ids ro)) =
  inr (mkContainer oid fr (ListBody items ids ro')).
Proof. unfold recent_ops_delitem. cbn [contents]. intros ->. reflexivity. Qed.

Lemma elem_ids_delitem_list_fail (oid : string) (fr : bool)
    (items : list value) (ids : list string) (ro : list (option ops)) (i : Z) :
  PyList.delitem ids i = None ->
  elem_ids_delitem i (mkContainer oid fr (ListBody items ids ro)) =
  inl IndexError.
Proof. unfold elem_ids_delitem. cbn [contents]. intros ->. reflexivity. Qed.

(** One edit leaves the three sequences of a list in lock-step, whether
    it is carried out or raises. *)
Lemma apply_edit_keeps_lock_step (l : loc) (c : container) (e : edit)
    (h h' : heap) (r : result unit) :
  heap_get h l = Some c -> lock_step c ->
  apply_edit (VRef l) e h = (h', r) ->
  exists c', heap_get h' l = Some c' /\ lock_step c'.
Proof.
  intros G L. unfold apply_edit, lock_step in *.
  destruct c as [oid fr [items ro|items ids ro]]; cbn in L.
  - (* a map has none of the list operations *)
    destruct (String.eqb (action e) "insert").
    + destruct (elemId e) as [x|]; cbn; intros H.
      * rewrite (bind_raise _ _ _ _ _
                   (update_fail l _ AttributeError _ h G eq_refl)) in H.
        inversion H; subst. eexists. split; [exact G|exact I].
      * inversion H; subst. eexists. split; [exact G|exact I].
    + destruct (String.eqb (action e) "remove"); intros H.
      * rewrite (bind_raise _ _ _ _ _
                   (update_fail l _ AttributeError _ h G eq_refl)) in H.
        inversion H; subst. eexists. split; [exact G|exact I].
      * inversion H; subst. eexists. split; [exact G|exact I].
  - destruct L as [L1 L2].
    destruct (String.eqb (action e) "insert").
    + destruct (elemId e) as [x|]; cbn; intros H.
      * erewrite bind_ok in H by (eapply update_ok; [exact G|reflexivity]).
        erewrite bind_ok in H
          by (eapply update_ok; [eapply heap_get_set_same; exact G|reflexivity]).
        erewrite update_ok in H
          by (try (eapply heap_get_set_same; eapply heap_get_set_same; exact G);
              reflexivity).
        inversion H; subst. eexists. split.
        -- repeat (eapply heap_get_set_same). exact G.
        -- cbn. rewrite !insert_length. auto.
      * inversion H; subst. eexists. split; [exact G|]. cbn. auto.
    + destruct (String.eqb (action e) "remove"); intros H.
      * destruct (PyList.delitem ids (index e)) as [ids'|] eqn:D.
        -- destruct (delitem_same_length _ _ items _ D L1) as [items' Di].
           destruct (delitem_same_length _ _ ro _ D (eq_sym L2)) as [ro' Dr].
           erewrite bind_ok in H
             by (eapply update_ok;
                 [exact G|apply elem_ids_delitem_list; exact D]).
           erewrite bind_ok in H
             by (eapply update_ok;
                 [eapply heap_get_set_same; exact G
                 |apply delitem_list; exact Di]).
           erewrite update_ok in H
             by (try (eapply heap_get_set_same; eapply heap_get_set_same;
                      exact G);
                 apply recent_ops_delitem_list; exact Dr).
           inversion H; subst. eexists. split.
           ++ repeat (eapply heap_get_set_same). exact G.
           ++ cbn. apply delitem_length in D, Di, Dr. lia.
        -- rewrite (bind_raise _ _ _ _ _
                      (update_fail l _ IndexError _ h G
                         (elem_ids_delitem_list_fail _ _ _ _ _ _ D))) in H.
           inversion H; subst. eexists. split; [exact G|]. cbn. auto.
      * inversion H; subst. eexists. split; [exact G|]. cbn. auto.
Qed.

(** So does the whole loop over the edits of a list patch. *)
Lemma edits_keep_lock_step (l : loc) (edits : list edit) (c : container)
    (h h' : heap) (r : result unit) :
  heap_get h l = Some c -> lock_step c ->
  for_each (apply_edit (VRef l)) edits h = (h', r) ->
  exists c', heap_get h' l = Some c' /\ lock_step c'.
Proof.
  revert c h. induction edits as [|e edits IH]; intros c h G L H; cbn in H.
  - inversion H; subst. eauto.
  - destruct (bind_inv _ _ _ _ _ H) as [(x & E & _)|(h1 & [] & E & K)].
    + eapply apply_edit_keeps_lock_step; eassumption.
    + destruct (apply_edit_keeps_lock_step _ _ _ _ _ _ G L E) as (c1 & G1 & L1).
      eapply IH; eassumption.
Qed.

Section DictDel.
Context {K V : Type} (eqb : K -> K -> bool).
Hypothesis eqb_spec : forall a b, reflect (a = b) (eqb a b).

Lemma dict_del_mem (k : K) (d : dict K V) :
  dict_mem eqb k d = true -> exists d', dict_del eqb k d = Some d'.
Proof.
  unfold dict_mem. induction d as [|[k' v'] d IH]; cbn; [discriminate|].
  destruct (eqb k' k); [eauto|]. intros H. destruct (IH H) as [d' ->].
  cbn. eauto.
Qed.

Lemma dict_del_get_other (k k' : K) (d d' : dict K V) :
  dict_del eqb k d = Some d' -> k <> k' ->
  dict_get eqb k' d' = dict_get eqb k' d.
Proof.
  revert d'. induction d as [|[k0 v0] d IH]; intros d' H N; cbn in H;
    [discriminate|].
  destruct (eqb_spec k0 k) as [E|N0].
  - inversion H; subst. cbn. destruct (eqb_spec k k'); [contradiction|reflexivity].
  - destruct (dict_del eqb k d) as [d1|]; [|discriminate].
    inversion H; subst. cbn. rewrite (IH d1 eq_refl N). reflexivity.
Qed.

Lemma dict_del_get_same (k : K) (d d' : dict K V) :
  dict_del eqb k d = Some d' -> NoDup (dict_keys d) ->
  dict_get eqb k d' = None.
Proof.
  revert d'. induction d as [|[k0 v0] d IH]; intros d' H Hn; cbn in H;
    [discriminate|].
  inversion Hn; subst.
  destruct (eqb_spec k0 k) as [E|N0].
  - inversion H; subst. apply (dict_get_not_in eqb eqb_spec). assumption.
  - destruct (dict_del eqb k d) as [d1|]; [|discriminate].
    inversion H; subst. cbn. destruct (eqb_spec k0 k); [contradiction|].
    apply IH; trivial.
Qed.

End DictDel.

(** X10: on a map, an empty conflict set for a key that the map holds
    removes the key from the values and from the conflict history, and
    touches no other key and no other container. *)
Lemma empty_conflict_set_deletes_map_key
    (rec : value -> patch -> M value) (l : loc) (oid : string) (fr : bool)
    (items : dict key value) (ro : dict key ops) (k : key) (h : heap) :
  heap_get h l = Some (mkContainer oid fr (MapBody items ro)) ->
  dict_mem key_eqb k items = true -> dict_mem key_eqb k ro = true ->
  NoDup (dict_keys items) -> NoDup (dict_keys ro) ->
  exists items' ro',
    apply_properties_slot rec (VRef l) k [] h =
      (heap_set h l (mkContainer oid fr (MapBody items' ro')), inr tt) /\
    dict_get key_eqb k items' = None /\
    dict_get key_eqb k ro' = None /\
    (forall k', k <> k' ->
       dict_get key_eqb k' items' = dict_get key_eqb k' items /\
       dict_get key_eqb k' ro' = dict_get key_eqb k' ro).
Proof.
  intros G Mi Mr Ni Nr.
  destruct (dict_del_mem key_eqb k items Mi) as [items' Di].
  destruct (dict_del_mem key_eqb k ro Mr) as [ro' Dr].
  exists items', ro'. split; [|split; [|split]].
  - unfold apply_properties_slot.
    erewrite bind_ok by reflexivity. cbn [rev].
    erewrite bind_ok by reflexivity.
    erewrite bind_ok
      by (eapply update_ok; [exact G|];
          unfold delitem; cbn [contents]; rewrite Di; reflexivity).
    erewrite update_ok
      by (try (eapply heap_get_set_same; exact G);
          unfold recent_ops_delitem; cbn [contents object_id _frozen];
          rewrite Dr; reflexivity).
    rewrite heap_set_set. reflexivity.
  - eapply dict_del_get_same; [apply key_eqb_spec|exact Di|exact Ni].
  - eapply dict_del_get_same; [apply key_eqb_spec|exact Dr|exact Nr].
  - intros k' N. split; eapply dict_del_get_other;
      try apply key_eqb_spec; eassumption.
Qed.

End EditFacts.

(** ** The scenarios of the specification, run on the model *)

Module Scenarios.
Import Build Store.

(** A first patch sets x to 10 under 3@A. *)
Example end_to_end_first_patch :
  apply_patch 2 (VRef 0%nat)
    (map_patch "root" [(KStr "x", [("3@A", leaf (PInt 10))])])
    [Map_empty "root"] = ([root_x10], inr (VRef 0%nat)).
Proof. reflexivity. Qed.

(** A second patch brings 4@B as well: 4@B wins, both candidates stay. *)
Example end_to_end_second_patch :
  apply_patch 2 (VRef 0%nat)
    (map_patch "root"
       [(KStr "x", [("3@A", leaf (PInt 10)); ("4@B", leaf (PInt 20))])])
    [root_x10] =
  ([mkContainer "root" true
      (MapBody [(KStr "x", VPrim (PInt 20))]
               [(KStr "x", [("4@B", VPrim (PInt 20));
                            ("3@A", VPrim (PInt 10))])])],
   inr (VRef 0%nat)).
Proof. reflexivity. Qed.

(** An insert edit followed by the props of the new position. *)
Example list_scenario :
  apply_patch 2 (VRef 0%nat)
    (list_patch "l" [(KInt 0, [("1@A", leaf (PStr "hello"))])]
                [mkEdit "insert" 0 (Some "1@A")])
    [List_empty "l"] =
  ([mkContainer "l" true
      (ListBody [VPrim (PStr "hello")] ["1@A"]
                [Some [("1@A", VPrim (PStr "hello"))]])],
   inr (VRef 0%nat)).
Proof. reflexivity. Qed.

(** An insert edit without props for the new position leaves the slot
    unset. *)
Example insert_without_props :
  apply_patch 2 (VRef 0%nat)
    (list_patch "l" [] [mkEdit "insert" 0 (Some "1@A")])
    [List_empty "l"] =
  ([mkContainer "l" true (ListBody [VNone] ["1@A"] [None])],
   inr (VRef 0%nat)).
Proof. reflexivity. Qed.

(** A nested patch with the child's objectId is merged into the child
    where it is: nothing is allocated, the child keeps a and gains y,
    and both references of the root see it. *)
Example deep_merge_in_place :
  apply_patch 3 (VRef 0%nat)
    (map_patch "root"
       [(KStr "x",
         [("2@A", map_patch "o1" [(KStr "y", [("4@A", leaf (PInt 5))])])])])
    [root_with_child; child_o1] =
  ([root_with_child;
    mkContainer "o1" true
      (MapBody [(KStr "a", VPrim (PInt 1)); (KStr "y", VPrim (PInt 5))]
               [(KStr "a", [("1@A", VPrim (PInt 1))]);
                (KStr "y", [("4@A", VPrim (PInt 5))])])],
   inr (VRef 0%nat)).
Proof. reflexivity. Qed.

(** A nested patch with another objectId starts from a new empty map:
    x refers to it, the old child is left as it was. *)
Example object_replacement :
  apply_patch 3 (VRef 0%nat)
    (map_patch "root"
       [(KStr "x",
         [("2@A", map_patch "o2" [(KStr "y", [("4@A", leaf (PInt 5))])])])])
    [root_with_child; child_o1] =
  ([mkContainer "root" true
      (MapBody [(KStr "x", VRef 2%nat); (KStr "alias", VRef 1%nat)]
               [(KStr "x", [("2@A", VRef 2%nat)]);
                (KStr "alias", [("3@A", VRef 1%nat)])]);
    child_o1;
    mkContainer "o2" true
      (MapBody [(KStr "y", VPrim (PInt 5))]
               [(KStr "y", [("4@A", VPrim (PInt 5))])])],
   inr (VRef 0%nat)).
Proof. reflexivity. Qed.

(** The deletion of a key of a map. *)
Example deletion :
  apply_patch 2 (VRef 0%nat) (map_patch "root" [(KStr "x", [])]) [root_x10] =
  ([Map_empty "root"], inr (VRef 0%nat)).
Proof. reflexivity. Qed.

End Scenarios.

(** ** Enough depth: the recursion limit is no restriction *)

Module DepthFacts.
Import Depth.

Lemma list_max_in (x : nat) (l : list nat) : In x l -> (x <= list_max l)%nat.
Proof.
  intros H. assert (F : Forall (fun k => (k <= list_max l)%nat) l)
    by (apply list_max_le; apply Nat.le_refl).
  rewrite Forall_forall in F. apply F. exact H.
Qed.

Lemma sub_patch_depth (sub p : patch) :
  sub_patch sub p -> (patch_depth sub < patch_depth p)%nat.
Proof.
  intros (slots & k & cands & id & Hp & Hs & Hc).
  destruct p as [oid ty props edits dt v]. cbn in Hp. subst props.
  cbn [patch_depth]. apply Nat.lt_succ_r.
  eapply Nat.le_trans; [|apply list_max_in; apply in_map_iff;
                          exists (k, cands); split; [reflexivity|exact Hs]].
  cbn [snd]. apply list_max_in. apply in_map_iff.
  exists (id, sub). split; [reflexivity|exact Hc].
Qed.

Lemma dict_get_in {V} (k : string) (d : dict string V) (v : V) :
  dict_get String.eqb k d = Some v -> In (k, v) d.
Proof.
  induction d as [|[k' v'] d IH]; cbn; [discriminate|].
  destruct (String.eqb_spec k' k) as [->|N].
  - intros H. inversion H. left. reflexivity.
  - intros H. right. apply IH. exact H.
Qed.

Lemma no_overflow_ret {A} (a : A) : no_overflow (ret a).
Proof. intros h h' r H. inversion H. discriminate. Qed.

Lemma no_overflow_raise {A} (e : exn) :
  e <> RecursionError -> no_overflow (@raise A e).
Proof. intros N h h' r H. inversion H. congruence. Qed.

Lemma no_overflow_bind {A B} (c : M A) (k : A -> M B) :
  no_overflow c -> (forall a, no_overflow (k a)) -> no_overflow (bind c k).
Proof.
  intros Hc Hk h h' r H.
  destruct (bind_inv _ _ _ _ _ H) as [(e & E & ->)|(h1 & a & E & K)].
  - intros Q. inversion Q; subst. eapply Hc; [exact E|reflexivity].
  - eapply Hk. exact K.
Qed.

Lemma no_overflow_bind_field {A B} (o : option A) (k : A -> M B) :
  (forall a, o = Some a -> no_overflow (k a)) ->
  no_overflow (bind (field o) k).
Proof.
  intros Hk. destruct o as [a|].
  - intros h h' r H. eapply (Hk a eq_refl). exact H.
  - intros h h' r H. inversion H. discriminate.
Qed.

Lemma no_overflow_lift_result {A} (r : result A) :
  r <> inl RecursionError -> no_overflow (lift_result r).
Proof. intros N h h' r' H. inversion H. congruence. Qed.

Lemma no_overflow_field {A} (o : option A) : no_overflow (field o).
Proof.
  destruct o; [apply no_overflow_ret|apply no_overflow_raise; discriminate].
Qed.

Lemma no_overflow_deref (obj : value) : no_overflow (deref obj).
Proof.
  intros h h' r H. unfold deref in H.
  destruct obj; try (inversion H; discriminate).
  destruct (heap_get h l); inversion H; discriminate.
Qed.

Lemma no_overflow_alloc (c : container) : no_overflow (alloc c).
Proof. intros h h' r H. inversion H. discriminate. Qed.

Lemma no_overflow_read {A} (obj : value) (f : container -> result A) :
  (forall c, f c <> inl RecursionError) -> no_overflow (read obj f).
Proof.
  intros Hf. apply no_overflow_bind; [apply no_overflow_deref|].
  intros a. apply no_overflow_lift_result. apply Hf.
Qed.

Lemma no_overflow_update (obj : value) (f : container -> result container) :
  (forall c, f c <> inl RecursionError) -> no_overflow (update obj f).
Proof.
  intros Hf. unfold update. apply no_overflow_bind; [apply no_overflow_deref|].
  intros [l c]. apply no_overflow_bind.
  - apply no_overflow_lift_result. apply Hf.
  - intros c' h h' r H. inversion H. discriminate.
Qed.

Lemma no_overflow_set_frozen (obj : value) (b : bool) :
  no_overflow (set_frozen obj b).
Proof.
  intros h h' r H.
  destruct (set_frozen_cases _ _ _ _ _ H)
    as [(p & _ & _ & ->)|[(l & c & _ & _ & -> & _)|(_ & ->)]];
    discriminate.
Qed.

Lemma no_overflow_for_each {A} (f : A -> M unit) (xs : list A) :
  (forall x, In x xs -> no_overflow (f x)) -> no_overflow (for_each f xs).
Proof.
  induction xs as [|x xs IH]; intros Hf; cbn.
  - apply no_overflow_ret.
  - apply no_overflow_bind; [apply Hf; left; reflexivity|].
    intros _. apply IH. intros y Hy. apply Hf. right. exact Hy.
Qed.

(** No operation on a container raises [RecursionError]. *)
Ltac pure_step :=
  intros;
  unfold have_key_entry, recent_ops_getitem, ops_mem, ops_getitem, rbind,
    setitem, recent_ops_setitem, delitem, recent_ops_delitem,
    elem_ids_insert, list_insert, recent_ops_insert, elem_ids_delitem,
    has_elem_ids;
  repeat match goal with
         | |- context [match ?x with _ => _ end] =>
             lazymatch x with
             | context [match _ with _ => _ end] => fail
             | _ => destruct x
             end
         end;
  discriminate.

Lemma have_key_entry_pure (k : key) (c : container) :
  have_key_entry k c <> inl RecursionError.
Proof. pure_step. Qed.

Lemma known_pure (k : key) (id : string) (c : container) :
  rbind (recent_ops_getitem k c) (ops_mem id) <> inl RecursionError.
Proof. pure_step. Qed.

Lemma old_pure (k : key) (id : string) (c : container) :
  rbind (recent_ops_getitem k c) (ops_getitem id) <> inl RecursionError.
Proof. pure_step. Qed.

Lemma setitem_pure (k : key) (v : value) (c : container) :
  setitem k v c <> inl RecursionError.
Proof. pure_step. Qed.

Lemma recent_ops_setitem_pure (k : key) (d : ops) (c : container) :
  recent_ops_setitem k d c <> inl RecursionError.
Proof. pure_step. Qed.

Lemma delitem_pure (k : key) (c : container) :
  delitem k c <> inl RecursionError.
Proof. pure_step. Qed.

Lemma recent_ops_delitem_pure (k : key) (c : container) :
  recent_ops_delitem k c <> inl RecursionError.
Proof. pure_step. Qed.

Lemma elem_ids_insert_pure (i : Z) (e : string) (c : container) :
  elem_ids_insert i e c <> inl RecursionError.
Proof. pure_step. Qed.

Lemma list_insert_pure (i : Z) (v : value) (c : container) :
  list_insert i v c <> inl RecursionError.
Proof. pure_step. Qed.

Lemma recent_ops_insert_pure (i : Z) (c : container) :
  recent_ops_insert i c <> inl RecursionError.
Proof. pure_step. Qed.

Lemma elem_ids_delitem_pure (i : Z) (c : container) :
  elem_ids_delitem i c <> inl RecursionError.
Proof. pure_step. Qed.

Lemma has_elem_ids_pure (c : container) :
  has_elem_ids c <> inl RecursionError.
Proof. pure_step. Qed.

Lemma sort_op_ids_pure (l : list string) :
  sort_op_ids l <> inl RecursionError.
Proof.
  intros H. apply SortFacts.sort_op_ids_inl in H. discriminate.
Qed.

Create HintDb depth.

#[local] Hint Resolve no_overflow_ret no_overflow_field no_overflow_deref
  no_overflow_alloc no_overflow_set_frozen no_overflow_read
  no_overflow_update no_overflow_lift_result have_key_entry_pure known_pure
  old_pure setitem_pure recent_ops_setitem_pure delitem_pure
  recent_ops_delitem_pure elem_ids_insert_pure list_insert_pure
  recent_ops_insert_pure elem_ids_delitem_pure has_elem_ids_pure
  sort_op_ids_pure : depth.

Ltac overflow :=
  repeat first
    [ progress auto with depth
    | apply no_overflow_raise; discriminate
    | apply no_overflow_bind; [|intros ?]
    | match goal with
      | |- no_overflow (if ?b then _ else _) => destruct b
      | |- no_overflow (match ?x with _ => _ end) => destruct x eqn:?
      end ].

Section Engine.
Variable rec : value -> patch -> M value.

Lemma no_overflow_get_value (conflict : value) (p : patch) :
  (forall c, no_overflow (rec c p)) ->
  no_overflow (get_value rec conflict p).
Proof. intros H. unfold get_value, get_object_id. overflow. Qed.

Lemma no_overflow_materialize_candidate (obj : value) (k : key)
    (cands : dict string patch) (values : ops) (id : string) :
  (forall id sp, In (id, sp) cands -> forall c, no_overflow (rec c sp)) ->
  no_overflow (materialize_candidate rec obj k cands values id).
Proof.
  intros H. unfold materialize_candidate.
  apply no_overflow_bind_field. intros sp E.
  assert (G : forall c, no_overflow (get_value rec c sp)).
  { intros c. apply no_overflow_get_value. eapply H.
    apply dict_get_in. exact E. }
  overflow.
Qed.

Lemma no_overflow_materialize_candidates (obj : value) (k : key)
    (cands : dict string patch) (ids : list string) (values : ops) :
  (forall id sp, In (id, sp) cands -> forall c, no_overflow (rec c sp)) ->
  no_overflow (materialize_candidates rec obj k cands values ids).
Proof.
  intros H. revert values. induction ids as [|id ids IH]; intros values; cbn.
  - apply no_overflow_ret.
  - apply no_overflow_bind;
      [apply no_overflow_materialize_candidate; exact H|].
    intros a. apply IH.
Qed.

Lemma no_overflow_apply_properties_slot (obj : value) (k : key)
    (cands : dict string patch) :
  (forall id sp, In (id, sp) cands -> forall c, no_overflow (rec c sp)) ->
  no_overflow (apply_properties_slot rec obj k cands).
Proof.
  intros H. unfold apply_properties_slot.
  apply no_overflow_bind; [auto with depth|]. intros sorted.
  apply no_overflow_bind;
    [apply no_overflow_materialize_candidates; exact H|].
  intros values. overflow.
Qed.

Lemma no_overflow_apply_properties (obj : value)
    (props : dict key (dict string patch)) :
  (forall k cands id sp, In (k, cands) props -> In (id, sp) cands ->
     forall c, no_overflow (rec c sp)) ->
  no_overflow (apply_properties rec obj props).
Proof.
  intros H. unfold apply_properties.
  apply no_overflow_bind; [auto with depth|]. intros _.
  apply no_overflow_for_each. intros [k cands] I.
  apply no_overflow_apply_properties_slot. intros id sp Hc.
  eapply H; eassumption.
Qed.

Lemma no_overflow_apply_edit (listobj : value) (e : edit) :
  no_overflow (apply_edit listobj e).
Proof. unfold apply_edit. overflow. Qed.

Lemma no_overflow_update_list_obj (listobj : value)
    (props : dict key (dict string patch)) (edits : list edit) :
  (forall k cands id sp, In (k, cands) props -> In (id, sp) cands ->
     forall c, no_overflow (rec c sp)) ->
  no_overflow (update_list_obj rec listobj props edits).
Proof.
  intros H. unfold update_list_obj.
  apply no_overflow_bind; [auto with depth|]. intros _.
  apply no_overflow_bind.
  - apply no_overflow_for_each. intros e _. apply no_overflow_apply_edit.
  - intros _. apply no_overflow_apply_properties. exact H.
Qed.

Lemma no_overflow_apply_patch_body (obj : value) (p : patch) :
  (forall sp, sub_patch sp p -> forall c, no_overflow (rec c sp)) ->
  no_overflow (apply_patch_body rec obj p).
Proof.
  intros H. unfold apply_patch_body.
  assert (Hp : forall props, p_props p = Some props ->
            forall k cands id sp, In (k, cands) props -> In (id, sp) cands ->
            forall c, no_overflow (rec c sp)).
  { intros props E k cands id sp I1 I2. apply H.
    exists props, k, cands, id. auto. }
  apply no_overflow_bind; [overflow|]. intros _.
  destruct (is_not_none obj && negb (has_field (p_props p)) &&
            negb (has_field (p_edits p))); [overflow|].
  apply no_overflow_bind; [auto with depth|]. intros ty.
  apply no_overflow_bind; [|intros _; overflow].
  destruct (String.eqb ty "map").
  - apply no_overflow_bind_field. intros props E.
    apply no_overflow_apply_properties. apply Hp. exact E.
  - destruct (String.eqb ty "list").
    + apply no_overflow_bind_field. intros props E.
      apply no_overflow_bind; [auto with depth|]. intros edits.
      apply no_overflow_update_list_obj. apply Hp. exact E.
    + apply no_overflow_raise. discriminate.
Qed.

End Engine.

(** With at least as much depth as the patch is nested, [apply_patch]
    never runs into the recursion limit. *)
Lemma apply_patch_no_overflow (depth : nat) (obj : value) (p : patch) :
  (patch_depth p <= depth)%nat -> no_overflow (apply_patch depth obj p).
Proof.
  revert obj p. induction depth as [|depth IH]; intros obj p Hd.
  - destruct p; cbn in Hd. lia.
  - cbn [apply_patch]. apply no_overflow_apply_patch_body.
    intros sp Hs c. apply IH. apply sub_patch_depth in Hs. lia.
Qed.

Lemma same_run_refl {A} (m : M A) : same_run m m.
Proof. intros h. reflexivity. Qed.

Lemma same_run_bind {A B} (c1 c2 : M A) (k1 k2 : A -> M B) :
  same_run c1 c2 -> (forall a, same_run (k1 a) (k2 a)) ->
  same_run (bind c1 k1) (bind c2 k2).
Proof.
  intros Hc Hk h. unfold bind. rewrite Hc.
  destruct (c2 h) as [h1 [e|a]]; [reflexivity|apply Hk].
Qed.

Lemma same_run_bind_field {A B} (o : option A) (k1 k2 : A -> M B) :
  (forall a, o = Some a -> same_run (k1 a) (k2 a)) ->
  same_run (bind (field o) k1) (bind (field o) k2).
Proof.
  intros Hk. destruct o as [a|]; intros h; [|reflexivity].
  apply (Hk a eq_refl).
Qed.

Lemma same_run_for_each {A} (f g : A -> M unit) (xs : list A) :
  (forall x, In x xs -> same_run (f x) (g x)) ->
  same_run (for_each f xs) (for_each g xs).
Proof.
  induction xs as [|x xs IH]; intros H; cbn.
  - apply same_run_refl.
  - apply same_run_bind; [apply H; left; reflexivity|].
    intros _. apply IH. intros y Hy. apply H. right. exact Hy.
Qed.

Section Agreement.
Variables rec1 rec2 : value -> patch -> M value.

Lemma same_run_get_value (conflict : value) (p : patch) :
  (forall c, same_run (rec1 c p) (rec2 c p)) ->
  same_run (get_value rec1 conflict p) (get_value rec2 conflict p).
Proof.
  intros H. unfold get_value.
  destruct (p_objectId p); [|apply same_run_refl].
  apply same_run_bind; [apply same_run_refl|]. intros c. apply H.
Qed.

Lemma same_run_materialize_candidate (obj : value) (k : key)
    (cands : dict string patch) (values : ops) (id : string) :
  (forall id sp, In (id, sp) cands ->
     forall c, same_run (rec1 c sp) (rec2 c sp)) ->
  same_run (materialize_candidate rec1 obj k cands values id)
           (materialize_candidate rec2 obj k cands values id).
Proof.
  intros H. unfold materialize_candidate.
  apply same_run_bind_field. intros sp E.
  assert (G : forall c, same_run (get_value rec1 c sp) (get_value rec2 c sp)).
  { intros c. apply same_run_get_value. eapply H.
    apply dict_get_in. exact E. }
  apply same_run_bind; [apply same_run_refl|]. intros have.
  apply same_run_bind; [apply same_run_refl|]. intros known.
  destruct known.
  - apply same_run_bind; [apply same_run_refl|]. intros old.
    apply same_run_bind; [apply G|]. intros v. apply same_run_refl.
  - apply same_run_bind; [|intros v; apply same_run_refl].
    destruct (p_objectId sp); [|apply G].
    apply same_run_bind; [apply same_run_refl|]. intros ty.
    apply same_run_bind; [apply same_run_refl|]. intros new_val. apply G.
Qed.

Lemma same_run_materialize_candidates (obj : value) (k : key)
    (cands : dict string patch) (ids : list string) (values : ops) :
  (forall id sp, In (id, sp) cands ->
     forall c, same_run (rec1 c sp) (rec2 c sp)) ->
  same_run (materialize_candidates rec1 obj k cands values ids)
           (materialize_candidates rec2 obj k cands values ids).
Proof.
  intros H. revert values. induction ids as [|id ids IH]; intros values; cbn.
  - apply same_run_refl.
  - apply same_run_bind;
      [apply same_run_materialize_candidate; exact H|].
    intros a. apply IH.
Qed.

Lemma same_run_apply_properties_slot (obj : value) (k : key)
    (cands : dict string patch) :
  (forall id sp, In (id, sp) cands ->
     forall c, same_run (rec1 c sp) (rec2 c sp)) ->
  same_run (apply_properties_slot rec1 obj k cands)
           (apply_properties_slot rec2 obj k cands).
Proof.
  intros H. unfold apply_properties_slot.
  apply same_run_bind; [apply same_run_refl|]. intros sorted.
  apply same_run_bind;
    [apply same_run_materialize_candidates; exact H|].
  intros values. apply same_run_refl.
Qed.

Lemma same_run_apply_properties (obj : value)
    (props : dict key (dict string patch)) :
  (forall k cands id sp, In (k, cands) props -> In (id, sp) cands ->
     forall c, same_run (rec1 c sp) (rec2 c sp)) ->
  same_run (apply_properties rec1 obj props) (apply_properties rec2 obj props).
Proof.
  intros H. unfold apply_properties.
  apply same_run_bind; [apply same_run_refl|]. intros _.
  apply same_run_for_each. intros [k cands] I.
  apply same_run_apply_properties_slot. intros id sp Hc.
  eapply H; eassumption.
Qed.

Lemma same_run_update_list_obj (listobj : value)
    (props : dict key (dict string patch)) (edits : list edit) :
  (forall k cands id sp, In (k, cands) props -> In (id, sp) cands ->
     forall c, same_run (rec1 c sp) (rec2 c sp)) ->
  same_run (update_list_obj rec1 listobj props edits)
           (update_list_obj rec2 listobj props edits).
Proof.
  intros H. unfold update_list_obj.
  apply same_run_bind; [apply same_run_refl|]. intros _.
  apply same_run_bind; [apply same_run_refl|]. intros _.
  apply same_run_apply_properties. exact H.
Qed.

Lemma same_run_apply_patch_body (obj : value) (p : patch) :
  (forall sp, sub_patch sp p -> forall c, same_run (rec1 c sp) (rec2 c sp)) ->
  same_run (apply_patch_body rec1 obj p) (apply_patch_body rec2 obj p).
Proof.
  intros H. unfold apply_patch_body.
  assert (Hp : forall props, p_props p = Some props ->
            forall k cands id sp, In (k, cands) props -> In (id, sp) cands ->
            forall c, same_run (rec1 c sp) (rec2 c sp)).
  { intros props E k cands id sp I1 I2. apply H.
    exists props, k, cands, id. auto. }
  apply same_run_bind; [apply same_run_refl|]. intros _.
  destruct (is_not_none obj && negb (has_field (p_props p)) &&
            negb (has_field (p_edits p))); [apply same_run_refl|].
  apply same_run_bind; [apply same_run_refl|]. intros ty.
  apply same_run_bind; [|intros _; apply same_run_refl].
  destruct (String.eqb ty "map").
  - apply same_run_bind_field. intros props E.
    apply same_run_apply_properties. apply Hp. exact E.
  - destruct (String.eqb ty "list"); [|apply same_run_refl].
    apply same_run_bind_field. intros props E.
    apply same_run_bind; [apply same_run_refl|]. intros edits.
    apply same_run_update_list_obj. apply Hp. exact E.
Qed.

End Agreement.

(** Any two depths that are at least the nesting of the patch give the
    same run: beyond that nesting, the depth plays no part. *)
Lemma apply_patch_depth_irrelevant (d d' : nat) (obj : value) (p : patch) :
  (patch_depth p <= d)%nat -> (patch_depth p <= d')%nat ->
  same_run (apply_patch d obj p) (apply_patch d' obj p).
Proof.
  revert d' obj p. induction d as [|d IH]; intros d' obj p Hd Hd'.
  - destruct p; cbn in Hd. lia.
  - destruct d' as [|d']; [destruct p; cbn in Hd'; lia|].
    cbn [apply_patch]. apply same_run_apply_patch_body.
    intros sp Hs c. apply sub_patch_depth in Hs. apply IH; lia.
Qed.

End DepthFacts.

(** ** The lock-step of the three sequences of a list *)

Module LockStepFacts.
Import Store Depth ContainerFacts EditFacts DepthFacts.

Lemma heap_get_set_inv (h : heap) (l l0 : loc) (c' c0 : container) :
  heap_get (heap_set h l c') l0 = Some c0 ->
  c0 = c' \/ heap_get h l0 = Some c0.
Proof.
  unfold heap_get. revert l l0.
  induction h as [|x h IH]; intros [|l] [|l0]; cbn; intros H; auto.
  - inversion H. auto.
  - eapply IH. exact H.
Qed.

Lemma all_lock_step_set (h : heap) (l : loc) (c' : container) :
  all_lock_step h -> lock_step c' -> all_lock_step (heap_set h l c').
Proof.
  intros Hh Hc l0 c0 G. apply heap_get_set_inv in G.
  destruct G as [->|G]; [exact Hc|eapply Hh; exact G].
Qed.

Lemma all_lock_step_alloc (h : heap) (c : container) :
  all_lock_step h -> lock_step c -> all_lock_step (h ++ [c]).
Proof.
  intros Hh Hc l0 c0 G. unfold heap_get in G.
  destruct (Nat.lt_ge_cases l0 (List.length h)) as [L|L].
  - rewrite nth_error_app1 in G by exact L. eapply Hh. exact G.
  - rewrite nth_error_app2 in G by exact L.
    destruct (l0 - List.length h)%nat as [|[|n]]; cbn in G; try discriminate.
    inversion G; subst. exact Hc.
Qed.

Lemma touches_only_ret {A} (l : loc) (a : A) : touches_only l (ret a).
Proof. intros h h' r H. inversion H. reflexivity. Qed.

Lemma touches_only_raise {A} (l : loc) (e : exn) :
  touches_only l (@raise A e).
Proof. intros h h' r H. inversion H. reflexivity. Qed.

Lemma touches_only_bind {A B} (l : loc) (c : M A) (k : A -> M B) :
  touches_only l c -> (forall a, touches_only l (k a)) ->
  touches_only l (bind c k).
Proof.
  intros Hc Hk h h' r H l' N.
  destruct (bind_inv _ _ _ _ _ H) as [(e & E & _)|(h1 & a & E & K)].
  - eapply Hc; eassumption.
  - rewrite (Hk a _ _ _ K l' N). eapply Hc; eassumption.
Qed.

Lemma touches_only_update (l : loc) (f : container -> result container) :
  touches_only l (update (VRef l) f).
Proof.
  intros h h' r H l' N. unfold update in H.
  destruct (bind_inv _ _ _ _ _ H) as [(e & E & _)|(h1 & [l0 c] & E & K)].
  - unfold deref in E. destruct (heap_get h l); inversion E; reflexivity.
  - apply deref_inr in E. destruct E as (E & -> & G). inversion E; subst l0.
    destruct (f c) as [e|c']; cbn in K; inversion K; [reflexivity|].
    apply heap_get_set_other. congruence.
Qed.

Lemma touches_only_apply_edit (l : loc) (e : edit) :
  touches_only l (apply_edit (VRef l) e).
Proof.
  unfold apply_edit.
  destruct (String.eqb (action e) "insert").
  - destruct (elemId e); cbn [field lift_opt].
    + apply touches_only_bind; [apply touches_only_ret|]. intros x.
      repeat (apply touches_only_bind; [apply touches_only_update|intros _]).
      apply touches_only_update.
    + intros h h' r H. inversion H. reflexivity.
  - destruct (String.eqb (action e) "remove"); [|apply touches_only_ret].
    repeat (apply touches_only_bind; [apply touches_only_update|intros _]).
    apply touches_only_update.
Qed.

Lemma keeps_ret {A} (a : A) : keeps_lock_step (ret a).
Proof. intros h h' r I H. inversion H; subst. exact I. Qed.

Lemma keeps_raise {A} (e : exn) : keeps_lock_step (@raise A e).
Proof. intros h h' r I H. inversion H; subst. exact I. Qed.

Lemma keeps_bind {A B} (c : M A) (k : A -> M B) :
  keeps_lock_step c -> (forall a, keeps_lock_step (k a)) ->
  keeps_lock_step (bind c k).
Proof.
  intros Hc Hk h h' r I H.
  destruct (bind_inv _ _ _ _ _ H) as [(e & E & _)|(h1 & a & E & K)].
  - eapply Hc; eassumption.
  - eapply Hk; [|exact K]. eapply Hc; eassumption.
Qed.

Lemma keeps_bind_field {A B} (o : option A) (k : A -> M B) :
  (forall a, o = Some a -> keeps_lock_step (k a)) ->
  keeps_lock_step (bind (field o) k).
Proof.
  intros Hk. destruct o as [a|].
  - intros h h' r I H. eapply (Hk a eq_refl); eassumption.
  - intros h h' r I H. inversion H; subst. exact I.
Qed.

Lemma keeps_bind_lift_result {A B} (r : result A) (k : A -> M B) :
  (forall a, r = inr a -> keeps_lock_step (k a)) ->
  keeps_lock_step (bind (lift_result r) k).
Proof.
  intros Hk. destruct r as [e|a].
  - intros h h' r I H. inversion H; subst. exact I.
  - intros h h' r I H. eapply (Hk a eq_refl); eassumption.
Qed.

Lemma keeps_field {A} (o : option A) : keeps_lock_step (field o).
Proof. destruct o; [apply keeps_ret|apply keeps_raise]. Qed.

Lemma keeps_lift_result {A} (r : result A) : keeps_lock_step (lift_result r).
Proof. intros h h' r' I H. inversion H; subst. exact I. Qed.

Lemma keeps_deref (obj : value) : keeps_lock_step (deref obj).
Proof.
  intros h h' r I H. unfold deref in H.
  destruct obj; try (inversion H; subst; exact I).
  destruct (heap_get h l); inversion H; subst; exact I.
Qed.

Lemma keeps_read {A} (obj : value) (f : container -> result A) :
  keeps_lock_step (read obj f).
Proof.
  apply keeps_bind; [apply keeps_deref|]. intros a. apply keeps_lift_result.
Qed.

Lemma keeps_alloc (c : container) : lock_step c -> keeps_lock_step (alloc c).
Proof.
  intros Hc h h' r I H. inversion H; subst.
  apply all_lock_step_alloc; assumption.
Qed.

Lemma keeps_update (obj : value) (f : container -> result container) :
  (forall c c', f c = inr c' -> lock_step c -> lock_step c') ->
  keeps_lock_step (update obj f).
Proof.
  intros Hf h h' r I H. unfold update in H.
  destruct (bind_inv _ _ _ _ _ H) as [(e & E & _)|(h1 & [l c] & E & K)].
  - eapply keeps_deref; eassumption.
  - apply deref_inr in E. destruct E as (-> & -> & G).
    destruct (f c) as [e|c'] eqn:F; cbn in K; inversion K; subst; [exact I|].
    apply all_lock_step_set; [exact I|]. eapply Hf; [exact F|].
    eapply I. exact G.
Qed.

Lemma keeps_set_frozen (obj : value) (b : bool) :
  keeps_lock_step (set_frozen obj b).
Proof.
  intros h h' r I H.
  destruct (set_frozen_cases _ _ _ _ _ H)
    as [(p & _ & -> & _)|[(l & c & _ & G & _ & ->)|(-> & _)]].
  - exact I.
  - apply all_lock_step_set; [exact I|]. exact (I l c G).
  - exact I.
Qed.

Lemma keeps_for_each {A} (f : A -> M unit) (xs : list A) :
  (forall x, In x xs -> keeps_lock_step (f x)) ->
  keeps_lock_step (for_each f xs).
Proof.
  induction xs as [|x xs IH]; intros Hf; cbn.
  - apply keeps_ret.
  - apply keeps_bind; [apply Hf; left; reflexivity|].
    intros _. apply IH. intros y Hy. apply Hf. right. exact Hy.
Qed.

Lemma setitem_lock_step (k : key) (v : value) (c c' : container) :
  setitem k v c = inr c' -> lock_step c -> lock_step c'.
Proof.
  unfold setitem, lock_step.
  destruct (contents c) as [items ro|items ids ro].
  - intros H _. inversion H. exact I.
  - destruct k as [s|i]; [discriminate|].
    destruct (PyList.setitem items i v) as [items'|] eqn:E; [|discriminate].
    intros H. inversion H. cbn. rewrite (setitem_length _ _ _ _ E). auto.
Qed.

Lemma recent_ops_setitem_lock_step (k : key) (d : ops) (c c' : container) :
  recent_ops_setitem k d c = inr c' -> lock_step c -> lock_step c'.
Proof.
  unfold recent_ops_setitem, lock_step.
  destruct (contents c) as [items ro|items ids ro].
  - intros H _. inversion H. exact I.
  - destruct k as [s|i]; [discriminate|].
    destruct (PyList.setitem ro i (Some d)) as [ro'|] eqn:E; [|discriminate].
    intros H. inversion H. cbn. rewrite (setitem_length _ _ _ _ E). auto.
Qed.

Lemma update_no_container (obj : value) (f : container -> result container)
    (h : heap) :
  (forall l c, obj = VRef l -> heap_get h l = Some c -> False) ->
  update obj f h = (h, inl AttributeError).
Proof.
  intros N. unfold update, bind, deref. destruct obj; try reflexivity.
  destruct (heap_get h l) eqn:G; [|reflexivity].
  exfalso. eapply N; [reflexivity|exact G].
Qed.

(** The edits of a list patch keep every list in lock-step. *)
Lemma keeps_apply_edit (listobj : value) (e : edit) :
  keeps_lock_step (apply_edit listobj e).
Proof.
  intros h h' r I H.
  assert (C : (exists l c, listobj = VRef l /\ heap_get h l = Some c) \/
              (forall l c, listobj = VRef l -> heap_get h l = Some c -> False)).
  { destruct listobj as [p|p|l]; try (right; discriminate).
    destruct (heap_get h l) as [c|] eqn:G.
    - left. eauto.
    - right. intros l0 c E. inversion E; subst. congruence. }
  destruct C as [(l & c & -> & G)|N].
  - destruct (apply_edit_keeps_lock_step _ _ _ _ _ _ G (I l c G) H)
      as (c' & G' & L').
    intros l0 c0 G0. destruct (Nat.eq_dec l0 l) as [->|D].
    + rewrite G' in G0. inversion G0; subst. exact L'.
    + rewrite (touches_only_apply_edit l e _ _ _ H l0 D) in G0.
      eapply I. exact G0.
  - unfold apply_edit in H.
    destruct (String.eqb (action e) "insert").
    + destruct (elemId e); cbn in H.
      * rewrite (bind_raise _ _ _ _ _ (update_no_container _ _ h N)) in H.
        inversion H; subst. exact I.
      * inversion H; subst. exact I.
    + destruct (String.eqb (action e) "remove").
      * rewrite (bind_raise _ _ _ _ _ (update_no_container _ _ h N)) in H.
        inversion H; subst. exact I.
      * inversion H; subst. exact I.
Qed.

Section Engine.
Variable rec : value -> patch -> M value.

Lemma keeps_get_value (conflict : value) (p : patch) :
  (forall c, keeps_lock_step (rec c p)) ->
  keeps_lock_step (get_value rec conflict p).
Proof.
  intros H. unfold get_value, get_object_id.
  destruct (p_objectId p) as [oid|].
  - apply keeps_bind; [|intros c; apply H].
    destruct (truthy conflict); [|apply keeps_ret].
    apply keeps_bind; [apply keeps_bind; [apply keeps_deref|]|].
    + intros a. apply keeps_ret.
    + intros cid. destruct (negb (String.eqb cid oid)); [|apply keeps_ret].
      apply keeps_bind; [apply keeps_field|]. intros ty.
      destruct (String.eqb ty "map"); [apply keeps_alloc; cbn; exact I|].
      destruct (String.eqb ty "list"); [|apply keeps_raise].
      apply keeps_alloc. cbn. auto.
  - destruct (p_datatype p);
      (apply keeps_bind; [apply keeps_field|intros v; apply keeps_ret]).
Qed.

Lemma keeps_materialize_candidate (obj : value) (k : key)
    (cands : dict string patch) (values : ops) (id : string) :
  (forall id sp, In (id, sp) cands -> forall c, keeps_lock_step (rec c sp)) ->
  keeps_lock_step (materialize_candidate rec obj k cands values id).
Proof.
  intros H. unfold materialize_candidate.
  apply keeps_bind_field. intros sp E.
  assert (G : forall c, keeps_lock_step (get_value rec c sp)).
  { intros c. apply keeps_get_value. eapply H. apply dict_get_in. exact E. }
  apply keeps_bind; [apply keeps_read|]. intros have.
  apply keeps_bind;
    [destruct have; [apply keeps_read|apply keeps_ret]|]. intros known.
  destruct known.
  - apply keeps_bind; [apply keeps_read|]. intros old.
    apply keeps_bind; [apply G|]. intros v. apply keeps_ret.
  - apply keeps_bind; [|intros v; apply keeps_ret].
    destruct (p_objectId sp) as [oid|]; [|apply G].
    apply keeps_bind; [apply keeps_field|]. intros ty.
    apply keeps_bind; [|intros new_val; apply G].
    apply keeps_alloc. destruct (String.eqb ty "map"); cbn; auto.
Qed.

Lemma keeps_materialize_candidates (obj : value) (k : key)
    (cands : dict string patch) (ids : list string) (values : ops) :
  (forall id sp, In (id, sp) cands -> forall c, keeps_lock_step (rec c sp)) ->
  keeps_lock_step (materialize_candidates rec obj k cands values ids).
Proof.
  intros H. revert values. induction ids as [|id ids IH]; intros values; cbn.
  - apply keeps_ret.
  - apply keeps_bind; [apply keeps_materialize_candidate; exact H|].
    intros a. apply IH.
Qed.

(** The merge of a slot with candidates keeps every list in lock-step:
    it assigns to the slot and deletes nothing. *)
Lemma keeps_apply_properties_slot (obj : value) (k : key)
    (cands : dict string patch) :
  cands <> [] ->
  (forall id sp, In (id, sp) cands -> forall c, keeps_lock_step (rec c sp)) ->
  keeps_lock_step (apply_properties_slot rec obj k cands).
Proof.
  intros Hne H. unfold apply_properties_slot.
  apply keeps_bind_lift_result. intros sorted E.
  assert (Hs : rev sorted <> []).
  { intros R. apply Hne.
    pose proof (SortFacts.sort_op_ids_length _ _ E) as L.
    rewrite <- length_rev, R in L. unfold dict_keys in L.
    rewrite length_map in L. destruct cands; [reflexivity|discriminate]. }
  apply keeps_bind; [apply keeps_materialize_candidates; exact H|].
  intros values. destruct (rev sorted) as [|winner rest]; [contradiction|].
  apply keeps_bind; [apply keeps_field|]. intros v.
  apply keeps_bind; [|intros _]; apply keeps_update.
  - intros c c'. apply setitem_lock_step.
  - intros c c'. apply recent_ops_setitem_lock_step.
Qed.

Lemma keeps_apply_properties (obj : value)
    (props : dict key (dict string patch)) :
  (forall k cands, In (k, cands) props -> cands <> []) ->
  (forall k cands id sp, In (k, cands) props -> In (id, sp) cands ->
     forall c, keeps_lock_step (rec c sp)) ->
  keeps_lock_step (apply_properties rec obj props).
Proof.
  intros Hne H. unfold apply_properties.
  apply keeps_bind; [apply keeps_deref|]. intros _.
  apply keeps_for_each. intros [k cands] I.
  apply keeps_apply_properties_slot; [eapply Hne; exact I|].
  intros id sp Hc. eapply H; eassumption.
Qed.

Lemma keeps_update_list_obj (listobj : value)
    (props : dict key (dict string patch)) (edits : list edit) :
  (forall k cands, In (k, cands) props -> cands <> []) ->
  (forall k cands id sp, In (k, cands) props -> In (id, sp) cands ->
     forall c, keeps_lock_step (rec c sp)) ->
  keeps_lock_step (update_list_obj rec listobj props edits).
Proof.
  intros Hne H. unfold update_list_obj.
  apply keeps_bind; [apply keeps_read|]. intros _.
  apply keeps_bind.
  - apply keeps_for_each. intros e _. apply keeps_apply_edit.
  - intros _. apply keeps_apply_properties; assumption.
Qed.

Lemma keeps_apply_patch_body (obj : value) (p : patch) :
  (forall slots k cands,
     p_props p = Some slots -> In (k, cands) slots -> cands <> []) ->
  (forall sp, sub_patch sp p -> forall c, keeps_lock_step (rec c sp)) ->
  keeps_lock_step (apply_patch_body rec obj p).
Proof.
  intros Hne H. unfold apply_patch_body.
  assert (Hp : forall props, p_props p = Some props ->
            forall k cands id sp, In (k, cands) props -> In (id, sp) cands ->
            forall c, keeps_lock_step (rec c sp)).
  { intros props E k cands id sp I1 I2. apply H.
    exists props, k, cands, id. auto. }
  apply keeps_bind.
  { destruct (is_not_none obj); [apply keeps_set_frozen|apply keeps_ret]. }
  intros _.
  destruct (is_not_none obj && negb (has_field (p_props p)) &&
            negb (has_field (p_edits p))).
  { apply keeps_bind; [apply keeps_set_frozen|intros _; apply keeps_ret]. }
  apply keeps_bind; [apply keeps_field|]. intros ty.
  apply keeps_bind.
  - destruct (String.eqb ty "map").
    + apply keeps_bind_field. intros props E.
      apply keeps_apply_properties; [|apply Hp; exact E].
      intros k cands Hin. eapply Hne; [exact E|exact Hin].
    + destruct (String.eqb ty "list"); [|apply keeps_raise].
      apply keeps_bind_field. intros props E.
      apply keeps_bind; [apply keeps_field|]. intros edits.
      apply keeps_update_list_obj; [|apply Hp; exact E].
      intros k cands Hin. eapply Hne; [exact E|exact Hin].
  - intros _. apply keeps_bind; [|intros _; apply keeps_ret].
    destruct (is_not_none obj); [apply keeps_set_frozen|apply keeps_ret].
Qed.

End Engine.

(** On a store whose lists are all in lock-step, a patch without empty
    conflict sets leaves them all in lock-step, at whatever depth and
    whether [apply_patch] returns or raises. *)
Lemma apply_patch_keeps_lock_step (depth : nat) (obj : value) (p : patch) :
  well_slotted p -> keeps_lock_step (apply_patch depth obj p).
Proof.
  revert obj p. induction depth as [|depth IH]; intros obj p W.
  - apply keeps_raise.
  - cbn [apply_patch]. destruct W as [p Hne Hsub].
    apply keeps_apply_patch_body; [exact Hne|].
    intros sp Hs c. apply IH. apply Hsub. exact Hs.
Qed.

End LockStepFacts.

(** * Further properties of the code *)

(** ** Identifiers: zero prefixes, failures, signs *)

Module IdentifierCoverage.
Import Lamport LamportOrder Shape LamportFacts ShapeFacts.

Lemma digits_value_nonneg (cs : list string) (acc : Z) :
  0 <= acc ->
  0 <= fold_left
         (fun acc c =>
            10 * acc + match digit_char c with Some v => v | None => 0 end)
         cs acc.
Proof.
  revert acc. induction cs as [|c cs IH]; intros acc Ha; cbn [fold_left];
    [exact Ha|].
  apply IH. destruct (digit_char c) as [v|] eqn:D; [|lia].
  destruct (digit_char_first _ _ D) as (_ & R & _). lia.
Qed.

(** X1: a counter that [parse_op_id] returns is never negative: a sign
    is no digit, so a signed number does not match. *)
Theorem parsed_counter_nonnegative (text : string) (t : OpId) :
  parse_op_id text = inr t -> 0 <= counter t.
Proof.
  intros H. destruct (parse_op_id_inr _ _ H) as (ds & _ & ->).
  apply digits_value_nonneg. lia.
Qed.

Lemma parsed_counter_nonnegative_witness :
  parse_op_id "007@A" = inr (mkOpId 7 "A") /\ 0 <= 7.
Proof.
  split; [reflexivity|].
  apply (parsed_counter_nonnegative "007@A" (mkOpId 7 "A")). reflexivity.
Defined.

(** X2: writing a zero in front of a valid identifier gives another
    text that is a valid identifier, for the same counter and actorId:
    the two texts differ and yet are tied in Lamport order. *)
Theorem zero_prefixed_identifier_tied (a : string) :
  valid a ->
  parse_op_id (String "0" a) = parse_op_id a /\
  String "0" a <> a /\
  tied a (String "0" a).
Proof.
  intros [t H].
  assert (P : parse_op_id (String "0" a) = inr t).
  { destruct (parse_op_id_inr _ _ H) as (ds & (Hne & Hd & Hn & Ht) & Hc).
    rewrite (parse_op_id_accepted (String "0" a) ("0" :: ds) (actorId t)).
    - destruct t as [n act]. cbn [counter actorId] in *. subst n.
      reflexivity.
    - repeat split; try assumption; try discriminate.
      destruct Ht as [-> | ->]; [left|right]; reflexivity. }
  split; [congruence|]. split.
  - intros E. apply (f_equal String.length) in E. cbn in E. lia.
  - unfold tied. rewrite (lamport_compare_parsed _ _ _ _ H P).
    f_equal. apply compare_parsed_zero. auto.
Qed.

Lemma zero_prefixed_identifier_tied_witness :
  valid "5@A" /\ tied "5@A" "05@A".
Proof.
  assert (V : valid "5@A") by (eexists; reflexivity).
  split; [exact V|].
  destruct (zero_prefixed_identifier_tied "5@A" V) as (_ & _ & T). exact T.
Defined.

(** X3: [lamport_compare] raises exactly when one of its two arguments
    is no valid identifier, and then it raises MalformedIdentifier and
    nothing else; on two valid identifiers it returns a number, which
    is zero when the two are the same text. *)
Theorem lamport_compare_raises_iff (a b : string) :
  (lamport_compare a b = inl MalformedIdentifier <->
   ~ valid a \/ ~ valid b) /\
  (forall e, lamport_compare a b = inl e -> e = MalformedIdentifier) /\
  (valid a -> valid b -> exists z, lamport_compare a b = inr z) /\
  (valid a -> lamport_compare a a = inr 0).
Proof.
  repeat split.
  - intros H. unfold lamport_compare in H.
    destruct (parse_op_id a) as [e|ta] eqn:A.
    + left. intros [t V]. congruence.
    + destruct (parse_op_id b) as [e|tb] eqn:B.
      * right. intros [t V]. congruence.
      * exfalso. repeat match type of H with
                 | (if ?c then _ else _) = _ => destruct c
                 end; discriminate.
  - intros [N|N]; unfold lamport_compare.
    + destruct (parse_op_id a) as [e|ta] eqn:A.
      * f_equal. eapply parse_op_id_inl. exact A.
      * exfalso. apply N. exists ta. exact A.
    + destruct (parse_op_id a) as [e|ta] eqn:A.
      * f_equal. eapply parse_op_id_inl. exact A.
      * destruct (parse_op_id b) as [e|tb] eqn:B.
        -- f_equal. eapply parse_op_id_inl. exact B.
        -- exfalso. apply N. exists tb. exact B.
  - apply lamport_compare_inl.
  - intros [ta A] [tb B]. eexists. apply lamport_compare_parsed; eassumption.
  - intros [ta A]. rewrite (lamport_compare_parsed _ _ _ _ A A).
    f_equal. apply compare_parsed_zero. auto.
Qed.

End IdentifierCoverage.

(** ** The sort of the candidates *)

Module SortCoverage.
Import Lamport LamportOrder LamportFacts SortFacts Coverage.

(** X4: the sort of the OperationIds of a conflict set succeeds exactly
    when there are fewer than two of them or all are valid identifiers:
    a single candidate is never parsed, so that a malformed OperationId
    goes unnoticed when it stands alone.  When the sort fails it raises
    MalformedIdentifier; when it succeeds its result is a permutation of
    the OperationIds. *)
Theorem sort_op_ids_raises_iff (ids : list string) :
  ((exists s, sort_op_ids ids = inr s) <->
   (List.length ids <= 1)%nat \/ Forall valid ids) /\
  (forall e, sort_op_ids ids = inl e -> e = MalformedIdentifier) /\
  (forall s, sort_op_ids ids = inr s -> Permutation ids s).
Proof.
  split; [apply sort_op_ids_succeeds|]. split.
  - intros e. apply sort_op_ids_inl.
  - intros s. apply sort_op_ids_perm.
Qed.

Lemma compare_parsed_le_trans (t1 t2 t3 : OpId) :
  compare_parsed t1 t2 <= 0 -> compare_parsed t2 t3 <= 0 ->
  compare_parsed t1 t3 <= 0.
Proof.
  intros A B.
  destruct (Z.eq_dec (compare_parsed t1 t2) 0) as [E|N].
  - apply compare_parsed_zero in E. destruct E as [E1 E2].
    destruct t1, t2. cbn in E1, E2. subst. exact B.
  - destruct (Z.eq_dec (compare_parsed t2 t3) 0) as [E|N'].
    + apply compare_parsed_zero in E. destruct E as [E1 E2].
      destruct t2, t3. cbn in E1, E2. subst. exact A.
    + assert (compare_parsed t1 t3 < 0); [|lia].
      eapply compare_parsed_trans with t2; lia.
Qed.

Lemma le_trans (a b c : string) : le a b -> le b c -> le a c.
Proof.
  intros (z & H & Hz) (z' & H' & Hz').
  destruct (lamport_compare_inr _ _ _ H) as (ta & tb & A & B & ->).
  destruct (lamport_compare_inr _ _ _ H') as (tb' & tc & B' & C & ->).
  rewrite B in B'. inversion B'; subst tb'.
  exists (compare_parsed ta tc). split.
  - apply lamport_compare_parsed; assumption.
  - eapply compare_parsed_le_trans; eassumption.
Qed.

Lemma insert_sorted_le (x : string) (s s' : list string) :
  insert_sorted x s = inr s' -> StronglySorted le s -> StronglySorted le s'.
Proof.
  revert s'. induction s as [|y s IH]; intros s' H Hs; cbn in H.
  - inversion H; subst. constructor; constructor.
  - destruct (lamport_compare y x) as [e|c] eqn:C; cbn in H; [discriminate|].
    apply StronglySorted_inv in Hs. destruct Hs as [Hs Hy].
    destruct (Z.ltb_spec c 0) as [L|G].
    + destruct (insert_sorted x s) as [e|s1] eqn:I; cbn in H; [discriminate|].
      inversion H; subst s'. constructor; [apply IH; trivial|].
      eapply Permutation_Forall; [apply insert_sorted_perm; exact I|].
      constructor; [exists c; split; [exact C|lia]|exact Hy].
    + inversion H; subst s'.
      assert (Hxy : le x y).
      { destruct (lamport_compare_inr _ _ _ C) as (ty & tx & Y & X & ->).
        exists (compare_parsed tx ty). split.
        - apply lamport_compare_parsed; assumption.
        - rewrite compare_parsed_opp. lia. }
      constructor; [constructor; assumption|].
      constructor; [exact Hxy|].
      eapply Forall_impl; [|exact Hy]. intros z Hz. eapply le_trans; eassumption.
Qed.

Lemma sort_op_ids_le (l s : list string) :
  sort_op_ids l = inr s -> StronglySorted le s.
Proof.
  revert s. induction l as [|x l IH]; intros s H; cbn in H.
  - inversion H. constructor.
  - destruct (sort_op_ids l) as [e|s1] eqn:E; cbn in H; [discriminate|].
    eapply insert_sorted_le; [exact H|]. apply IH. reflexivity.
Qed.

Lemma sorted_le_last (r : list string) (w : string) :
  StronglySorted le (r ++ [w]) -> forall y, In y r -> le y w.
Proof.
  induction r as [|a r IH]; cbn; intros Hs y Hy; [contradiction|].
  apply StronglySorted_inv in Hs. destruct Hs as [Hs Ha].
  destruct Hy as [->|Hy].
  - rewrite Forall_forall in Ha. apply Ha. apply in_or_app. right. left.
    reflexivity.
  - apply IH; assumption.
Qed.

(** X5: tied or not, the OperationId that comes first once the sorted
    list is reversed, whose value becomes the visible one, is one of the
    candidates and no candidate is Lamport-greater than it. *)
Theorem winner_is_maximal (ids sorted rest : list string) (winner : string) :
  sort_op_ids ids = inr sorted -> rev sorted = winner :: rest ->
  In winner ids /\ forall id, In id ids -> ~ gt id winner.
Proof.
  intros S R.
  assert (E : sorted = rev rest ++ [winner]).
  { rewrite <- (rev_involutive sorted), R. reflexivity. }
  pose proof (sort_op_ids_perm _ _ S) as P.
  pose proof (sort_op_ids_le _ _ S) as L. rewrite E in L.
  split.
  - eapply Permutation_in; [apply Permutation_sym; exact P|].
    rewrite E. apply in_or_app. right. left. reflexivity.
  - intros id I (z & Hc & Hz).
    assert (I' : In id (rev rest ++ [winner])).
    { rewrite <- E. eapply Permutation_in; [exact P|exact I]. }
    apply in_app_or in I'. destruct I' as [I'|[<-|[]]].
    + destruct (sorted_le_last _ _ L id I') as (z' & Hc' & Hz').
      rewrite Hc in Hc'. inversion Hc'. lia.
    + destruct (lamport_compare_inr _ _ _ Hc) as (ta & tb & A & B & ->).
      rewrite A in B. inversion B; subst tb.
      assert (compare_parsed ta ta = 0) by (apply compare_parsed_zero; auto).
      lia.
Qed.

Lemma winner_is_maximal_witness :
  In "05@A" ["5@A"; "3@B"; "05@A"] /\ ~ gt "5@A" "05@A".
Proof.
  destruct (winner_is_maximal ["5@A"; "3@B"; "05@A"]
              ["3@B"; "5@A"; "05@A"] ["5@A"; "3@B"] "05@A"
              eq_refl eq_refl) as [I G].
  split; [exact I|]. apply G. left. reflexivity.
Defined.

End SortCoverage.

(** ** What a call leaves of the store *)

Module StoreCoverage.
Import Store StoreFacts Build Depth LockStepFacts ContainerFacts EditFacts.

(** X6: whether it returns or raises, [apply_patch] never removes a
    container from the store and never changes the objectId or the
    class of one: the store only grows, every container stays at its
    location as a map or as a list, under the objectId it had. *)
Theorem apply_patch_keeps_containers (depth : nat) (obj : value) (p : patch)
    (h h' : heap) (r : result value) :
  apply_patch depth obj p h = (h', r) ->
  (List.length h <= List.length h')%nat /\
  forall l c, heap_get h l = Some c ->
    exists c', heap_get h' l = Some c' /\
               object_id c' = object_id c /\
               recent_ops_is_dict c' = recent_ops_is_dict c.
Proof.
  intros H. pose proof (preserves_apply_patch _ _ _ _ _ _ H) as E. split.
  - destruct (List.length h) as [|n] eqn:L; [lia|].
    destruct (nth_error h n) as [c|] eqn:G.
    + destruct (E n c G) as (c' & G' & _). apply heap_get_lt in G'. lia.
    + apply nth_error_None in G. lia.
  - intros l c G. destruct (E l c G) as (c' & G' & S1 & S2). eauto.
Qed.

Lemma apply_patch_keeps_containers_witness :
  exists c',
    heap_get
      (fst (apply_patch 3 (VRef 0%nat)
              (map_patch "root" [(KStr "x", [("2@A", map_patch "o2" [])])])
              [root_with_child; child_o1])) 1%nat = Some c' /\
    object_id c' = "o1".
Proof.
  destruct (apply_patch_keeps_containers 3 (VRef 0%nat)
              (map_patch "root" [(KStr "x", [("2@A", map_patch "o2" [])])])
              [root_with_child; child_o1] _ _
              (surjective_pairing _)) as [_ H].
  destruct (H 1%nat child_o1 eq_refl) as (c' & G & I & _).
  exists c'. split; [exact G|exact I].
Defined.

Lemma well_slotted_leaf (v : prim) : well_slotted (leaf v).
Proof.
  constructor.
  - intros slots k cands E. discriminate.
  - intros sub (slots & k & cands & id & E & _). discriminate.
Qed.

(** X7: on a store whose lists are all in lock-step, a patch in which
    no conflict set is empty, at any level of nesting, leaves all lists
    in lock-step: the values, the elemIds and the conflict history of
    every list have one length when [apply_patch] returns, and also
    when it raises. *)
Theorem patch_without_empty_slots_keeps_lock_step (depth : nat) (obj : value)
    (p : patch) (h h' : heap) (r : result value) :
  well_slotted p -> all_lock_step h ->
  apply_patch depth obj p h = (h', r) -> all_lock_step h'.
Proof.
  intros W I H. eapply apply_patch_keeps_lock_step; eassumption.
Qed.

Lemma patch_without_empty_slots_keeps_lock_step_witness :
  all_lock_step
    (fst (apply_patch 2 (VRef 0%nat)
            (list_patch "l" [(KInt 0, [("1@A", leaf (PStr "hello"))])]
                        [mkEdit "insert" 0 (Some "1@A")])
            [List_empty "l"])).
Proof.
  eapply (patch_without_empty_slots_keeps_lock_step 2 (VRef 0%nat)
            (list_patch "l" [(KInt 0, [("1@A", leaf (PStr "hello"))])]
                        [mkEdit "insert" 0 (Some "1@A")])
            [List_empty "l"]).
  - constructor.
    + intros slots k cands E I. inversion E; subst.
      destruct I as [I|[]]. inversion I. discriminate.
    + intros sub (slots & k & cands & id & E & I & J).
      inversion E; subst. destruct I as [I|[]]. inversion I; subst.
      destruct J as [J|[]]. inversion J. apply well_slotted_leaf.
  - intros l c G. destruct l as [|[|l]]; cbn in G; inversion G.
    cbn. auto.
  - apply surjective_pairing.
Defined.

(** X8: on a list in lock-step, an edit that raises has changed
    nothing.  A remove whose index is out of range fails on the first
    of its three deletions, and an insert without elemId fails before
    its first insertion; no edit stops half-way. *)
Theorem failing_edit_changes_nothing (l : loc) (c : container) (e : edit)
    (h h' : heap) (err : exn) :
  heap_get h l = Some c -> lock_step c ->
  apply_edit (VRef l) e h = (h', inl err) -> h' = h.
Proof.
  intros G L. unfold apply_edit, lock_step in *.
  destruct c as [oid fr [items ro|items ids ro]]; cbn in L.
  - destruct (String.eqb (action e) "insert").
    + destruct (elemId e) as [x|]; cbn; intros H.
      * rewrite (bind_raise _ _ _ _ _
                   (update_fail l _ AttributeError _ h G eq_refl)) in H.
        inversion H. reflexivity.
      * inversion H. reflexivity.
    + destruct (String.eqb (action e) "remove"); intros H.
      * rewrite (bind_raise _ _ _ _ _
                   (update_fail l _ AttributeError _ h G eq_refl)) in H.
        inversion H. reflexivity.
      * inversion H.
  - destruct L as [L1 L2].
    destruct (String.eqb (action e) "insert").
    + destruct (elemId e) as [x|]; cbn; intros H.
      * erewrite bind_ok in H by (eapply update_ok; [exact G|reflexivity]).
        erewrite bind_ok in H
          by (eapply update_ok; [eapply heap_get_set_same; exact G|reflexivity]).
        erewrite update_ok in H
          by (try (eapply heap_get_set_same; eapply heap_get_set_same; exact G);
              reflexivity).
        inversion H.
      * inversion H. reflexivity.
    + destruct (String.eqb (action e) "remove"); intros H.
      * destruct (PyList.delitem ids (index e)) as [ids'|] eqn:D.
        -- destruct (delitem_same_length _ _ items _ D L1) as [items' Di].
           destruct (delitem_same_length _ _ ro _ D (eq_sym L2)) as [ro' Dr].
           erewrite bind_ok in H
             by (eapply update_ok;
                 [exact G|apply elem_ids_delitem_list; exact D]).
           erewrite bind_ok in H
             by (eapply update_ok;
                 [eapply heap_get_set_same; exact G
                 |apply delitem_list; exact Di]).
           erewrite update_ok in H
             by (try (eapply heap_get_set_same; eapply heap_get_set_same;
                      exact G);
                 apply recent_ops_delitem_list; exact Dr).
           inversion H.
        -- rewrite (bind_raise _ _ _ _ _
                      (update_fail l _ IndexError _ h G
                         (elem_ids_delitem_list_fail _ _ _ _ _ _ D))) in H.
           inversion H. reflexivity.
      * inversion H.
Qed.

Lemma failing_edit_changes_nothing_witness :
  fst (apply_edit (VRef 0%nat) (mkEdit "remove" 1 None) [Samples.list_ten]) =
  [Samples.list_ten].
Proof.
  apply (failing_edit_changes_nothing 0%nat Samples.list_ten
           (mkEdit "remove" 1 None) [Samples.list_ten] _ IndexError eq_refl
           (conj eq_refl eq_refl)).
  reflexivity.
Defined.

(** X9: on a map that does not hold the key, the empty conflict set
    raises KeyError and changes nothing: the deletion is no no-op on a
    key that is absent. *)
Theorem empty_conflict_set_missing_key_raises
    (rec : value -> patch -> M value) (l : loc) (oid : string) (fr : bool)
    (items : dict key value) (ro : dict key ops) (k : key) (h : heap) :
  heap_get h l = Some (mkContainer oid fr (MapBody items ro)) ->
  dict_mem key_eqb k items = false ->
  apply_properties_slot rec (VRef l) k [] h = (h, inl KeyError).
Proof.
  intros G M. unfold apply_properties_slot.
  erewrite bind_ok by reflexivity. cbn [rev].
  erewrite bind_ok by reflexivity.
  erewrite bind_raise; [reflexivity|].
  eapply update_fail; [exact G|]. unfold delitem. cbn [contents].
  assert (D : dict_del key_eqb k items = None).
  { clear G. unfold dict_mem in M.
    induction items as [|[k' v'] items IH]; cbn in *; [reflexivity|].
    destruct (key_eqb k' k); [discriminate|]. rewrite (IH M). reflexivity. }
  rewrite D. reflexivity.
Qed.

Lemma empty_conflict_set_missing_key_raises_witness :
  apply_properties_slot (apply_patch 1) (VRef 0%nat) (KStr "y") [] [root_x10] =
  ([root_x10], inl KeyError).
Proof.
  apply (empty_conflict_set_missing_key_raises (apply_patch 1) 0%nat "root"
           true [(KStr "x", VPrim (PInt 10))]
           [(KStr "x", [("3@A", VPrim (PInt 10))])] (KStr "y") [root_x10]);
    reflexivity.
Defined.

Lemma empty_conflict_set_deletes_map_key_witness :
  exists items' ro',
    apply_properties_slot (apply_patch 1) (VRef 0%nat) (KStr "x") []
      [root_x10] =
      (heap_set [root_x10] 0%nat
         (mkContainer "root" true (MapBody items' ro')), inr tt) /\
    dict_get key_eqb (KStr "x") items' = None.
Proof.
  destruct (empty_conflict_set_deletes_map_key (apply_patch 1) 0%nat "root"
              true [(KStr "x", VPrim (PInt 10))]
              [(KStr "x", [("3@A", VPrim (PInt 10))])] (KStr "x") [root_x10]
              eq_refl eq_refl eq_refl)
    as (items' & ro' & E & I & _).
  - repeat constructor. intros [].
  - repeat constructor. intros [].
  - exists items', ro'. split; [exact E|exact I].
Defined.

End StoreCoverage.

(** ** Slots whose candidates are leaves *)

Module FlatCoverage.
Import Store Build Coverage FlatMerge ContainerFacts EditFacts DepthFacts.

Lemma read_ok {A} (l : loc) (c : container) (f : container -> result A)
    (h : heap) :
  heap_get h l = Some c -> read (VRef l) f h = (h, f c).
Proof.
  intros G. unfold read. rewrite (bind_ok _ _ _ _ _ (deref_ok _ _ _ G)).
  reflexivity.
Qed.

Section Flat.
Variable rec : value -> patch -> M value.

Lemma get_value_leaf (conflict : value) (sp : patch) (h : heap) :
  p_objectId sp = None -> get_value rec conflict sp h = (h, leaf_value sp).
Proof.
  intros E. unfold get_value, leaf_value. rewrite E.
  destruct (p_datatype sp), (p_value sp); reflexivity.
Qed.

(** On a map, a leaf candidate is materialized without any change of
    the store, and whatever the slot held before plays no part. *)
Lemma flat_materialize_candidate (l : loc) (c : container) (k : key)
    (cands : dict string patch) (values : ops) (id : string) (h : heap) :
  heap_get h l = Some c -> recent_ops_is_dict c = true -> flat cands ->
  materialize_candidate rec (VRef l) k cands values id h =
  (h, match dict_get String.eqb id cands with
      | None => inl KeyError
      | Some sp =>
          rbind (leaf_value sp)
                (fun v => inr (dict_set String.eqb id v values))
      end).
Proof.
  intros G Hm Hf. unfold materialize_candidate.
  destruct (dict_get String.eqb id cands) as [sp|] eqn:E; [|reflexivity].
  assert (Ho : p_objectId sp = None).
  { eapply Hf. apply dict_get_in. exact E. }
  unfold read, bind, deref, lift_result, field, lift_opt, ret.
  rewrite G. cbn [snd]. unfold have_key_entry. rewrite Hm.
  assert (R : key_in_recent_ops k c = true ->
              exists known, rbind (recent_ops_getitem k c) (ops_mem id) =
                            inr known /\
                (known = true ->
                 exists old, rbind (recent_ops_getitem k c) (ops_getitem id) =
                             inr old)).
  { unfold recent_ops_getitem, key_in_recent_ops, recent_ops_is_dict,
      ops_mem, ops_getitem, dict_mem, rbind in *.
    destruct (contents c); [|discriminate].
    destruct (dict_get key_eqb k recent_ops) as [d|]; [|discriminate].
    intros _. eexists. split; [reflexivity|].
    destruct (dict_get String.eqb id d); [eauto|discriminate]. }
  destruct (key_in_recent_ops k c).
  - rewrite G. cbn [snd]. destruct (R eq_refl) as (known & -> & Hold).
    destruct known.
    + rewrite G. cbn [snd]. destruct (Hold eq_refl) as (old & ->).
      rewrite (get_value_leaf old sp h Ho).
      destruct (leaf_value sp); reflexivity.
    + rewrite Ho, (get_value_leaf VNone sp h Ho).
      destruct (leaf_value sp); reflexivity.
  - rewrite Ho, (get_value_leaf VNone sp h Ho).
    destruct (leaf_value sp); reflexivity.
Qed.

Lemma flat_materialize_candidates (l : loc) (c : container) (k : key)
    (cands : dict string patch) (ids : list string) (values : ops)
    (h : heap) :
  heap_get h l = Some c -> recent_ops_is_dict c = true -> flat cands ->
  materialize_candidates rec (VRef l) k cands values ids h =
  (h, leaf_values cands values ids).
Proof.
  intros G Hm Hf. revert values.
  induction ids as [|id ids IH]; intros values; cbn; [reflexivity|].
  unfold bind. rewrite (flat_materialize_candidate l c k cands values id h G Hm Hf).
  destruct (dict_get String.eqb id cands) as [sp|]; [|reflexivity].
  destruct (leaf_value sp) as [e|v]; cbn; [reflexivity|apply IH].
Qed.

Lemma merged_map (c : container) (k : key) (v : value) (values : ops) :
  recent_ops_is_dict c = true ->
  rbind (setitem k v c) (recent_ops_setitem k values) =
  inr (merged c k v values).
Proof.
  unfold recent_ops_is_dict, setitem, recent_ops_setitem, merged.
  destruct (contents c); [reflexivity|discriminate].
Qed.

(** On a map, the merge of a slot whose conflict set is not empty and
    holds only leaves is a function of the conflict set and of the map
    alone: the dispatcher is not called, no other container of the
    store is touched, and when the sort or a leaf raises, the store is
    left as it was. *)
Lemma flat_slot_on_map (l : loc) (c : container) (k : key)
    (cands : dict string patch) (h : heap) :
  heap_get h l = Some c -> recent_ops_is_dict c = true ->
  flat cands -> cands <> [] ->
  apply_properties_slot rec (VRef l) k cands h =
  match flat_outcome cands with
  | inr (v, values) => (heap_set h l (merged c k v values), inr tt)
  | inl e => (h, inl e)
  end.
Proof.
  intros G Hm Hf Hne. unfold apply_properties_slot, flat_outcome.
  unfold bind at 1. unfold lift_result.
  destruct (sort_op_ids (dict_keys cands)) as [e|sorted] eqn:S;
    [reflexivity|]. cbn [rbind].
  unfold bind at 1.
  rewrite (flat_materialize_candidates l c k cands (rev sorted) [] h G Hm Hf).
  destruct (leaf_values cands [] (rev sorted)) as [e|values];
    [reflexivity|]. cbn [rbind].
  destruct (rev sorted) as [|winner rest] eqn:R.
  { exfalso. apply Hne.
    pose proof (SortFacts.sort_op_ids_length _ _ S) as L.
    rewrite <- length_rev, R in L. unfold dict_keys in L.
    rewrite length_map in L. destruct cands; [reflexivity|discriminate]. }
  destruct (dict_get String.eqb winner values) as [v|]; [|reflexivity].
  cbn [field lift_opt]. rewrite (bind_ok _ _ h h v eq_refl).
  pose proof (merged_map c k v values Hm) as M.
  destruct (setitem k v c) as [e|c1] eqn:S1; [discriminate|]. cbn in M.
  erewrite bind_ok by (eapply update_ok; [exact G|exact S1]).
  erewrite update_ok
    by (try (eapply heap_get_set_same; exact G); exact M).
  rewrite heap_set_set. reflexivity.
Qed.

End Flat.

(** X11: on a map, a leaf candidate that stands alone in its conflict
    set is written as it is: the slot shows its value and remembers
    that one candidate, and its OperationId is never parsed, so that any
    text serves, a malformed one too. *)
Theorem lone_leaf_candidate_is_written (rec : value -> patch -> M value)
    (l : loc) (c : container) (k : key) (id : string) (sp : patch)
    (v : value) (h : heap) :
  heap_get h l = Some c -> recent_ops_is_dict c = true ->
  p_objectId sp = None -> leaf_value sp = inr v ->
  apply_properties_slot rec (VRef l) k [(id, sp)] h =
  (heap_set h l (merged c k v [(id, v)]), inr tt).
Proof.
  intros G Hm Ho Hv.
  rewrite (flat_slot_on_map rec l c k [(id, sp)] h G Hm).
  - unfold flat_outcome.
    cbn [dict_keys map fst sort_op_ids rbind insert_sorted rev app
         leaf_values dict_get].
    rewrite String.eqb_refl, Hv. cbn [rbind leaf_values dict_set dict_get].
    rewrite String.eqb_refl. reflexivity.
  - intros id' sp' [E|[]]. inversion E; subst. exact Ho.
  - discriminate.
Qed.

Lemma lone_leaf_candidate_is_written_witness :
  apply_properties_slot (apply_patch 0) (VRef 0%nat) (KStr "x")
    [("no identifier", leaf (PInt 10))] [Map_empty "root"] =
  ([mkContainer "root" true
      (MapBody [(KStr "x", VPrim (PInt 10))]
               [(KStr "x", [("no identifier", VPrim (PInt 10))])])],
   inr tt).
Proof.
  apply (lone_leaf_candidate_is_written (apply_patch 0) 0%nat
           (Map_empty "root") (KStr "x") "no identifier" (leaf (PInt 10))
           (VPrim (PInt 10)) [Map_empty "root"]); reflexivity.
Defined.

Section DictSet.
Context {K V : Type} (eqb : K -> K -> bool).
Hypothesis eqb_spec : forall a b, reflect (a = b) (eqb a b).

Lemma dict_set_noop (k : K) (v : V) (d : dict K V) :
  dict_get eqb k d = Some v -> dict_set eqb k v d = d.
Proof.
  induction d as [|[k' v'] d IH]; cbn; [discriminate|].
  destruct (eqb_spec k' k) as [E|N]; intros H.
  - inversion H; subst. reflexivity.
  - rewrite (IH H). reflexivity.
Qed.

End DictSet.

Lemma heap_set_same (h : heap) (l : loc) (c : container) :
  heap_get h l = Some c -> heap_set h l c = h.
Proof.
  unfold heap_get. revert l. induction h as [|x h IH]; intros [|l] H; cbn in *;
    try discriminate.
  - inversion H. reflexivity.
  - rewrite (IH l H). reflexivity.
Qed.

Import FlatProps.

Lemma merged_settled (c : container) (k : key) (v : value) (values : ops) :
  recent_ops_is_dict c = true -> settled (merged c k v values) k v values.
Proof.
  unfold recent_ops_is_dict, settled, merged, getitem, recent_ops_getitem.
  destruct (contents c); [|discriminate]. intros _. cbn.
  rewrite !dict_get_set_same by apply key_eqb_spec. auto.
Qed.

Lemma merged_other (c : container) (k k' : key) (v : value) (values : ops) :
  k <> k' ->
  getitem k' (merged c k v values) = getitem k' c /\
  recent_ops_getitem k' (merged c k v values) = recent_ops_getitem k' c.
Proof.
  intros N. unfold merged, getitem, recent_ops_getitem.
  destruct (contents c) eqn:E; cbn; rewrite ?E; [|auto].
  rewrite !dict_get_set_other by (apply key_eqb_spec || exact N). auto.
Qed.

Lemma merged_noop (c : container) (k : key) (v : value) (values : ops) :
  recent_ops_is_dict c = true -> settled c k v values ->
  merged c k v values = c.
Proof.
  unfold recent_ops_is_dict, settled, merged, getitem, recent_ops_getitem.
  destruct c as [oid fr [items ro|items ids ro]]; cbn; [|discriminate].
  intros _ [A B].
  rewrite (dict_set_noop key_eqb key_eqb_spec k v items A).
  destruct (dict_get key_eqb k ro) as [d|] eqn:D; [|discriminate].
  inversion B; subst d.
  rewrite (dict_set_noop key_eqb key_eqb_spec k values ro D). reflexivity.
Qed.

Lemma merged_identity (c : container) (k : key) (v : value) (values : ops) :
  recent_ops_is_dict (merged c k v values) = recent_ops_is_dict c /\
  _frozen (merged c k v values) = _frozen c /\
  object_id (merged c k v values) = object_id c.
Proof.
  unfold merged, recent_ops_is_dict.
  destruct (contents c) eqn:E; cbn; rewrite ?E; auto.
Qed.

Section Passes.
Variable rec : value -> patch -> M value.
Variable l : loc.

(** One pass over flat props, on a map: what it leaves. *)
Lemma flat_pass (props : dict key (dict string patch)) :
  forall (h h1 : heap) (c : container),
  heap_get h l = Some c -> recent_ops_is_dict c = true ->
  flat_props props ->
  for_each
    (fun kv : key * dict string patch =>
       apply_properties_slot rec (VRef l) (fst kv) (snd kv)) props h = (h1, inr tt) ->
  exists c1,
    heap_get h1 l = Some c1 /\ recent_ops_is_dict c1 = true /\
    _frozen c1 = _frozen c /\ object_id c1 = object_id c /\
    (forall l', l' <> l -> heap_get h1 l' = heap_get h l') /\
    (forall k', ~ In k' (dict_keys props) ->
       getitem k' c1 = getitem k' c /\
       recent_ops_getitem k' c1 = recent_ops_getitem k' c) /\
    (NoDup (dict_keys props) ->
     forall k cands, In (k, cands) props ->
       exists v values,
         flat_outcome cands = inr (v, values) /\ settled c1 k v values).
Proof.
  induction props as [|[k cands] props IH]; intros h h1 c G Hm Hf H.
  - cbn in H. inversion H; subst. exists c. repeat split; auto.
    intros _ k cands [].
  - cbn [for_each fst snd] in H.
    apply bind_inr in H. destruct H as (h2 & [] & S & H).
    destruct (Hf k cands (or_introl eq_refl)) as [Fc Nc].
    rewrite (flat_slot_on_map rec l c k cands h G Hm Fc Nc) in S.
    destruct (flat_outcome cands) as [e|[v values]] eqn:O; [discriminate|].
    inversion S; subst h2; clear S.
    destruct (merged_identity c k v values) as (I1 & I2 & I3).
    destruct (IH (heap_set h l (merged c k v values)) h1 (merged c k v values))
      as (c1 & G1 & M1 & F1 & O1 & Fr & Ot & St).
    + eapply heap_get_set_same. exact G.
    + rewrite I1. exact Hm.
    + intros k0 c0 I. apply (Hf k0 c0). right. exact I.
    + exact H.
    + exists c1. split; [exact G1|]. split; [exact M1|].
      split; [congruence|]. split; [congruence|]. split; [|split].
      * intros l' N. rewrite (Fr l' N). apply heap_get_set_other. congruence.
      * intros k' N. cbn in N.
        destruct (Ot k') as [A B]; [intros I; apply N; right; exact I|].
        destruct (merged_other c k k' v values) as [A' B'];
          [intros E; apply N; left; exact E|].
        split; congruence.
      * intros Hn k0 c0 I. cbn in Hn. inversion Hn; subst.
        destruct I as [I|I].
        -- inversion I; subst. exists v, values. split; [exact O|].
           destruct (Ot k0 H2) as [A B].
           destruct (merged_settled c k0 v values Hm) as [A' B'].
           split; congruence.
        -- apply St; assumption.
Qed.

(** A pass over flat props whose slots are settled changes nothing. *)
Lemma flat_pass_settled (props : dict key (dict string patch)) (h : heap)
    (c : container) :
  heap_get h l = Some c -> recent_ops_is_dict c = true ->
  flat_props props ->
  (forall k cands, In (k, cands) props ->
     exists v values,
       flat_outcome cands = inr (v, values) /\ settled c k v values) ->
  for_each
    (fun kv : key * dict string patch =>
       apply_properties_slot rec (VRef l) (fst kv) (snd kv)) props h = (h, inr tt).
Proof.
  intros G Hm. induction props as [|[k cands] props IH]; intros Hf Hs.
  - reflexivity.
  - cbn [for_each fst snd].
    destruct (Hf k cands (or_introl eq_refl)) as [Fc Nc].
    destruct (Hs k cands (or_introl eq_refl)) as (v & values & O & St).
    erewrite bind_ok.
    2:{ rewrite (flat_slot_on_map rec l c k cands h G Hm Fc Nc), O.
        rewrite (merged_noop c k v values Hm St), (heap_set_same h l c G).
        reflexivity. }
    apply IH.
    + intros k0 c0 I. apply (Hf k0 c0). right. exact I.
    + intros k0 c0 I. apply (Hs k0 c0). right. exact I.
Qed.

End Passes.

Import Guard.

(** How a map patch runs on a container: the flag is opened, the props
    are merged, the flag is closed. *)
Lemma map_patch_run (d : nat) (l : loc) (c : container) (p : patch)
    (props : dict key (dict string patch)) (h : heap) :
  heap_get h l = Some c -> p_type p = Some "map" -> p_props p = Some props ->
  apply_patch (S d) (VRef l) p h =
  match for_each
          (fun kv : key * dict string patch =>
             apply_properties_slot (apply_patch d) (VRef l) (fst kv) (snd kv))
          props (heap_set h l (with_frozen c false)) with
  | (h2, inr _) =>
      match heap_get h2 l with
      | Some c2 => (heap_set h2 l (with_frozen c2 true), inr (VRef l))
      | None => (h2, inl AttributeError)
      end
  | (h2, inl e) => (h2, inl e)
  end.
Proof.
  intros G Ht Hp. cbn [apply_patch]. unfold apply_patch_body.
  cbn [is_not_none]. rewrite Hp, Ht. cbn [has_field negb andb field lift_opt].
  rewrite (bind_ok _ _ _ _ _ (set_frozen_ok l c false h G)). cbv beta.
  assert (Gf : heap_get (heap_set h l (with_frozen c false)) l =
               Some (with_frozen c false))
    by (eapply heap_get_set_same; exact G).
  fold (with_frozen c false).
  unfold apply_properties, bind, ret.
  cbn [String.eqb Ascii.eqb Bool.eqb].
  rewrite (deref_ok _ _ _ Gf).
  destruct (for_each _ props (heap_set h l (with_frozen c false)))
    as [h2 [e|[]]]; [reflexivity|].
  unfold set_frozen, bind, deref, store, ret, with_frozen.
  destruct (heap_get h2 l); reflexivity.
Qed.

Lemma with_frozen_same (c : container) :
  with_frozen c (_frozen c) = c.
Proof. destruct c. reflexivity. Qed.

Lemma with_frozen_twice (c : container) (b b' : bool) :
  with_frozen (with_frozen c b) b' = with_frozen c b'.
Proof. reflexivity. Qed.

(** X12: a map patch whose conflict sets hold candidates, all of them
    leaves, under keys that differ, can be applied again to the map it
    was applied to: when the first call has returned, a second call
    with the same patch returns too and leaves the store exactly as the
    first one left it. *)
Theorem flat_map_patch_idempotent (depth depth' : nat) (l : loc)
    (c : container) (p : patch) (props : dict key (dict string patch))
    (h h1 : heap) (v : value) :
  heap_get h l = Some c -> recent_ops_is_dict c = true ->
  p_type p = Some "map" -> p_props p = Some props ->
  flat_props props -> NoDup (dict_keys props) ->
  apply_patch depth (VRef l) p h = (h1, inr v) ->
  apply_patch (S depth') (VRef l) p h1 = (h1, inr v).
Proof.
  intros G Hm Ht Hp Hf Hn H.
  destruct depth as [|d]; [discriminate|].
  rewrite (map_patch_run d l c p props h G Ht Hp) in H.
  assert (Gf : heap_get (heap_set h l (with_frozen c false)) l =
               Some (with_frozen c false))
    by (eapply heap_get_set_same; exact G).
  destruct (for_each _ props (heap_set h l (with_frozen c false)))
    as [h2 [e|[]]] eqn:P; [discriminate|].
  destruct (flat_pass (apply_patch d) l props _ _ _ Gf Hm Hf P)
    as (c1 & G1 & M1 & F1 & _ & _ & _ & St).
  rewrite G1 in H. inversion H; subst h1 v; clear H.
  assert (G2 : heap_get (heap_set h2 l (with_frozen c1 true)) l =
               Some (with_frozen c1 true))
    by (eapply heap_get_set_same; exact G1).
  rewrite (map_patch_run depth' l _ p props _ G2 Ht Hp).
  rewrite with_frozen_twice, heap_set_set.
  assert (E : with_frozen c1 false = c1).
  { rewrite <- (with_frozen_same c1) at 2. rewrite F1. reflexivity. }
  rewrite E, (heap_set_same h2 l c1 G1).
  rewrite (flat_pass_settled (apply_patch depth') l props h2 c1 G1 M1 Hf
             (St Hn)).
  rewrite G1. reflexivity.
Qed.

Lemma flat_map_patch_idempotent_witness :
  apply_patch 1 (VRef 0%nat)
    (map_patch "root"
       [(KStr "x", [("3@A", leaf (PInt 10)); ("4@B", leaf (PInt 20))])])
    (fst (apply_patch 1 (VRef 0%nat)
            (map_patch "root"
               [(KStr "x", [("3@A", leaf (PInt 10));
                            ("4@B", leaf (PInt 20))])])
            [root_x10])) =
  apply_patch 1 (VRef 0%nat)
    (map_patch "root"
       [(KStr "x", [("3@A", leaf (PInt 10)); ("4@B", leaf (PInt 20))])])
    [root_x10].
Proof.
  rewrite (flat_map_patch_idempotent 1 0 0%nat root_x10
             (map_patch "root"
                [(KStr "x", [("3@A", leaf (PInt 10));
                             ("4@B", leaf (PInt 20))])])
             [(KStr "x", [("3@A", leaf (PInt 10)); ("4@B", leaf (PInt 20))])]
             [root_x10] _ (VRef 0%nat) eq_refl eq_refl eq_refl eq_refl).
  - reflexivity.
  - intros k cands [E|[]]. inversion E; subst. split; [|discriminate].
    intros id sp [I|[I|[]]]; inversion I; reflexivity.
  - repeat constructor. intros [].
  - reflexivity.
Defined.

(** X13: such a patch changes nothing but the slots it names in the map
    it is applied to: when the call has returned, every other container
    of the store is as it was, and so are the value and the conflict
    history of every key of the map that the props do not mention. *)
Theorem flat_map_patch_frame (depth : nat) (l : loc) (c : container)
    (p : patch) (props : dict key (dict string patch)) (h h1 : heap)
    (v : value) :
  heap_get h l = Some c -> recent_ops_is_dict c = true ->
  p_type p = Some "map" -> p_props p = Some props -> flat_props props ->
  apply_patch depth (VRef l) p h = (h1, inr v) ->
  (forall l', l' <> l -> heap_get h1 l' = heap_get h l') /\
  exists c1,
    heap_get h1 l = Some c1 /\
    forall k', ~ In k' (dict_keys props) ->
      getitem k' c1 = getitem k' c /\
      recent_ops_getitem k' c1 = recent_ops_getitem k' c.
Proof.
  intros G Hm Ht Hp Hf H.
  destruct depth as [|d]; [discriminate|].
  rewrite (map_patch_run d l c p props h G Ht Hp) in H.
  assert (Gf : heap_get (heap_set h l (with_frozen c false)) l =
               Some (with_frozen c false))
    by (eapply heap_get_set_same; exact G).
  destruct (for_each _ props (heap_set h l (with_frozen c false)))
    as [h2 [e|[]]] eqn:P; [discriminate|].
  destruct (flat_pass (apply_patch d) l props _ _ _ Gf Hm Hf P)
    as (c1 & G1 & _ & _ & _ & Fr & Ot & _).
  rewrite G1 in H. inversion H; subst h1 v; clear H. split.
  - intros l' N. rewrite heap_get_set_other by congruence.
    rewrite (Fr l' N). apply heap_get_set_other. congruence.
  - exists (with_frozen c1 true). split.
    + eapply heap_get_set_same. exact G1.
    + intros k' N. destruct (Ot k' N) as [A B]. split.
      * exact A.
      * exact B.
Qed.

Lemma flat_map_patch_frame_witness :
  exists c1,
    heap_get
      (fst (apply_patch 1 (VRef 0%nat)
              (map_patch "root" [(KStr "y", [("5@A", leaf (PInt 7))])])
              [root_with_child; child_o1])) 0%nat = Some c1 /\
    getitem (KStr "x") c1 = Some (VRef 1%nat).
Proof.
  destruct (flat_map_patch_frame 1 0%nat root_with_child
              (map_patch "root" [(KStr "y", [("5@A", leaf (PInt 7))])])
              [(KStr "y", [("5@A", leaf (PInt 7))])]
              [root_with_child; child_o1]
              (fst (apply_patch 1 (VRef 0%nat)
                      (map_patch "root" [(KStr "y", [("5@A", leaf (PInt 7))])])
                      [root_with_child; child_o1]))
              (VRef 0%nat)
              eq_refl eq_refl eq_refl eq_refl) as (_ & c1 & G1 & K).
  - intros k cands [E|[]]. inversion E; subst. split; [|discriminate].
    intros id sp [I|[]]; inversion I; reflexivity.
  - reflexivity.
  - exists c1. split; [exact G1|].
    destruct (K (KStr "x")) as [A _].
    + cbn. intros [E|[]]. discriminate.
    + rewrite A. reflexivity.
Defined.

End FlatCoverage.

(** ** New objects and the guard *)

Module GuardCoverage.
Import Store StoreFacts Build Coverage Guard GuardProps MaterializerClaims.

(** X14: in a slot that has no conflict history yet, a candidate that
    carries an objectId is materialized into a container created on the
    spot, never into an existing one: when the materialization returns,
    the recorded value is the reference to the location that was the
    first free one, and the container there has the candidate's
    objectId and is a map when the candidate's type is map and a list
    for any other type. *)
Theorem new_object_is_allocated (depth : nat) (l : loc) (c : container)
    (k : key) (cands : dict string patch) (values values' : ops)
    (id : string) (sp : patch) (oid ty : string) (h h' : heap) :
  heap_get h l = Some c -> have_key_entry k c = inr false ->
  dict_get String.eqb id cands = Some sp ->
  p_objectId sp = Some oid -> p_type sp = Some ty ->
  materialize_candidate (apply_patch depth) (VRef l) k cands values id h =
    (h', inr values') ->
  values' = dict_set String.eqb id (VRef (List.length h)) values /\
  exists c', heap_get h' (List.length h) = Some c' /\
             object_id c' = oid /\
             recent_ops_is_dict c' = String.eqb ty "map".
Proof.
  intros G Hk Hd Ho Ht H.
  unfold materialize_candidate in H. rewrite Hd in H.
  unfold read, bind, deref, lift_result, field, lift_opt, ret, alloc in H.
  rewrite G in H. cbn [snd] in H. rewrite Hk, Ho, Ht in H.
  set (fresh := if String.eqb ty "map" then Map_empty oid else List_empty oid)
    in *.
  assert (Gn : heap_get (h ++ [fresh]) (List.length h) = Some fresh)
    by apply heap_get_alloc.
  assert (Io : object_id fresh = oid)
    by (subst fresh; destruct (String.eqb ty "map"); reflexivity).
  assert (E : get_value (apply_patch depth) (VRef (List.length h)) sp
                (h ++ [fresh]) =
              apply_patch depth (VRef (List.length h)) sp (h ++ [fresh])).
  { unfold get_value, get_object_id, bind, deref, ret. rewrite Ho.
    cbn [truthy]. rewrite Gn. cbn [snd]. rewrite Io, String.eqb_refl.
    reflexivity. }
  rewrite E in H.
  destruct (apply_patch depth (VRef (List.length h)) sp (h ++ [fresh]))
    as [h2 [e|v]] eqn:A; [discriminate|].
  inversion H; subst h2 values'; clear H.
  rewrite (apply_patch_returns_obj _ _ _ _ _ _ A). split; [reflexivity|].
  destruct (preserves_apply_patch _ _ _ _ _ _ A _ _ Gn) as (c' & G' & S1 & S2).
  exists c'. split; [exact G'|]. split; [congruence|].
  rewrite S2. subst fresh. destruct (String.eqb ty "map"); reflexivity.
Qed.

Lemma new_object_is_allocated_witness :
  exists c',
    heap_get
      (fst (materialize_candidate (apply_patch 2) (VRef 0%nat) (KStr "n")
              [("6@A", map_patch "o9" [(KStr "y", [("7@A", leaf (PInt 5))])])]
              [] "6@A" [root_x10])) 1%nat = Some c' /\
    object_id c' = "o9".
Proof.
  destruct (new_object_is_allocated 2 0%nat root_x10 (KStr "n")
              [("6@A", map_patch "o9" [(KStr "y", [("7@A", leaf (PInt 5))])])]
              [] [("6@A", VRef 1%nat)] "6@A"
              (map_patch "o9" [(KStr "y", [("7@A", leaf (PInt 5))])])
              "o9" "map" [root_x10]
              (fst (materialize_candidate (apply_patch 2) (VRef 0%nat)
                      (KStr "n")
                      [("6@A",
                        map_patch "o9" [(KStr "y", [("7@A", leaf (PInt 5))])])]
                      [] "6@A" [root_x10]))
              eq_refl eq_refl eq_refl eq_refl eq_refl eq_refl)
    as (_ & c' & G & I & _).
  exists c'. split; [exact G|exact I].
Defined.

(** *** The guard over the whole store *)

Lemma frozen_outside_weaken (l : loc) (open : list loc) (h : heap) :
  frozen_outside open h -> frozen_outside (l :: open) h.
Proof. intros I l0 c G N. apply (I l0 c G). intros F. apply N. now right. Qed.

Lemma frozen_outside_set (open : list loc) (h : heap) (l : loc)
    (c c' : container) :
  frozen_outside open h -> heap_get h l = Some c ->
  _frozen c' = _frozen c \/ _frozen c' = true \/ In l open ->
  frozen_outside open (heap_set h l c').
Proof.
  intros I G F l0 c0 G0 N. destruct (Nat.eq_dec l l0) as [<-|D].
  - rewrite (heap_get_set_same _ _ _ _ G) in G0. inversion G0; subst c0.
    destruct F as [F|[F|F]]; [|exact F|contradiction].
    rewrite F. exact (I l c G N).
  - rewrite heap_get_set_other in G0 by exact D. exact (I l0 c0 G0 N).
Qed.

Lemma frozen_outside_open (open : list loc) (h : heap) (l : loc)
    (c c' : container) :
  frozen_outside open h -> heap_get h l = Some c ->
  frozen_outside (l :: open) (heap_set h l c').
Proof.
  intros I G. eapply frozen_outside_set;
    [apply frozen_outside_weaken; exact I|exact G|].
  right. right. now left.
Qed.

Lemma frozen_outside_close (open : list loc) (h : heap) (l : loc)
    (c c' : container) :
  frozen_outside (l :: open) h -> heap_get h l = Some c ->
  _frozen c' = true -> frozen_outside open (heap_set h l c').
Proof.
  intros I G F l0 c0 G0 N. destruct (Nat.eq_dec l l0) as [<-|D].
  - rewrite (heap_get_set_same _ _ _ _ G) in G0. inversion G0; subst c0.
    exact F.
  - rewrite heap_get_set_other in G0 by exact D. apply (I l0 c0 G0).
    intros [E|E]; [exact (D E)|exact (N E)].
Qed.

Lemma frozen_outside_alloc (open : list loc) (h : heap) (c : container) :
  frozen_outside open h -> _frozen c = true -> frozen_outside open (h ++ [c]).
Proof.
  intros I F l0 c0 G0 N. unfold heap_get in G0.
  destruct (Nat.lt_ge_cases l0 (List.length h)) as [L|L].
  - rewrite nth_error_app1 in G0 by exact L. exact (I l0 c0 G0 N).
  - rewrite nth_error_app2 in G0 by exact L.
    destruct (l0 - List.length h)%nat as [|[|n]]; cbn in G0;
      try discriminate. inversion G0; subst c0. exact F.
Qed.

Section Steps.
Variable open : list loc.

Lemma stays_frozen_ret {A} (a : A) : stays_frozen open (ret a).
Proof. intros h h' r I H. inversion H; subst. exact I. Qed.

Lemma stays_frozen_raise {A} (e : exn) : stays_frozen open (@raise A e).
Proof. intros h h' r I H. discriminate. Qed.

Lemma stays_frozen_bind {A B} (c : M A) (k : A -> M B) :
  stays_frozen open c -> (forall a, stays_frozen open (k a)) ->
  stays_frozen open (bind c k).
Proof.
  intros Hc Hk h h' r I H. apply bind_inr in H.
  destruct H as (h1 & a & E & K).
  exact (Hk a h1 h' r (Hc h h1 a I E) K).
Qed.

Lemma stays_frozen_lift_result {A} (r : result A) :
  stays_frozen open (lift_result r).
Proof. intros h h' a I H. inversion H; subst. exact I. Qed.

Lemma stays_frozen_field {A} (o : option A) : stays_frozen open (field o).
Proof.
  destruct o; [apply stays_frozen_ret|apply stays_frozen_raise].
Qed.

Lemma stays_frozen_deref (obj : value) : stays_frozen open (deref obj).
Proof.
  intros h h' [l c] I H. apply deref_inr in H.
  destruct H as (_ & -> & _). exact I.
Qed.

Lemma stays_frozen_read {A} (obj : value) (f : container -> result A) :
  stays_frozen open (read obj f).
Proof.
  apply stays_frozen_bind; [apply stays_frozen_deref|].
  intros a. apply stays_frozen_lift_result.
Qed.

Lemma stays_frozen_alloc (c : container) :
  _frozen c = true -> stays_frozen open (alloc c).
Proof.
  intros F h h' a I H. inversion H; subst.
  apply frozen_outside_alloc; assumption.
Qed.

Lemma stays_frozen_update (obj : value) (f : container -> result container) :
  keeps_flag f -> stays_frozen open (update obj f).
Proof.
  intros Hf h h' r I H. unfold update in H.
  apply bind_inr in H. destruct H as (h1 & [l c] & E & K).
  apply deref_inr in E. destruct E as (-> & -> & G).
  destruct (f c) as [e|c'] eqn:F; cbn in K; [discriminate|].
  inversion K; subst. eapply frozen_outside_set; [exact I|exact G|].
  left. exact (Hf c c' F).
Qed.

Lemma stays_frozen_for_each {A} (f : A -> M unit) (xs : list A) :
  (forall x, stays_frozen open (f x)) -> stays_frozen open (for_each f xs).
Proof.
  intros Hf. induction xs as [|x xs IH]; cbn.
  - apply stays_frozen_ret.
  - apply stays_frozen_bind; [apply Hf|intros _; exact IH].
Qed.

End Steps.

(** No update the engine makes touches the frozen flag. *)
Ltac flag_step :=
  intros c c' H;
  unfold setitem, recent_ops_setitem, delitem, recent_ops_delitem,
    elem_ids_insert, list_insert, recent_ops_insert, elem_ids_delitem in H;
  destruct (contents c) eqn:E;
  repeat match type of H with
         | context [match ?x with _ => _ end] => destruct x
         end;
  inversion H; subst; reflexivity.

Lemma setitem_flag (k : key) (v : value) : keeps_flag (setitem k v).
Proof. flag_step. Qed.

Lemma recent_ops_setitem_flag (k : key) (d : ops) :
  keeps_flag (recent_ops_setitem k d).
Proof. flag_step. Qed.

Lemma delitem_flag (k : key) : keeps_flag (delitem k).
Proof. flag_step. Qed.

Lemma recent_ops_delitem_flag (k : key) : keeps_flag (recent_ops_delitem k).
Proof. flag_step. Qed.

Lemma elem_ids_insert_flag (i : Z) (e : string) :
  keeps_flag (elem_ids_insert i e).
Proof. flag_step. Qed.

Lemma list_insert_flag (i : Z) (v : value) : keeps_flag (list_insert i v).
Proof. flag_step. Qed.

Lemma recent_ops_insert_flag (i : Z) : keeps_flag (recent_ops_insert i).
Proof. flag_step. Qed.

Lemma elem_ids_delitem_flag (i : Z) : keeps_flag (elem_ids_delitem i).
Proof. flag_step. Qed.

Create HintDb guard.

#[local] Hint Resolve stays_frozen_ret stays_frozen_raise
  stays_frozen_lift_result stays_frozen_field stays_frozen_deref
  stays_frozen_read setitem_flag recent_ops_setitem_flag delitem_flag
  recent_ops_delitem_flag elem_ids_insert_flag list_insert_flag
  recent_ops_insert_flag elem_ids_delitem_flag : guard.

Ltac frozen :=
  repeat first
    [ progress auto with guard
    | apply stays_frozen_alloc;
      try match goal with
          | |- _frozen (if ?b then _ else _) = _ => destruct b
          end; reflexivity
    | apply stays_frozen_update
    | apply stays_frozen_for_each; intros ?
    | apply stays_frozen_bind; [|intros ?]
    | match goal with
      | |- stays_frozen _ (if ?b then _ else _) => destruct b
      | |- stays_frozen _ (match ?x with _ => _ end) => destruct x
      end ].

Section Engine.
Variable rec : value -> patch -> M value.
Hypothesis rec_stays_frozen :
  forall open obj p, stays_frozen open (rec obj p).

#[local] Hint Resolve rec_stays_frozen : guard.

Lemma stays_frozen_get_value (open : list loc) (conflict : value)
    (p : patch) :
  stays_frozen open (get_value rec conflict p).
Proof. unfold get_value, get_object_id. frozen. Qed.

#[local] Hint Resolve stays_frozen_get_value : guard.

Lemma stays_frozen_materialize_candidate (open : list loc) (obj : value)
    (k : key) (cands : dict string patch) (values : ops) (id : string) :
  stays_frozen open (materialize_candidate rec obj k cands values id).
Proof. unfold materialize_candidate. frozen. Qed.

Lemma stays_frozen_materialize_candidates (open : list loc) (obj : value)
    (k : key) (cands : dict string patch) (ids : list string) (values : ops) :
  stays_frozen open (materialize_candidates rec obj k cands values ids).
Proof.
  revert values. induction ids as [|id ids IH]; intros values; cbn.
  - apply stays_frozen_ret.
  - apply stays_frozen_bind; [apply stays_frozen_materialize_candidate|].
    intros a. apply IH.
Qed.

#[local] Hint Resolve stays_frozen_materialize_candidates : guard.

Lemma stays_frozen_apply_properties_slot (open : list loc) (obj : value)
    (k : key) (cands : dict string patch) :
  stays_frozen open (apply_properties_slot rec obj k cands).
Proof. unfold apply_properties_slot. frozen. Qed.

#[local] Hint Resolve stays_frozen_apply_properties_slot : guard.

Lemma stays_frozen_apply_properties (open : list loc) (obj : value)
    (props : dict key (dict string patch)) :
  stays_frozen open (apply_properties rec obj props).
Proof. unfold apply_properties. frozen. Qed.

Lemma stays_frozen_apply_edit (open : list loc) (listobj : value)
    (e : edit) :
  stays_frozen open (apply_edit listobj e).
Proof. unfold apply_edit. frozen. Qed.

#[local] Hint Resolve stays_frozen_apply_properties stays_frozen_apply_edit
  : guard.

Lemma stays_frozen_update_list_obj (open : list loc) (listobj : value)
    (props : dict key (dict string patch)) (edits : list edit) :
  stays_frozen open (update_list_obj rec listobj props edits).
Proof. unfold update_list_obj. frozen. Qed.

#[local] Hint Resolve stays_frozen_update_list_obj : guard.

(** What [apply_patch] runs between opening the guard and closing it. *)
Lemma stays_frozen_dispatch (open : list loc) (obj : value) (p : patch)
    (ty : string) :
  stays_frozen open
    (if String.eqb ty "map"
     then props <- field (p_props p) ;; apply_properties rec obj props
     else if String.eqb ty "list"
     then props <- field (p_props p) ;;
          edits <- field (p_edits p) ;;
          update_list_obj rec obj props edits
     else raise UnknownPatchType).
Proof. frozen. Qed.

Lemma stays_frozen_apply_patch_body (open : list loc) (obj : value)
    (p : patch) :
  stays_frozen open (apply_patch_body rec obj p).
Proof.
  intros h h' v I H. unfold apply_patch_body in H.
  destruct obj as [[| | |]|pc|l]; cbn [is_not_none] in H.
  all: try (apply bind_inr in H; destruct H as (h1 & [] & F & _);
            discriminate F).
  - (* obj is None *)
    cbn [andb] in H.
    apply bind_inr in H. destruct H as (h1 & [] & F & H).
    inversion F; subst h1.
    apply bind_inr in H. destruct H as (h2 & ty & F2 & H).
    pose proof (stays_frozen_field open _ _ _ _ I F2) as I2.
    apply bind_inr in H. destruct H as (h3 & [] & F3 & H).
    pose proof (stays_frozen_dispatch open _ _ _ _ _ _ I2 F3) as I3.
    apply bind_inr in H. destruct H as (h4 & [] & F4 & H).
    inversion F4; subst h4. inversion H; subst. exact I3.
  - (* obj is a Counter *)
    apply bind_inr in H. destruct H as (h1 & [] & F & H).
    inversion F; subst h1.
    destruct (true && negb (has_field (p_props p)) &&
              negb (has_field (p_edits p))).
    + apply bind_inr in H. destruct H as (h2 & [] & F2 & H).
      inversion F2; subst h2. inversion H; subst. exact I.
    + apply bind_inr in H. destruct H as (h2 & ty & F2 & H).
      pose proof (stays_frozen_field open _ _ _ _ I F2) as I2.
      apply bind_inr in H. destruct H as (h3 & [] & F3 & H).
      pose proof (stays_frozen_dispatch open _ _ _ _ _ _ I2 F3) as I3.
      apply bind_inr in H. destruct H as (h4 & [] & F4 & H).
      inversion F4; subst h4. inversion H; subst. exact I3.
  - (* obj is a container *)
    apply bind_inr in H. destruct H as (h1 & [] & F & H).
    apply set_frozen_inr in F. destruct F as (l' & c & E & G & ->).
    inversion E; subst l'.
    pose proof (frozen_outside_open open h l c
                  (mkContainer (object_id c) false (contents c)) I G) as I1.
    destruct (true && negb (has_field (p_props p)) &&
              negb (has_field (p_edits p))).
    + apply bind_inr in H. destruct H as (h2 & [] & F & H).
      apply set_frozen_inr in F. destruct F as (l' & c2 & E2 & G2 & ->).
      inversion E2; subst l'. inversion H; subst.
      eapply frozen_outside_close; [exact I1|exact G2|reflexivity].
    + apply bind_inr in H. destruct H as (h2 & ty & F2 & H).
      pose proof (stays_frozen_field (l :: open) _ _ _ _ I1 F2) as I2.
      apply bind_inr in H. destruct H as (h3 & [] & F3 & H).
      pose proof (stays_frozen_dispatch (l :: open) _ _ _ _ _ _ I2 F3) as I3.
      apply bind_inr in H. destruct H as (h4 & [] & F4 & H).
      apply set_frozen_inr in F4. destruct F4 as (l' & c4 & E4 & G4 & ->).
      inversion E4; subst l'. inversion H; subst.
      eapply frozen_outside_close; [exact I3|exact G4|reflexivity].
Qed.

End Engine.

Lemma stays_frozen_apply_patch (depth : nat) (open : list loc) (obj : value)
    (p : patch) :
  stays_frozen open (apply_patch depth obj p).
Proof.
  revert open obj p. induction depth as [|depth IH]; intros open obj p; cbn.
  - apply stays_frozen_raise.
  - apply stays_frozen_apply_patch_body. exact IH.
Qed.

(** X15: the guard is restored over the whole store, not only on the
    object passed in.  If every container of the store is frozen when
    [apply_patch] is called, and the call returns, then every container
    of the resulting store is frozen: the containers the nested patches
    went through, and those created on the way. *)
Theorem apply_patch_returns_all_frozen (depth : nat) (obj v : value)
    (p : patch) (h h' : heap) :
  (forall l c, heap_get h l = Some c -> _frozen c = true) ->
  apply_patch depth obj p h = (h', inr v) ->
  forall l c, heap_get h' l = Some c -> _frozen c = true.
Proof.
  intros I H l c G.
  assert (F : frozen_outside [] h').
  { apply (stays_frozen_apply_patch depth [] obj p h h' v); [|exact H].
    intros l0 c0 G0 _. exact (I l0 c0 G0). }
  apply (F l c G). intros [].
Qed.

Lemma apply_patch_returns_all_frozen_witness :
  exists c,
    heap_get
      (fst (apply_patch 3 (VRef 0%nat)
              (map_patch "root"
                 [(KStr "n",
                   [("6@A",
                     map_patch "o9" [(KStr "y", [("7@A", leaf (PInt 5))])])])])
              [root_with_child; child_o1])) 2%nat = Some c /\
    object_id c = "o9" /\ _frozen c = true.
Proof.
  eexists. split; [reflexivity|]. split; [reflexivity|].
  apply (apply_patch_returns_all_frozen 3 (VRef 0%nat) (VRef 0%nat)
           (map_patch "root"
              [(KStr "n",
                [("6@A",
                  map_patch "o9" [(KStr "y", [("7@A", leaf (PInt 5))])])])])
           [root_with_child; child_o1]
           (fst (apply_patch 3 (VRef 0%nat)
                   (map_patch "root"
                      [(KStr "n",
                        [("6@A",
                          map_patch "o9"
                            [(KStr "y", [("7@A", leaf (PInt 5))])])])])
                   [root_with_child; child_o1]))) with (l := 2%nat).
  - intros [|[|l]] c G; [inversion G; reflexivity..|].
    destruct l; discriminate G.
  - reflexivity.
  - reflexivity.
Defined.

End GuardCoverage.

(** ** The footprint of a call *)

Module FootprintCoverage.
Import Store StoreFacts Build Footprint MaterializerClaims.

Lemma in_firstn {A} (x : A) (n : nat) (l : list A) :
  In x (firstn n l) -> In x l.
Proof.
  revert l. induction n as [|n IH]; intros [|y l]; cbn; try tauto.
  intros [E|I]; [now left|right; exact (IH l I)].
Qed.

Lemma in_skipn {A} (x : A) (n : nat) (l : list A) :
  In x (skipn n l) -> In x l.
Proof.
  revert l. induction n as [|n IH]; intros [|y l]; cbn; try tauto.
  intros I. right. exact (IH l I).
Qed.

Lemma in_pylist_setitem {A} (l l' : list A) (i : Z) (x y : A) :
  PyList.setitem l i x = Some l' -> In y l' -> y = x \/ In y l.
Proof.
  unfold PyList.setitem.
  destruct (PyList.norm_index (List.length l) i) as [n|]; [|discriminate].
  intros [= <-] I. apply in_app_or in I. destruct I as [I|[E|I]].
  - right. exact (in_firstn _ _ _ I).
  - left. symmetry. exact E.
  - right. exact (in_skipn y (S n) l I).
Qed.

Lemma in_pylist_delitem {A} (l l' : list A) (i : Z) (y : A) :
  PyList.delitem l i = Some l' -> In y l' -> In y l.
Proof.
  unfold PyList.delitem.
  destruct (PyList.norm_index (List.length l) i) as [n|]; [|discriminate].
  intros [= <-] I. apply in_app_or in I. destruct I as [I|I].
  - exact (in_firstn _ _ _ I).
  - exact (in_skipn y (S n) l I).
Qed.

Lemma in_pylist_insert {A} (l : list A) (i : Z) (x y : A) :
  In y (PyList.insert l i x) -> y = x \/ In y l.
Proof.
  unfold PyList.insert. intros I. apply in_app_or in I.
  destruct I as [I|[E|I]].
  - right. exact (in_firstn _ _ _ I).
  - left. symmetry. exact E.
  - right. exact (in_skipn _ _ _ I).
Qed.

Section DictIn.
Context {K V : Type} (eqb : K -> K -> bool).

Lemma in_dict_set (k k' : K) (v v' : V) (d : dict K V) :
  In (k', v') (dict_set eqb k v d) -> (k', v') = (k, v) \/ In (k', v') d.
Proof.
  induction d as [|[k0 v0] d IH]; cbn.
  - intros [E|[]]. left. symmetry. exact E.
  - destruct (eqb k0 k); cbn.
    + intros [E|I]; [left; symmetry; exact E|right; right; exact I].
    + intros [E|I]; [right; left; exact E|].
      destruct (IH I) as [E|I']; [left; exact E|right; right; exact I'].
Qed.

Lemma in_dict_del (k k' : K) (v' : V) (d d' : dict K V) :
  dict_del eqb k d = Some d' -> In (k', v') d' -> In (k', v') d.
Proof.
  revert d'. induction d as [|[k0 v0] d IH]; cbn; intros d'; [discriminate|].
  destruct (eqb k0 k).
  - intros [= <-] I. right. exact I.
  - destruct (dict_del eqb k d) as [d0|]; cbn; [|discriminate].
    intros [= <-] [E|I]; [left; exact E|right; exact (IH d0 eq_refl I)].
Qed.

Lemma in_dict_get (k : K) (v : V) (d : dict K V) :
  dict_get eqb k d = Some v -> exists k', In (k', v) d.
Proof.
  induction d as [|[k0 v0] d IH]; cbn; [discriminate|].
  destruct (eqb k0 k).
  - intros [= <-]. exists k0. now left.
  - intros G. destruct (IH G) as (k' & I). exists k'. now right.
Qed.

End DictIn.

Section Region.
Variable region : loc -> Prop.

Abbreviation val_in := (val_in region).
Abbreviation ops_in := (ops_in region).
Abbreviation container_in := (container_in region).
Abbreviation closed := (closed region).
Abbreviation outside_untouched := (outside_untouched region).
Abbreviation confined := (confined region).
Abbreviation keeps_inside := (keeps_inside region).

Lemma outside_untouched_refl (h : heap) : outside_untouched h h.
Proof. intros l _. reflexivity. Qed.

Lemma outside_untouched_trans (h1 h2 h3 : heap) :
  outside_untouched h1 h2 -> outside_untouched h2 h3 ->
  outside_untouched h1 h3.
Proof. intros A B l N. rewrite (B l N). exact (A l N). Qed.

Lemma confined_pure {A} (m : M A) (post : A -> Prop) :
  (forall h, exists r, m h = (h, r) /\
     match r with inr a => post a | inl _ => True end) ->
  confined m post.
Proof.
  intros Hm h h' r C H. destruct (Hm h) as (r0 & E & P).
  rewrite E in H. inversion H; subst.
  split; [exact C|]. split; [apply outside_untouched_refl|exact P].
Qed.

Lemma confined_ret {A} (a : A) (post : A -> Prop) :
  post a -> confined (ret a) post.
Proof. intros P. apply confined_pure. intros h. exists (inr a). auto. Qed.

Lemma confined_raise {A} (e : exn) (post : A -> Prop) :
  confined (raise e) post.
Proof. apply confined_pure. intros h. exists (inl e). split; [reflexivity|exact I]. Qed.

Lemma confined_bind {A B} (c : M A) (k : A -> M B) (mid : A -> Prop)
    (post : B -> Prop) :
  confined c mid -> (forall a, mid a -> confined (k a) post) ->
  confined (bind c k) post.
Proof.
  intros Hc Hk h h' r C H.
  destruct (bind_inv _ _ _ _ _ H) as [(e & E & ->)|(h1 & a & E & K)].
  - destruct (Hc _ _ _ C E) as (C1 & U1 & _). auto.
  - destruct (Hc _ _ _ C E) as (C1 & U1 & P1).
    destruct (Hk a P1 _ _ _ C1 K) as (C2 & U2 & P2).
    split; [exact C2|]. split; [|exact P2].
    eapply outside_untouched_trans; eassumption.
Qed.

Lemma confined_weaken {A} (m : M A) (post post' : A -> Prop) :
  (forall a, post a -> post' a) -> confined m post -> confined m post'.
Proof.
  intros W Hm h h' r C H. destruct (Hm _ _ _ C H) as (C1 & U1 & P1).
  split; [exact C1|]. split; [exact U1|].
  destruct r; [exact I|apply W; exact P1].
Qed.

Lemma confined_lift_result {A} (r : result A) (post : A -> Prop) :
  (forall a, r = inr a -> post a) -> confined (lift_result r) post.
Proof.
  intros P. apply confined_pure. intros h. exists r.
  split; [reflexivity|]. destruct r; [exact I|apply P; reflexivity].
Qed.

Lemma confined_field {A} (o : option A) :
  confined (field o) (fun _ => True).
Proof.
  destruct o; [apply confined_ret; exact I|apply confined_raise].
Qed.

Lemma confined_deref (obj : value) :
  val_in obj ->
  confined (deref obj)
    (fun lc => obj = VRef (fst lc) /\ container_in (snd lc)).
Proof.
  intros V h h' r C H. unfold deref in H.
  destruct obj as [p|p|l];
    try (inversion H; subst; split; [exact C|];
         split; [apply outside_untouched_refl|exact I]).
  destruct (heap_get h l) as [c|] eqn:G; inversion H; subst;
    (split; [exact C|]; split; [apply outside_untouched_refl|]);
    [|exact I].
  split; [reflexivity|]. exact (proj1 C l c G V).
Qed.

Lemma confined_read {A} (obj : value) (f : container -> result A)
    (post : A -> Prop) :
  val_in obj ->
  (forall c a, container_in c -> f c = inr a -> post a) ->
  confined (read obj f) post.
Proof.
  intros V P. unfold read.
  eapply confined_bind; [apply confined_deref; exact V|].
  intros [l c] [_ Cc]. apply confined_lift_result.
  intros a E. exact (P c a Cc E).
Qed.

Lemma confined_alloc (c : container) :
  container_in c -> confined (alloc c) val_in.
Proof.
  intros Cc h h' r [C1 C2] H. inversion H; subst. split; [split|split].
  - intros l c0 G R. unfold heap_get in G.
    destruct (Nat.lt_ge_cases l (List.length h)) as [L|L].
    + rewrite nth_error_app1 in G by exact L. exact (C1 l c0 G R).
    + rewrite nth_error_app2 in G by exact L.
      destruct (l - List.length h)%nat as [|[|n]]; cbn in G;
        try discriminate. inversion G; subst c0. exact Cc.
  - intros l L. apply C2. rewrite length_app in L. cbn in L. lia.
  - intros l N. unfold heap_get.
    destruct (Nat.lt_ge_cases l (List.length h)) as [L|L].
    + apply nth_error_app1. exact L.
    + exfalso. apply N. apply C2. exact L.
  - cbn. apply C2. apply Nat.le_refl.
Qed.

Lemma closed_set (h : heap) (l : loc) (c' : container) :
  closed h -> region l -> container_in c' -> closed (heap_set h l c').
Proof.
  intros [C1 C2] R Cc. split.
  - intros l0 c0 G R0. destruct (Nat.eq_dec l l0) as [<-|D].
    + destruct (heap_get h l) as [c|] eqn:G1.
      * rewrite (heap_get_set_same _ _ _ _ G1) in G. inversion G; subst.
        exact Cc.
      * exfalso. unfold heap_get in *.
        apply nth_error_None in G1.
        assert (L : (l < List.length (heap_set h l c'))%nat)
          by (apply nth_error_Some; congruence).
        rewrite heap_set_length in L. lia.
    + rewrite heap_get_set_other in G by exact D. exact (C1 l0 c0 G R0).
  - intros l0 L. apply C2. rewrite heap_set_length in L. exact L.
Qed.

Lemma outside_untouched_set (h : heap) (l : loc) (c' : container) :
  region l -> outside_untouched h (heap_set h l c').
Proof.
  intros R l0 N. apply heap_get_set_other. intros ->. exact (N R).
Qed.

Lemma confined_update (obj : value) (f : container -> result container) :
  val_in obj -> keeps_inside f -> confined (update obj f) (fun _ => True).
Proof.
  intros V Hf. unfold update.
  eapply confined_bind; [apply confined_deref; exact V|].
  intros [l c] [-> Cc]. cbn in V.
  eapply confined_bind;
    [apply (confined_lift_result _ container_in);
     intros c' E; exact (Hf c c' Cc E)|].
  intros c' Cc' h h' r C H. unfold store in H. inversion H; subst.
  split; [apply closed_set; assumption|].
  split; [apply outside_untouched_set; exact V|exact I].
Qed.

Lemma confined_set_frozen (obj : value) (b : bool) :
  val_in obj -> confined (set_frozen obj b) (fun _ => True).
Proof.
  intros V h h' r C H.
  destruct (set_frozen_cases _ _ _ _ _ H)
    as [(p & _ & -> & ->)|[(l & c & -> & G & -> & ->)|(-> & ->)]].
  - split; [exact C|]. split; [apply outside_untouched_refl|exact I].
  - cbn in V. split; [apply closed_set; [exact C|exact V|]|].
    + exact (proj1 C l c G V).
    + split; [apply outside_untouched_set; exact V|exact I].
  - split; [exact C|]. split; [apply outside_untouched_refl|exact I].
Qed.

Lemma confined_for_each {A} (f : A -> M unit) (xs : list A) :
  (forall x, confined (f x) (fun _ => True)) ->
  confined (for_each f xs) (fun _ => True).
Proof.
  intros Hf. induction xs as [|x xs IH]; cbn.
  - apply confined_ret. exact I.
  - eapply confined_bind; [apply Hf|intros _ _; exact IH].
Qed.

(** *** The updates of the engine *)

Ltac inside_step :=
  intros c c' C H;
  unfold setitem, recent_ops_setitem, delitem, recent_ops_delitem,
    elem_ids_insert, list_insert, recent_ops_insert, elem_ids_delitem in H;
  unfold Footprint.container_in in *;
  destruct (contents c) eqn:E;
  repeat match type of H with
         | context [match ?x with _ => _ end] => destruct x eqn:?
         end;
  inversion H; subst; cbn [contents]; try exact C.

Lemma setitem_inside (k : key) (v : value) : keeps_inside (setitem k v).
Proof. inside_step. Qed.

Lemma delitem_inside (k : key) : keeps_inside (delitem k).
Proof. inside_step. Qed.

Lemma elem_ids_insert_inside (i : Z) (e : string) :
  keeps_inside (elem_ids_insert i e).
Proof. inside_step. Qed.

Lemma list_insert_inside (i : Z) (v : value) :
  keeps_inside (list_insert i v).
Proof. inside_step. Qed.

Lemma elem_ids_delitem_inside (i : Z) : keeps_inside (elem_ids_delitem i).
Proof. inside_step. Qed.

Lemma recent_ops_insert_inside (i : Z) : keeps_inside (recent_ops_insert i).
Proof.
  inside_step. intros d I0.
  destruct (in_pylist_insert _ _ _ _ I0) as [D|I1]; [discriminate|].
  exact (C d I1).
Qed.

Lemma recent_ops_delitem_inside (k : key) :
  keeps_inside (recent_ops_delitem k).
Proof.
  inside_step.
  - intros k0 d0 I0. eapply C. eapply in_dict_del; eassumption.
  - intros d0 I0. eapply C. eapply in_pylist_delitem; eassumption.
Qed.

Lemma recent_ops_setitem_inside (k : key) (values : ops) :
  ops_in values -> keeps_inside (recent_ops_setitem k values).
Proof.
  intros V. inside_step.
  - intros k0 d0 I0. destruct (in_dict_set _ _ _ _ _ _ I0) as [D|I1].
    + inversion D; subst. exact V.
    + exact (C k0 d0 I1).
  - intros d0 I0.
    match goal with
    | S : PyList.setitem _ _ _ = Some _ |- _ =>
        destruct (in_pylist_setitem _ _ _ _ _ S I0) as [D|I1]
    end.
    + inversion D; subst. exact V.
    + exact (C d0 I1).
Qed.

Lemma ops_in_nil : ops_in [].
Proof. intros id v []. Qed.

Lemma ops_in_set (id : string) (v : value) (values : ops) :
  val_in v -> ops_in values -> ops_in (dict_set String.eqb id v values).
Proof.
  intros V O id0 v0 I0. destruct (in_dict_set _ _ _ _ _ _ I0) as [D|I1].
  - inversion D; subst. exact V.
  - exact (O id0 v0 I1).
Qed.

(** A conflict read back from the history of a container of the
    region lies in the region. *)
Lemma old_conflict_inside (k : key) (id : string) (c : container)
    (v : value) :
  container_in c ->
  rbind (recent_ops_getitem k c) (ops_getitem id) = inr v -> val_in v.
Proof.
  intros C H. unfold recent_ops_getitem, Footprint.container_in in *.
  destruct (contents c) as [items ro|items ids ro].
  - destruct (dict_get key_eqb k ro) as [d|] eqn:G; cbn in H;
      [|discriminate].
    destruct (dict_get String.eqb id d) as [v0|] eqn:G2; inversion H; subst.
    destruct (in_dict_get _ _ _ _ G) as (k' & I1).
    destruct (in_dict_get _ _ _ _ G2) as (id' & I2).
    exact (C k' d I1 id' v I2).
  - destruct k as [s|i]; [discriminate|].
    destruct (PyList.getitem ro i) as [[d|]|] eqn:G; cbn in H;
      try discriminate.
    destruct (dict_get String.eqb id d) as [v0|] eqn:G2; inversion H; subst.
    destruct (in_dict_get _ _ _ _ G2) as (id' & I2).
    refine (C d _ id' v I2).
    unfold PyList.getitem in G.
    destruct (PyList.norm_index (List.length ro) i); [|discriminate].
    eapply nth_error_In. exact G.
Qed.

Lemma fresh_inside (ty oid : string) :
  container_in (if String.eqb ty "map" then Map_empty oid else List_empty oid).
Proof.
  destruct (String.eqb ty "map"); cbn; intros; contradiction.
Qed.

Section Engine.
Variable rec : value -> patch -> M value.
Hypothesis rec_confined :
  forall obj p, val_in obj -> confined (rec obj p) val_in.

Lemma confined_get_value (conflict : value) (p : patch) :
  val_in conflict -> confined (get_value rec conflict p) val_in.
Proof.
  intros V. unfold get_value.
  destruct (p_objectId p) as [oid|].
  - eapply confined_bind with (mid := val_in);
      [|intros a Va; apply rec_confined; exact Va].
    destruct (truthy conflict); [|apply confined_ret; exact V].
    unfold get_object_id.
    eapply confined_bind;
      [eapply confined_bind;
       [apply confined_deref; exact V
       |intros lc _; apply (confined_ret _ (fun _ => True)); exact I]|].
    intros cid _.
    destruct (negb (String.eqb cid oid)); [|apply confined_ret; exact V].
    eapply confined_bind; [apply confined_field|]. intros ty _.
    destruct (String.eqb ty "map").
    + apply confined_alloc. cbn. intros; contradiction.
    + destruct (String.eqb ty "list"); [|apply confined_raise].
      apply confined_alloc. cbn. intros; contradiction.
  - destruct (p_datatype p);
      (eapply confined_bind; [apply confined_field|]; intros v _;
       apply confined_ret; exact I).
Qed.

Lemma confined_materialize_candidate (obj : value) (k : key)
    (cands : dict string patch) (values : ops) (id : string) :
  val_in obj -> ops_in values ->
  confined (materialize_candidate rec obj k cands values id) ops_in.
Proof.
  intros V O. unfold materialize_candidate.
  eapply confined_bind; [apply confined_field|]. intros sp _.
  eapply confined_bind;
    [apply (confined_read _ _ (fun _ => True)); [exact V|auto]|].
  intros have _.
  eapply confined_bind with (mid := fun _ => True).
  { destruct have; [|apply confined_ret; exact I].
    apply confined_read; [exact V|auto]. }
  intros known _. destruct known.
  - eapply confined_bind with (mid := val_in).
    { apply confined_read; [exact V|].
      intros c a Cc E. exact (old_conflict_inside _ _ _ _ Cc E). }
    intros old Vo.
    eapply confined_bind; [apply confined_get_value; exact Vo|].
    intros v Vv. apply confined_ret. apply ops_in_set; assumption.
  - eapply confined_bind with (mid := val_in).
    { destruct (p_objectId sp) as [oid|].
      - eapply confined_bind; [apply confined_field|]. intros ty _.
        eapply confined_bind;
          [apply confined_alloc; apply fresh_inside|].
        intros nv Vn. apply confined_get_value. exact Vn.
      - apply confined_get_value. exact I. }
    intros v Vv. apply confined_ret. apply ops_in_set; assumption.
Qed.

Lemma confined_materialize_candidates (obj : value) (k : key)
    (cands : dict string patch) (ids : list string) (values : ops) :
  val_in obj -> ops_in values ->
  confined (materialize_candidates rec obj k cands values ids) ops_in.
Proof.
  intros V. revert values.
  induction ids as [|id ids IH]; intros values O; cbn.
  - apply confined_ret. exact O.
  - eapply confined_bind;
      [apply confined_materialize_candidate; assumption|].
    intros a Oa. apply IH. exact Oa.
Qed.

Lemma confined_apply_properties_slot (obj : value) (k : key)
    (cands : dict string patch) :
  val_in obj ->
  confined (apply_properties_slot rec obj k cands) (fun _ => True).
Proof.
  intros V. unfold apply_properties_slot.
  eapply confined_bind;
    [apply (confined_lift_result _ (fun _ => True)); auto|].
  intros sorted _.
  eapply confined_bind;
    [apply confined_materialize_candidates; [exact V|apply ops_in_nil]|].
  intros values O. destruct (rev sorted) as [|winner rest].
  - eapply confined_bind;
      [apply confined_update; [exact V|apply delitem_inside]|].
    intros _ _. apply confined_update;
      [exact V|apply recent_ops_delitem_inside].
  - eapply confined_bind; [apply confined_field|]. intros v _.
    eapply confined_bind;
      [apply confined_update; [exact V|apply setitem_inside]|].
    intros _ _. apply confined_update;
      [exact V|apply recent_ops_setitem_inside; exact O].
Qed.

Lemma confined_apply_properties (obj : value)
    (props : dict key (dict string patch)) :
  val_in obj ->
  confined (apply_properties rec obj props) (fun _ => True).
Proof.
  intros V. unfold apply_properties.
  eapply confined_bind; [apply confined_deref; exact V|].
  intros lc _. apply confined_for_each. intros kv.
  apply confined_apply_properties_slot. exact V.
Qed.

Lemma confined_apply_edit (listobj : value) (e : edit) :
  val_in listobj -> confined (apply_edit listobj e) (fun _ => True).
Proof.
  intros V. unfold apply_edit.
  destruct (String.eqb (action e) "insert").
  - eapply confined_bind; [apply confined_field|]. intros x _.
    eapply confined_bind;
      [apply confined_update; [exact V|apply elem_ids_insert_inside]|].
    intros _ _.
    eapply confined_bind;
      [apply confined_update; [exact V|apply list_insert_inside]|].
    intros _ _. apply confined_update;
      [exact V|apply recent_ops_insert_inside].
  - destruct (String.eqb (action e) "remove");
      [|apply confined_ret; exact I].
    eapply confined_bind;
      [apply confined_update; [exact V|apply elem_ids_delitem_inside]|].
    intros _ _.
    eapply confined_bind;
      [apply confined_update; [exact V|apply delitem_inside]|].
    intros _ _. apply confined_update;
      [exact V|apply recent_ops_delitem_inside].
Qed.

Lemma confined_update_list_obj (listobj : value)
    (props : dict key (dict string patch)) (edits : list edit) :
  val_in listobj ->
  confined (update_list_obj rec listobj props edits) (fun _ => True).
Proof.
  intros V. unfold update_list_obj.
  eapply confined_bind;
    [apply (confined_read _ _ (fun _ => True)); [exact V|auto]|].
  intros _ _.
  eapply confined_bind;
    [apply confined_for_each; intros e; apply confined_apply_edit; exact V|].
  intros _ _. apply confined_apply_properties. exact V.
Qed.

Lemma confined_apply_patch_body (obj : value) (p : patch) :
  val_in obj -> confined (apply_patch_body rec obj p) val_in.
Proof.
  intros V. unfold apply_patch_body.
  eapply confined_bind with (mid := fun _ => True).
  { destruct (is_not_none obj);
      [apply confined_set_frozen; exact V|apply confined_ret; exact I]. }
  intros _ _.
  destruct (is_not_none obj && negb (has_field (p_props p)) &&
            negb (has_field (p_edits p))).
  - eapply confined_bind; [apply confined_set_frozen; exact V|].
    intros _ _. apply confined_ret. exact V.
  - eapply confined_bind; [apply confined_field|]. intros ty _.
    eapply confined_bind with (mid := fun _ => True).
    { destruct (String.eqb ty "map").
      - eapply confined_bind; [apply confined_field|]. intros props _.
        apply confined_apply_properties. exact V.
      - destruct (String.eqb ty "list"); [|apply confined_raise].
        eapply confined_bind; [apply confined_field|]. intros props _.
        eapply confined_bind; [apply confined_field|]. intros edits _.
        apply confined_update_list_obj. exact V. }
    intros _ _.
    eapply confined_bind with (mid := fun _ => True).
    { destruct (is_not_none obj);
        [apply confined_set_frozen; exact V|apply confined_ret; exact I]. }
    intros _ _. apply confined_ret. exact V.
Qed.

End Engine.

Lemma confined_apply_patch (depth : nat) (obj : value) (p : patch) :
  val_in obj -> confined (apply_patch depth obj p) val_in.
Proof.
  revert obj p. induction depth as [|depth IH]; intros obj p V; cbn.
  - apply confined_raise.
  - apply confined_apply_patch_body; [exact IH|exact V].
Qed.

End Region.

(** X16: a call works inside the footprint of its object.  Take any
    set of locations that holds the object, every location still free,
    and is closed under the conflict history of its containers.
    Whether [apply_patch] returns or raises, it leaves every container
    outside that set exactly as it was. *)
Theorem apply_patch_confined (region : loc -> Prop) (depth : nat) (l : loc)
    (p : patch) (h h' : heap) (r : result value) :
  region l -> closed region h ->
  apply_patch depth (VRef l) p h = (h', r) ->
  forall l', ~ region l' -> heap_get h' l' = heap_get h l'.
Proof.
  intros R C H.
  destruct (confined_apply_patch region depth (VRef l) p R h h' r C H)
    as (_ & U & _).
  exact U.
Qed.

Lemma apply_patch_confined_witness :
  heap_get
    (fst (apply_patch 3 (VRef 0%nat)
            (map_patch "root"
               [(KStr "n",
                 [("6@A",
                   map_patch "o9" [(KStr "y", [("7@A", leaf (PInt 5))])])])])
            [root_x10; Samples.list_ten])) 1%nat =
  heap_get [root_x10; Samples.list_ten] 1%nat.
Proof.
  apply (apply_patch_confined (fun l => l <> 1%nat) 3 0%nat
           (map_patch "root"
              [(KStr "n",
                [("6@A",
                  map_patch "o9" [(KStr "y", [("7@A", leaf (PInt 5))])])])])
           [root_x10; Samples.list_ten] _
           (snd (apply_patch 3 (VRef 0%nat)
                   (map_patch "root"
                      [(KStr "n",
                        [("6@A",
                          map_patch "o9"
                            [(KStr "y", [("7@A", leaf (PInt 5))])])])])
                   [root_x10; Samples.list_ten]))).
  - discriminate.
  - split.
    + intros [|[|[|l]]] c G R; try discriminate G; [|contradiction].
      inversion G; subst c. intros k d [E|[]]. inversion E; subst.
      intros id v [E2|[]]. inversion E2; subst. exact I.
    + intros l L E. subst l. cbn in L. lia.
  - reflexivity.
  - intros N. apply N. reflexivity.
Defined.

(** X17: when the conflict handed to [get_value] is a container whose
    objectId is not the patch's, the patch is applied to a container
    made from scratch, and the store as it was is out of reach of that
    call: whether [get_value] returns or raises, every container that
    existed keeps its state, the old conflict included; and when it
    returns, the result is the new container, which has the patch's
    objectId. *)
Theorem get_value_replaces_from_scratch (depth : nat) (l : loc)
    (c : container) (p : patch) (oid : string) (h h' : heap)
    (r : result value) :
  heap_get h l = Some c -> p_objectId p = Some oid -> object_id c <> oid ->
  get_value (apply_patch depth) (VRef l) p h = (h', r) ->
  (forall l', (l' < List.length h)%nat -> heap_get h' l' = heap_get h l') /\
  (forall v, r = inr v ->
     v = VRef (List.length h) /\
     exists c', heap_get h' (List.length h) = Some c' /\ object_id c' = oid).
Proof.
  intros G Ho N H. unfold get_value in H. rewrite Ho in H.
  cbn [truthy] in H.
  unfold get_object_id, bind, deref, ret, field, lift_opt, raise, alloc in H.
  rewrite G in H. cbn [snd] in H.
  apply String.eqb_neq in N. rewrite N in H. cbn [negb] in H.
  assert (Stop : forall e, (h, @inl exn value e) = (h', r) ->
            (forall l', (l' < List.length h)%nat ->
               heap_get h' l' = heap_get h l') /\
            (forall v, r = inr v ->
               v = VRef (List.length h) /\
               exists c', heap_get h' (List.length h) = Some c' /\
                          object_id c' = oid)).
  { intros e E. inversion E; subst. split; [reflexivity|discriminate]. }
  assert (Go : forall fresh, object_id fresh = oid ->
            container_in (beyond h) fresh ->
            apply_patch depth (VRef (List.length h)) p (h ++ [fresh]) =
              (h', r) ->
            (forall l', (l' < List.length h)%nat ->
               heap_get h' l' = heap_get h l') /\
            (forall v, r = inr v ->
               v = VRef (List.length h) /\
               exists c', heap_get h' (List.length h) = Some c' /\
                          object_id c' = oid)).
  { intros fresh Io Cf A. split.
    - intros l' L.
      assert (C : closed (beyond h) (h ++ [fresh])).
      { split.
        - intros l0 c0 G0 R0. unfold beyond in R0. unfold heap_get in G0.
          rewrite nth_error_app2 in G0 by exact R0.
          destruct (l0 - List.length h)%nat as [|[|n]]; cbn in G0;
            try discriminate. inversion G0; subst c0. exact Cf.
        - intros l0 L0. unfold beyond. rewrite length_app in L0.
          cbn in L0. lia. }
      destruct (confined_apply_patch (beyond h) depth
                  (VRef (List.length h)) p (Nat.le_refl _) _ _ _ C A)
        as (_ & U & _).
      rewrite (U l') by (unfold beyond; lia).
      unfold heap_get. apply nth_error_app1. exact L.
    - intros v ->. rewrite (apply_patch_returns_obj _ _ _ _ _ _ A).
      split; [reflexivity|].
      destruct (preserves_apply_patch _ _ _ _ _ _ A _ _
                  (heap_get_alloc h fresh)) as (c' & G' & S1 & _).
      exists c'. split; [exact G'|congruence]. }
  destruct (p_type p) as [ty|]; cbv beta iota delta [ret raise] in H;
    [|exact (Stop _ H)].
  destruct (String.eqb ty "map"); cbv beta iota in H.
  - apply (Go (Map_empty oid)); [reflexivity| |exact H].
    cbn. intros; contradiction.
  - destruct (String.eqb ty "list"); cbv beta iota in H;
      [|exact (Stop _ H)].
    apply (Go (List_empty oid)); [reflexivity| |exact H].
    cbn. intros; contradiction.
Qed.

Lemma get_value_replaces_from_scratch_witness :
  (forall l', (l' < 2)%nat ->
     heap_get
       (fst (get_value (apply_patch 2) (VRef 1%nat)
               (map_patch "o2" [(KStr "b", [("4@A", leaf (PInt 2))])])
               [root_with_child; child_o1])) l' =
     heap_get [root_with_child; child_o1] l') /\
  snd (get_value (apply_patch 2) (VRef 1%nat)
         (map_patch "o2" [(KStr "b", [("4@A", leaf (PInt 2))])])
         [root_with_child; child_o1]) = inr (VRef 2%nat).
Proof.
  split; [|reflexivity].
  apply (get_value_replaces_from_scratch 2 1%nat child_o1
           (map_patch "o2" [(KStr "b", [("4@A", leaf (PInt 2))])]) "o2"
           [root_with_child; child_o1] _
           (snd (get_value (apply_patch 2) (VRef 1%nat)
                   (map_patch "o2" [(KStr "b", [("4@A", leaf (PInt 2))])])
                   [root_with_child; child_o1]))
           eq_refl eq_refl).
  - discriminate.
  - reflexivity.
Defined.

End FootprintCoverage.
(** ** Edits that cancel, and calls without a container *)

Module EditCoverage.
Import Store StoreFacts Build ContainerFacts EditFacts FlatCoverage.

Lemma cut_at {A} (a b : list A) (x : A) (k : nat) :
  List.length a = k ->
  firstn k (a ++ x :: b) ++ skipn (S k) (a ++ x :: b) = a ++ b.
Proof.
  revert k. induction a as [|y a IH]; intros k <-.
  - reflexivity.
  - change (y :: (firstn (List.length a) (a ++ x :: b) ++
                  skipn (S (List.length a)) (a ++ x :: b)) =
            y :: (a ++ b)).
    rewrite (IH _ eq_refl). reflexivity.
Qed.

(** [l.insert(i, x)] then [del l[i]] gives [l] back when [i] is a
    position of [l] or its end. *)
Lemma delitem_insert {A} (l : list A) (i : Z) (x : A) :
  0 <= i <= Z.of_nat (List.length l) ->
  PyList.delitem (PyList.insert l i x) i = Some l.
Proof.
  intros B. unfold PyList.delitem. rewrite insert_length.
  unfold PyList.norm_index.
  destruct (Z.leb_spec 0 i) as [_|]; [|lia].
  destruct (Z.ltb_spec i (Z.of_nat (S (List.length l)))) as [_|]; [|lia].
  unfold PyList.insert.
  destruct (Z.ltb_spec i 0) as [|_]; [lia|].
  rewrite Z.min_l by lia.
  rewrite cut_at by (apply firstn_length_le; lia).
  rewrite firstn_skipn. reflexivity.
Qed.

Lemma ret_bind {A B} (a : A) (k : A -> M B) : bind (ret a) k = k a.
Proof. reflexivity. Qed.

(** X18: on a frozen list in lock-step, a list patch that inserts at a
    position from 0 to the length of the list and then removes at the
    same position, with no props, returns and leaves the store exactly
    as it found it. *)
Theorem insert_then_remove_restores (depth : nat) (l : loc) (c : container)
    (items : list value) (ids : list string) (ro : list (option ops))
    (idx : Z) (e oid : string) (h : heap) :
  heap_get h l = Some c -> contents c = ListBody items ids ro ->
  _frozen c = true -> lock_step c ->
  0 <= idx <= Z.of_nat (List.length items) ->
  apply_patch (S depth) (VRef l)
    (list_patch oid []
       [mkEdit "insert" idx (Some e); mkEdit "remove" idx None]) h =
  (h, inr (VRef l)).
Proof.
  intros G E F L B. destruct c as [o fr body]. cbn in E, F. subst fr body.
  unfold lock_step in L. cbn in L. destruct L as [L1 L2].
  cbn [apply_patch]. unfold apply_patch_body, list_patch.
  cbn [is_not_none p_props p_edits p_type has_field negb andb].
  rewrite (bind_ok _ _ _ _ _ (set_frozen_ok _ _ false _ G)).
  cbn [object_id contents].
  set (c0 := mkContainer o false (ListBody items ids ro)).
  assert (G0 : heap_get (heap_set h l c0) l = Some c0)
    by (eapply heap_get_set_same; exact G).
  repeat first
    [ progress cbn [field lift_opt String.eqb Ascii.eqb Bool.eqb]
    | rewrite ret_bind ].
  set (c1 := mkContainer o false
                (ListBody (PyList.insert items idx VNone)
                          (PyList.insert ids idx e)
                          (PyList.insert ro idx None))).
  assert (I1 : apply_edit (VRef l) (mkEdit "insert" idx (Some e))
                 (heap_set h l c0) = (heap_set h l c1, inr tt)).
  { unfold apply_edit.
    repeat first
      [ progress cbn [action index elemId String.eqb Ascii.eqb Bool.eqb
                      field lift_opt]
      | rewrite ret_bind ].
    unfold bind.
    erewrite update_ok; [|exact G0|reflexivity].
    rewrite heap_set_set.
    erewrite update_ok;
      [|eapply heap_get_set_same; exact G|reflexivity].
    rewrite heap_set_set.
    erewrite update_ok;
      [|eapply heap_get_set_same; exact G|reflexivity].
    rewrite heap_set_set. reflexivity. }
  assert (I2 : apply_edit (VRef l) (mkEdit "remove" idx None)
                 (heap_set h l c1) = (heap_set h l c0, inr tt)).
  { unfold apply_edit.
    cbn [action index elemId String.eqb Ascii.eqb Bool.eqb].
    unfold bind.
    erewrite update_ok;
      [|eapply heap_get_set_same; exact G
       |unfold elem_ids_delitem; cbn [contents c1];
        rewrite delitem_insert by lia; reflexivity].
    rewrite heap_set_set.
    erewrite update_ok;
      [|eapply heap_get_set_same; exact G
       |unfold delitem; cbn [contents];
        rewrite delitem_insert by lia; reflexivity].
    rewrite heap_set_set.
    erewrite update_ok;
      [|eapply heap_get_set_same; exact G
       |unfold recent_ops_delitem; cbn [contents];
        rewrite delitem_insert by lia; reflexivity].
    rewrite heap_set_set. reflexivity. }
  assert (U : update_list_obj (apply_patch depth) (VRef l) []
                [mkEdit "insert" idx (Some e); mkEdit "remove" idx None]
                (heap_set h l c0) = (heap_set h l c0, inr tt)).
  { unfold update_list_obj. cbn [for_each]. unfold bind.
    rewrite (read_ok _ _ _ _ G0).
    change (has_elem_ids c0) with (@inr exn unit tt). cbv beta iota.
    rewrite I1, I2. unfold ret. cbv beta iota.
    unfold apply_properties, bind.
    rewrite (deref_ok _ _ _ G0). reflexivity. }
  rewrite (bind_ok _ _ _ _ _ U).
  rewrite (bind_ok _ _ _ _ _ (set_frozen_ok _ _ true _ G0)).
  rewrite heap_set_set. cbn [object_id contents c0].
  rewrite (heap_set_same _ _ _ G). reflexivity.
Qed.

Lemma insert_then_remove_restores_witness :
  apply_patch 1 (VRef 0%nat)
    (list_patch "l" []
       [mkEdit "insert" 1 (Some "2@A"); mkEdit "remove" 1 None])
    [Samples.list_ten] =
  ([Samples.list_ten], inr (VRef 0%nat)).
Proof.
  apply (insert_then_remove_restores 0 0%nat Samples.list_ten
           [VPrim (PInt 10)] ["1@A"] [Some [("1@A", VPrim (PInt 10))]]
           1 "2@A" "l" [Samples.list_ten] eq_refl eq_refl eq_refl).
  - split; reflexivity.
  - cbn. lia.
Defined.

(** X19: [apply_patch] never returns when it is called on [None] or on
    a primitive, that is on a number, a string or a boolean: for every
    patch it raises, and it leaves the store as it found it.  The
    branch for an object that is [None] cannot lead to a normal
    return. *)
Theorem apply_patch_raises_on_primitive (depth : nat) (q : prim) (p : patch)
    (h : heap) :
  exists e, apply_patch depth (VPrim q) p h = (h, inl e).
Proof.
  destruct depth as [|depth]; [eexists; reflexivity|].
  cbn [apply_patch]. unfold apply_patch_body.
  assert (D : deref (VPrim q) h = (h, inl AttributeError)) by reflexivity.
  destruct (is_not_none (VPrim q)) eqn:T.
  - exists AttributeError. reflexivity.
  - rewrite (bind_ok _ _ _ _ _ eq_refl). cbn [andb].
    destruct (p_type p) as [ty|]; [|eexists; reflexivity].
    cbn [field lift_opt]. rewrite (bind_ok _ _ _ _ _ eq_refl).
    destruct (String.eqb ty "map").
    + destruct (p_props p) as [props|]; [|eexists; reflexivity].
      exists AttributeError. reflexivity.
    + destruct (String.eqb ty "list"); [|eexists; reflexivity].
      destruct (p_props p) as [props|]; [|eexists; reflexivity].
      destruct (p_edits p) as [edits|]; [|eexists; reflexivity].
      exists AttributeError. reflexivity.
Qed.

End EditCoverage.

(** ** Positions beyond the end of a list *)

Module ListCoverage.
Import Store StoreFacts Build ContainerFacts EditFacts Coverage FlatMerge
  FlatCoverage.

Section Fresh.
Variable rec : value -> patch -> M value.

(** In a slot without conflict history, a leaf candidate is
    materialized without any change of the store. *)
Lemma fresh_materialize_candidate (l : loc) (c : container) (k : key)
    (cands : dict string patch) (values : ops) (id : string) (h : heap) :
  heap_get h l = Some c -> have_key_entry k c = inr false -> flat cands ->
  materialize_candidate rec (VRef l) k cands values id h =
  (h, match dict_get String.eqb id cands with
      | None => inl KeyError
      | Some sp =>
          rbind (leaf_value sp)
                (fun v => inr (dict_set String.eqb id v values))
      end).
Proof.
  intros G Hk Hf. unfold materialize_candidate.
  destruct (dict_get String.eqb id cands) as [sp|] eqn:E; [|reflexivity].
  assert (Ho : p_objectId sp = None).
  { eapply Hf. apply DepthFacts.dict_get_in. exact E. }
  unfold read, bind, deref, lift_result, field, lift_opt, ret.
  rewrite G. cbn [snd]. rewrite Hk, Ho.
  rewrite (get_value_leaf rec VNone sp h Ho).
  destruct (leaf_value sp); reflexivity.
Qed.

Lemma fresh_materialize_candidates (l : loc) (c : container) (k : key)
    (cands : dict string patch) (ids : list string) (values : ops)
    (h : heap) :
  heap_get h l = Some c -> have_key_entry k c = inr false -> flat cands ->
  materialize_candidates rec (VRef l) k cands values ids h =
  (h, leaf_values cands values ids).
Proof.
  intros G Hk Hf. revert values.
  induction ids as [|id ids IH]; intros values; cbn; [reflexivity|].
  unfold bind.
  rewrite (fresh_materialize_candidate l c k cands values id h G Hk Hf).
  destruct (dict_get String.eqb id cands) as [sp|]; [|reflexivity].
  destruct (leaf_value sp) as [e|v]; cbn; [reflexivity|apply IH].
Qed.

End Fresh.

(** X20: on a list in lock-step, props for a position at or beyond the
    end of the list never succeed.  The merge of such a slot, with a
    conflict set of leaves that is not empty, raises and leaves the
    store as it was; when the candidates themselves are well formed the
    exception is IndexError, from the assignment to the position: only
    an insert edit makes room for a new element. *)
Theorem list_slot_beyond_end_raises (rec : value -> patch -> M value)
    (l : loc) (c : container) (items : list value) (ids : list string)
    (ro : list (option ops)) (i : Z) (cands : dict string patch)
    (h : heap) :
  heap_get h l = Some c -> contents c = ListBody items ids ro ->
  lock_step c -> Z.of_nat (List.length items) <= i ->
  flat cands -> cands <> [] ->
  exists e,
    apply_properties_slot rec (VRef l) (KInt i) cands h = (h, inl e) /\
    ((exists o, flat_outcome cands = inr o) -> e = IndexError).
Proof.
  intros G E L B Hf Hne.
  assert (Hk : have_key_entry (KInt i) c = inr false).
  { unfold have_key_entry, recent_ops_is_dict, len_recent_ops, lock_step in *.
    rewrite E in *. destruct L as [L1 L2].
    destruct (Z.ltb_spec i (Z.of_nat (List.length ro))); [lia|reflexivity]. }
  assert (Hs : forall v, setitem (KInt i) v c = inl IndexError).
  { intros v. unfold setitem, PyList.setitem, PyList.norm_index.
    rewrite E.
    destruct (Z.leb_spec 0 i); [|lia].
    destruct (Z.ltb_spec i (Z.of_nat (List.length items))); [lia|].
    reflexivity. }
  unfold apply_properties_slot, flat_outcome.
  unfold bind at 1. unfold lift_result.
  destruct (sort_op_ids (dict_keys cands)) as [e|sorted] eqn:S.
  { exists e. split; [reflexivity|]. intros [o O]. discriminate O. }
  cbn [rbind]. unfold bind at 1.
  rewrite (fresh_materialize_candidates rec l c (KInt i) cands (rev sorted)
             [] h G Hk Hf).
  destruct (leaf_values cands [] (rev sorted)) as [e|values].
  { exists e. split; [reflexivity|]. intros [o O]. discriminate O. }
  cbn [rbind].
  destruct (rev sorted) as [|winner rest] eqn:R.
  { exfalso. apply Hne.
    pose proof (SortFacts.sort_op_ids_length _ _ S) as Len.
    rewrite <- length_rev, R in Len. unfold dict_keys in Len.
    rewrite length_map in Len. destruct cands; [reflexivity|discriminate]. }
  destruct (dict_get String.eqb winner values) as [v|].
  - exists IndexError. split; [|reflexivity].
    cbn [field lift_opt]. rewrite (bind_ok _ _ h h v eq_refl).
    rewrite (bind_raise _ _ _ _ _ (update_fail _ _ _ _ _ G (Hs v))).
    reflexivity.
  - exists KeyError. split; [reflexivity|]. intros [o O]. discriminate O.
Qed.

Lemma list_slot_beyond_end_raises_witness :
  exists e,
    apply_properties_slot (apply_patch 0) (VRef 0%nat) (KInt 1)
      [("2@A", leaf (PInt 20))] [Samples.list_ten] =
      ([Samples.list_ten], inl e) /\
    ((exists o, flat_outcome [("2@A", leaf (PInt 20))] = inr o) ->
     e = IndexError).
Proof.
  apply (list_slot_beyond_end_raises (apply_patch 0) 0%nat Samples.list_ten
           [VPrim (PInt 10)] ["1@A"] [Some [("1@A", VPrim (PInt 10))]] 1
           [("2@A", leaf (PInt 20))] [Samples.list_ten] eq_refl eq_refl).
  - split; reflexivity.
  - cbn. lia.
  - intros id sp [E|[]]. inversion E. reflexivity.
  - discriminate.
Defined.

End ListCoverage.

(** ** The merge of a whole [props] *)

Module WholeMerge.
Import Store StoreFacts Build Conflict LamportOrder SortFacts ContainerFacts
  EditFacts Footprint FootprintCoverage Merge Outcome MergerClaims
  FlatCoverage MaterializerClaims EditCoverage.

Lemma nth_error_replace_other {A} (l : list A) (n m : nat) (x : A) :
  (n < List.length l)%nat -> m <> n ->
  nth_error (firstn n l ++ x :: skipn (S n) l) m = nth_error l m.
Proof.
  revert n m. induction l as [|y l IH]; intros [|n] [|m] L N; cbn in *;
    try lia; try reflexivity; try contradiction.
  apply IH; lia.
Qed.

Lemma norm_index_nonneg (n : nat) (i : Z) :
  0 <= i ->
  PyList.norm_index n i =
  if i <? Z.of_nat n then Some (Z.to_nat i) else None.
Proof.
  intros H. unfold PyList.norm_index.
  destruct (Z.leb_spec 0 i); [reflexivity|lia].
Qed.

Lemma pylist_setitem_other {A} (l l' : list A) (i j : Z) (x : A) :
  0 <= i -> 0 <= j -> i <> j ->
  PyList.setitem l j x = Some l' -> PyList.getitem l' i = PyList.getitem l i.
Proof.
  intros Hi Hj N H. pose proof (setitem_length _ _ _ _ H) as L.
  unfold PyList.getitem. rewrite L. unfold PyList.setitem in H.
  rewrite (norm_index_nonneg _ _ Hj) in H.
  rewrite (norm_index_nonneg _ _ Hi).
  destruct (Z.ltb_spec j (Z.of_nat (List.length l))); [|discriminate].
  injection H as <-.
  destruct (Z.ltb_spec i (Z.of_nat (List.length l))); [|reflexivity].
  apply nth_error_replace_other; lia.
Qed.

Lemma same_slot_refl (k : key) (c : container) : same_slot k c c.
Proof. split; reflexivity. Qed.

Lemma same_slot_trans (k : key) (c1 c2 c3 : container) :
  same_slot k c1 c2 -> same_slot k c2 c3 -> same_slot k c1 c3.
Proof. intros [A B] [C D]. split; congruence. Qed.

(** The value and the conflict history under a key are read from the
    contents alone. *)
Lemma same_slot_contents (k : key) (c c' : container) :
  contents c' = contents c -> same_slot k c c'.
Proof.
  intros E. unfold same_slot, getitem, recent_ops_getitem. rewrite E.
  split; reflexivity.
Qed.

Lemma plain_key_class (c c' : container) (k : key) :
  recent_ops_is_dict c' = recent_ops_is_dict c ->
  plain_key c k -> plain_key c' k.
Proof. unfold plain_key. intros ->. auto. Qed.

Lemma plain_keys_class (c c' : container)
    (props : dict key (dict string patch)) :
  recent_ops_is_dict c' = recent_ops_is_dict c ->
  plain_keys c props -> plain_keys c' props.
Proof.
  unfold plain_keys, plain_key. intros -> H. exact H.
Qed.

Lemma setitem_other (k k0 : key) (v : value) (c c1 : container) :
  setitem k v c = inr c1 -> k0 <> k -> plain_key c k0 -> plain_key c k ->
  same_slot k0 c c1.
Proof.
  unfold setitem, same_slot, getitem, recent_ops_getitem, plain_key,
    recent_ops_is_dict.
  destruct (contents c) as [items ro|items ids ro].
  - intros [= <-] N _ _. cbn. split; [|reflexivity].
    apply dict_get_set_other; [apply key_eqb_spec|congruence].
  - intros H N P0 P.
    destruct (P0 eq_refl) as (i & -> & Hi).
    destruct (P eq_refl) as (j & -> & Hj).
    destruct (PyList.setitem items j v) as [items'|] eqn:E; [|discriminate].
    injection H as <-. cbn. split; [|reflexivity].
    eapply pylist_setitem_other; [exact Hi|exact Hj| |exact E]. congruence.
Qed.

Lemma recent_ops_setitem_other (k k0 : key) (d : ops) (c c1 : container) :
  recent_ops_setitem k d c = inr c1 -> k0 <> k ->
  plain_key c k0 -> plain_key c k -> same_slot k0 c c1.
Proof.
  unfold recent_ops_setitem, same_slot, getitem, recent_ops_getitem,
    plain_key, recent_ops_is_dict.
  destruct (contents c) as [items ro|items ids ro].
  - intros [= <-] N _ _. cbn. split; [reflexivity|].
    rewrite dict_get_set_other; [reflexivity|apply key_eqb_spec|congruence].
  - intros H N P0 P.
    destruct (P0 eq_refl) as (i & -> & Hi).
    destruct (P eq_refl) as (j & -> & Hj).
    destruct (PyList.setitem ro j (Some d)) as [ro'|] eqn:E; [|discriminate].
    injection H as <-. cbn. split; [reflexivity|].
    rewrite (pylist_setitem_other _ _ i j _ Hi Hj ltac:(congruence) E).
    reflexivity.
Qed.

Lemma delitem_other (k k0 : key) (c c1 : container) :
  recent_ops_is_dict c = true -> delitem k c = inr c1 -> k0 <> k ->
  same_slot k0 c c1.
Proof.
  unfold delitem, same_slot, getitem, recent_ops_getitem, recent_ops_is_dict.
  destruct (contents c) as [items ro|items ids ro]; [|discriminate].
  intros _ H N.
  destruct (dict_del key_eqb k items) as [items'|] eqn:E; [|discriminate].
  injection H as <-. cbn. split; [|reflexivity].
  eapply dict_del_get_other; [apply key_eqb_spec|exact E|congruence].
Qed.

Lemma recent_ops_delitem_other (k k0 : key) (c c1 : container) :
  recent_ops_is_dict c = true -> recent_ops_delitem k c = inr c1 ->
  k0 <> k -> same_slot k0 c c1.
Proof.
  unfold recent_ops_delitem, same_slot, getitem, recent_ops_getitem,
    recent_ops_is_dict.
  destruct (contents c) as [items ro|items ids ro]; [|discriminate].
  intros _ H N.
  destruct (dict_del key_eqb k ro) as [ro'|] eqn:E; [|discriminate].
  injection H as <-. cbn. split; [reflexivity|].
  rewrite (dict_del_get_other key_eqb key_eqb_spec _ _ _ _ E); [reflexivity|].
  congruence.
Qed.

Lemma field_same_store {A} (o : option A) (h h' : heap) (r : result A) :
  field o h = (h', r) -> h' = h.
Proof. destruct o; cbn; intros H; inversion H; reflexivity. Qed.

Lemma read_inv {A} (l : loc) (c : container) (f : container -> result A)
    (h h' : heap) (r : result A) :
  heap_get h l = Some c -> read (VRef l) f h = (h', r) -> h' = h /\ r = f c.
Proof. intros G H. rewrite (read_ok _ _ _ _ G) in H. inversion H. auto. Qed.

Section Apart.
Variable region : loc -> Prop.
Variable depth : nat.
Variable l : loc.
Hypothesis l_outside : ~ region l.

Lemma closed_set_outside (h : heap) (c' : container) :
  closed region h -> closed region (heap_set h l c').
Proof.
  intros [C1 C2]. split.
  - intros l0 c0 G R. assert (N : l <> l0) by (intros ->; exact (l_outside R)).
    rewrite heap_get_set_other in G by exact N. exact (C1 l0 c0 G R).
  - intros l0 L. apply C2. rewrite heap_set_length in L. exact L.
Qed.

(** What a computation confined to the region leaves of the container
    at [l]: all of it. *)
Lemma confined_apart {A} (m : M A) (post : A -> Prop) (c : container)
    (h h' : heap) (r : result A) :
  confined region m post -> closed region h -> heap_get h l = Some c ->
  m h = (h', r) ->
  closed region h' /\ heap_get h' l = Some c /\
  outside_untouched region h h' /\
  match r with inr a => post a | inl _ => True end.
Proof.
  intros Hm C G H. destruct (Hm h h' r C H) as (C' & U & P).
  split; [exact C'|]. split; [|split; [exact U|exact P]].
  rewrite (U l l_outside). exact G.
Qed.

Lemma confined_new_value (sp : patch) :
  confined region
    (match p_objectId sp with
     | Some oid =>
         ty <- field (p_type sp) ;;
         new_val <- alloc (if String.eqb ty "map"
                           then Map_empty oid else List_empty oid) ;;
         get_value (apply_patch depth) new_val sp
     | None => get_value (apply_patch depth) VNone sp
     end)
    (val_in region).
Proof.
  destruct (p_objectId sp) as [oid|].
  - eapply confined_bind; [apply confined_field|]. intros ty _.
    eapply confined_bind; [apply confined_alloc; apply fresh_inside|].
    intros nv Vn. apply confined_get_value; [|exact Vn].
    intros obj p. apply confined_apply_patch.
  - apply confined_get_value; [|exact I].
    intros obj p. apply confined_apply_patch.
Qed.

Lemma materialize_candidate_apart (c : container) (k : key)
    (cands : dict string patch) (values : ops) (id : string)
    (h h' : heap) (r : result ops) :
  closed region h -> heap_get h l = Some c -> container_in region c ->
  ops_in region values ->
  materialize_candidate (apply_patch depth) (VRef l) k cands values id h =
    (h', r) ->
  closed region h' /\ heap_get h' l = Some c /\
  outside_untouched region h h' /\
  match r with inr vs => ops_in region vs | inl _ => True end.
Proof.
  intros C G Cc O H. unfold materialize_candidate in H.
  assert (Stop : forall e, (h, @inl exn ops e) = (h', r) ->
            closed region h' /\ heap_get h' l = Some c /\
            outside_untouched region h h' /\
            match r with inr vs => ops_in region vs | inl _ => True end).
  { intros e E. inversion E; subst.
    split; [exact C|]. split; [exact G|].
    split; [apply outside_untouched_refl|exact I]. }
  destruct (bind_inv _ _ _ _ _ H) as [(e & E & ->)|(h1 & sp & E & K)].
  { pose proof (field_same_store _ _ _ _ E) as ->.
    apply (Stop e). reflexivity. }
  rewrite (field_same_store _ _ _ _ E) in K. clear H E h1.
  destruct (bind_inv _ _ _ _ _ K) as [(e & E & ->)|(h1 & have & E & K1)].
  { destruct (read_inv _ _ _ _ _ _ G E) as [-> _].
    apply (Stop e). reflexivity. }
  destruct (read_inv _ _ _ _ _ _ G E) as [-> _]. clear K E.
  destruct (bind_inv _ _ _ _ _ K1) as [(e & E & ->)|(h1 & known & E & K)].
  { destruct have.
    - destruct (read_inv _ _ _ _ _ _ G E) as [-> _].
      apply (Stop e). reflexivity.
    - inversion E. }
  assert (E1 : h1 = h).
  { destruct have; [exact (proj1 (read_inv _ _ _ _ _ _ G E))|].
    inversion E. reflexivity. }
  subst h1. clear K1 E.
  destruct known.
  - destruct (bind_inv _ _ _ _ _ K) as [(e & E & ->)|(h1 & old & E & K1)].
    { destruct (read_inv _ _ _ _ _ _ G E) as [-> _].
      apply (Stop e). reflexivity. }
    destruct (read_inv _ _ _ _ _ _ G E) as [-> Eo]. clear K E.
    assert (Vo : val_in region old).
    { eapply old_conflict_inside; [exact Cc|]. symmetry. exact Eo. }
    refine (confined_apart _ (ops_in region) c h h' r _ C G K1).
    eapply confined_bind.
    + apply confined_get_value; [|exact Vo].
      intros obj p. apply confined_apply_patch.
    + intros v Vv. apply confined_ret. apply ops_in_set; assumption.
  - refine (confined_apart _ (ops_in region) c h h' r _ C G K).
    eapply confined_bind; [apply confined_new_value|].
    intros v Vv. apply confined_ret. apply ops_in_set; assumption.
Qed.

Lemma materialize_candidates_apart (c : container) (k : key)
    (cands : dict string patch) (ids : list string) (values : ops)
    (h h' : heap) (r : result ops) :
  closed region h -> heap_get h l = Some c -> container_in region c ->
  ops_in region values ->
  materialize_candidates (apply_patch depth) (VRef l) k cands values ids h =
    (h', r) ->
  closed region h' /\ heap_get h' l = Some c /\
  outside_untouched region h h' /\
  match r with inr vs => ops_in region vs | inl _ => True end.
Proof.
  intros C G Cc. revert values h C G.
  induction ids as [|id ids IH]; intros values h C G O H; cbn in H.
  - inversion H; subst.
    split; [exact C|]. split; [exact G|].
    split; [apply outside_untouched_refl|exact O].
  - destruct (bind_inv _ _ _ _ _ H) as [(e & E & ->)|(h1 & vs & E & K)].
    + exact (materialize_candidate_apart c k cands values id h h' _
               C G Cc O E).
    + destruct (materialize_candidate_apart c k cands values id h h1 _
                  C G Cc O E) as (C1 & G1 & U1 & O1).
      destruct (IH vs h1 C1 G1 O1 K) as (C2 & G2 & U2 & O2).
      split; [exact C2|]. split; [exact G2|]. split; [|exact O2].
      eapply outside_untouched_trans; eassumption.
Qed.

(** The merge of one slot of the container at [l]: the candidates are
    materialized in the region, and then the container takes the
    outcome. *)
Lemma slot_apart (c : container) (k : key) (cands : dict string patch)
    (h h' : heap) :
  closed region h -> heap_get h l = Some c -> container_in region c ->
  apply_properties_slot (apply_patch depth) (VRef l) k cands h =
    (h', inr tt) ->
  exists c',
    closed region h' /\ heap_get h' l = Some c' /\
    container_in region c' /\ others_untouched region l h h' /\
    same_object c c' /\
    (forall k0, k0 <> k -> plain_key c k0 -> plain_key c k ->
       (recent_ops_is_dict c = false -> cands <> []) -> same_slot k0 c c').
Proof.
  intros C G Cc H. unfold apply_properties_slot in H.
  apply bind_inr in H. destruct H as (h0 & sorted & S & H).
  apply lift_result_inr in S. destruct S as [S ->].
  apply bind_inr in H. destruct H as (hv & values & MV & H).
  destruct (materialize_candidates_apart c k cands (rev sorted) [] h hv _
              C G Cc (ops_in_nil region) MV) as (Cv & Gv & Uv & Ov).
  assert (Fr : forall c2, others_untouched region l h (heap_set hv l c2)).
  { intros c2 l' N R. rewrite heap_get_set_other by congruence.
    exact (Uv l' R). }
  destruct (rev sorted) as [|winner rest] eqn:R.
  - apply bind_inr in H. destruct H as (h2 & [] & U1 & U2).
    apply update_inr in U1. destruct U1 as (l1 & c0 & c1 & E & G0 & F1 & ->).
    inversion E; subst l1; clear E.
    rewrite Gv in G0. inversion G0; subst c0; clear G0.
    apply update_inr in U2. destruct U2 as (l2 & c1' & c2 & E & G1 & F2 & ->).
    inversion E; subst l2; clear E.
    rewrite (heap_get_set_same _ _ _ _ Gv) in G1.
    inversion G1; subst c1'; clear G1.
    rewrite heap_set_set.
    pose proof (delitem_identity k c c1 F1) as I1.
    pose proof (recent_ops_delitem_identity k c1 c2 F2) as I2.
    exists c2.
    split; [apply closed_set_outside; exact Cv|].
    split; [eapply heap_get_set_same; exact Gv|].
    split; [exact (recent_ops_delitem_inside region k c1 c2
                     (delitem_inside region k c c1 Cc F1) F2)|].
    split; [apply Fr|].
    split; [eapply same_object_trans; eassumption|].
    intros k0 N P0 P Hne.
    destruct (recent_ops_is_dict c) eqn:D.
    + eapply same_slot_trans.
      * eapply delitem_other; [exact D|exact F1|exact N].
      * eapply recent_ops_delitem_other; [|exact F2|exact N].
        destruct I1 as [_ ->]. exact D.
    + exfalso. apply (Hne eq_refl).
      pose proof (SortFacts.sort_op_ids_length _ _ S) as L.
      rewrite <- length_rev, R in L. unfold dict_keys in L.
      rewrite length_map in L. destruct cands; [reflexivity|discriminate].
  - apply bind_inr in H. destruct H as (h2 & v & F & H).
    apply field_inr in F. destruct F as [F ->].
    apply bind_inr in H. destruct H as (h3 & [] & U1 & U2).
    apply update_inr in U1. destruct U1 as (l1 & c0 & c1 & E & G0 & F1 & ->).
    inversion E; subst l1; clear E.
    rewrite Gv in G0. inversion G0; subst c0; clear G0.
    apply update_inr in U2. destruct U2 as (l2 & c1' & c2 & E & G1 & F2 & ->).
    inversion E; subst l2; clear E.
    rewrite (heap_get_set_same _ _ _ _ Gv) in G1.
    inversion G1; subst c1'; clear G1.
    rewrite heap_set_set.
    pose proof (setitem_identity k v c c1 F1) as I1.
    pose proof (recent_ops_setitem_identity k values c1 c2 F2) as I2.
    exists c2.
    split; [apply closed_set_outside; exact Cv|].
    split; [eapply heap_get_set_same; exact Gv|].
    split; [exact (recent_ops_setitem_inside region k values Ov c1 c2
                     (setitem_inside region k v c c1 Cc F1) F2)|].
    split; [apply Fr|].
    split; [eapply same_object_trans; eassumption|].
    intros k0 N P0 P _.
    eapply same_slot_trans.
    + eapply setitem_other; [exact F1|exact N|exact P0|exact P].
    + eapply recent_ops_setitem_other; [exact F2|exact N| |];
        (eapply plain_key_class; [exact (proj2 I1)|assumption]).
Qed.

Lemma others_untouched_trans (h1 h2 h3 : heap) :
  others_untouched region l h1 h2 -> others_untouched region l h2 h3 ->
  others_untouched region l h1 h3.
Proof. intros A B l' N R. rewrite (B l' N R). exact (A l' N R). Qed.

(** The merge of a whole [props] into the container at [l]. *)
Lemma props_apart (props : dict key (dict string patch)) (c : container)
    (h h' : heap) :
  closed region h -> heap_get h l = Some c -> container_in region c ->
  NoDup (dict_keys props) -> plain_keys c props ->
  for_each (fun kv : key * dict string patch =>
              apply_properties_slot (apply_patch depth) (VRef l)
                (fst kv) (snd kv)) props h = (h', inr tt) ->
  exists c',
    closed region h' /\ heap_get h' l = Some c' /\
    container_in region c' /\ others_untouched region l h h' /\
    same_object c c' /\
    (forall k0, ~ In k0 (dict_keys props) -> plain_key c k0 ->
       same_slot k0 c c') /\
    (forall k cands, In (k, cands) props -> cands <> [] -> untied cands ->
       exists before after hk v values,
         props = before ++ (k, cands) :: after /\
         for_each (fun kv : key * dict string patch =>
                     apply_properties_slot (apply_patch depth) (VRef l)
                       (fst kv) (snd kv)) before h = (hk, inr tt) /\
         slot_outcome (apply_patch depth) l k cands hk v values /\
         getitem k c' = Some v /\
         recent_ops_getitem k c' = inr (Some values)).
Proof.
  revert c h. induction props as [|[k1 cands1] rest IH];
    intros c h C G Cc Hn Hp H.
  - cbn in H. inversion H; subst. exists c.
    split; [exact C|]. split; [exact G|]. split; [exact Cc|].
    split; [intros l' _ _; reflexivity|].
    split; [apply same_object_refl|].
    split; [intros; apply same_slot_refl|]. intros k cands [].
  - cbn [for_each fst snd] in H.
    apply bind_inr in H. destruct H as (h1 & [] & S1 & HR).
    destruct (slot_apart c k1 cands1 h h1 C G Cc S1)
      as (c1 & C1 & G1 & Cc1 & U1 & I1 & O1).
    cbn [dict_keys map fst] in Hn. fold (dict_keys rest) in Hn.
    inversion Hn as [|? ? Nk Hn']; subst.
    destruct (Hp k1 cands1 (or_introl eq_refl)) as [Pk1 Ne1].
    assert (Hp1 : plain_keys c1 rest).
    { apply (plain_keys_class c c1); [exact (proj2 I1)|].
      intros k cands I. apply Hp. right. exact I. }
    destruct (IH c1 h1 C1 G1 Cc1 Hn' Hp1 HR)
      as (c' & C' & G' & Cc' & U' & I' & O' & W').
    exists c'.
    split; [exact C'|]. split; [exact G'|]. split; [exact Cc'|].
    split; [eapply others_untouched_trans; eassumption|].
    split; [eapply same_object_trans; eassumption|].
    split.
    + intros k0 N P0. cbn [dict_keys map fst] in N. fold (dict_keys rest) in N.
      eapply same_slot_trans.
      * apply O1; [intros ->; apply N; left; reflexivity|exact P0
                  |exact Pk1|exact Ne1].
      * apply O'; [intros I; apply N; right; exact I|].
        eapply plain_key_class; [exact (proj2 I1)|exact P0].
    + intros k cands [E|I] Hne Hu.
      * inversion E; subst k cands; clear E.
        destruct Hu as [Hd Hl].
        destruct (apply_properties_slot_winner (apply_patch depth) (VRef l)
                    k1 cands1 Hne Hd Hl) as (_ & _ & W).
        destruct (W h h1 S1)
          as (l0 & c0 & winner & rs & v & values & hw & hv & E & G0 & Gr &
              Pm & M1 & Mv & Gi & Ri & Dg & Ks).
        inversion E; subst l0; clear E.
        rewrite G1 in G0. inversion G0; subst c0; clear G0.
        exists [], rest, h, v, values.
        split; [reflexivity|]. split; [reflexivity|].
        split; [exists winner, rs, hw, hv; auto 8|].
        destruct (O' k1 Nk (plain_key_class c c1 k1 (proj2 I1) Pk1))
          as [Sg Sr].
        split; congruence.
      * destruct (W' k cands I Hne Hu)
          as (before & after & hk & v & values & -> & B & So & Gi & Ri).
        exists ((k1, cands1) :: before), after, hk, v, values.
        split; [reflexivity|].
        split; [cbn [for_each fst snd]; rewrite (bind_ok _ _ _ _ _ S1);
                exact B|].
        auto.
Qed.

End Apart.

Lemma apply_properties_run (rec : value -> patch -> M value) (l : loc)
    (c : container) (props : dict key (dict string patch)) (h : heap) :
  heap_get h l = Some c ->
  apply_properties rec (VRef l) props h =
  for_each (fun kv : key * dict string patch =>
              apply_properties_slot rec (VRef l) (fst kv) (snd kv)) props h.
Proof.
  intros G. unfold apply_properties.
  rewrite (bind_ok _ _ _ _ _ (deref_ok _ _ _ G)). reflexivity.
Qed.

(** The order in which a conflict set is iterated plays no part when
    no two of its OperationIds are tied. *)
Lemma slots_same_candidates (rec : value -> patch -> M value) (obj : value)
    (props props' : dict key (dict string patch)) :
  same_candidates props props' ->
  (forall k cands, In (k, cands) props -> untied cands) ->
  forall h,
    for_each (fun kv : key * dict string patch =>
                apply_properties_slot rec obj (fst kv) (snd kv)) props' h =
    for_each (fun kv : key * dict string patch =>
                apply_properties_slot rec obj (fst kv) (snd kv)) props h.
Proof.
  intros S. induction S as [|[k cands] [k' cands'] props props' [E P] S IH];
    intros Hu h; [reflexivity|].
  cbn [fst snd] in E, P. subst k'. cbn [for_each fst snd]. unfold bind.
  assert (Es : apply_properties_slot rec obj k cands' h =
               apply_properties_slot rec obj k cands h).
  { destruct cands as [|x cands0].
    - apply Permutation_nil in P. subst cands'. reflexivity.
    - destruct (Hu k (x :: cands0) (or_introl eq_refl)) as [Hd Hl].
      destruct (apply_properties_slot_winner rec obj k (x :: cands0)
                  ltac:(discriminate) Hd Hl) as (W & _).
      apply W. exact P. }
  rewrite Es.
  destruct (apply_properties_slot rec obj k cands h) as [h1 [e|[]]];
    [reflexivity|].
  apply IH. intros k0 c0 I. apply (Hu k0 c0). right. exact I.
Qed.

Lemma container_in_mono (r r' : loc -> Prop) (c : container) :
  (forall x, r x -> r' x) -> container_in r c -> container_in r' c.
Proof.
  intros M. unfold container_in, ops_in, val_in.
  destruct (contents c) as [items ro|items ids ro]; intros H.
  - intros k d I id v Iv. specialize (H k d I id v Iv).
    destruct v; auto.
  - intros d I id v Iv. specialize (H d I id v Iv). destruct v; auto.
Qed.

(** A call on the container at [l] changes nothing outside the region
    but that container. *)
Lemma apply_patch_others (region : loc -> Prop) (depth : nat) (l : loc)
    (c : container) (p : patch) (h h' : heap) (r : result value) :
  above region l c h -> apply_patch depth (VRef l) p h = (h', r) ->
  others_untouched region l h h'.
Proof.
  intros (G & Nl & [C1 C2] & Cc) H.
  assert (C' : closed (fun x => region x \/ x = l) h).
  { split.
    - intros l0 c0 G0 [R| ->].
      + eapply container_in_mono; [|exact (C1 l0 c0 G0 R)]. auto.
      + rewrite G in G0. inversion G0; subst c0.
        eapply container_in_mono; [|exact Cc]. auto.
    - intros l0 L. left. exact (C2 l0 L). }
  destruct (confined_apply_patch (fun x => region x \/ x = l) depth
              (VRef l) p (or_intror eq_refl) h h' r C' H) as (_ & U & _).
  intros l' N R. apply U. intros [R'|E]; [exact (R R')|exact (N E)].
Qed.

(** A patch applied to the container at [l], of which it names the
    slots in [props], merges [props] into it. *)
Lemma apply_patch_merges (region : loc -> Prop) (d : nat) (l : loc)
    (c : container) (p : patch) (props : dict key (dict string patch))
    (h h' : heap) (v : value) :
  above region l c h -> p_props p = Some props ->
  (p_type p = Some "list" -> p_edits p = Some []) ->
  NoDup (dict_keys props) -> plain_keys c props ->
  apply_patch (S d) (VRef l) p h = (h', inr v) ->
  exists c', heap_get h' l = Some c' /\
             merged_into (apply_patch d) l props c c'.
Proof.
  intros (G & Nl & C & Cc) Hp He Hn Hk H.
  cbn [apply_patch] in H. unfold apply_patch_body in H.
  cbn [is_not_none] in H. rewrite Hp in H.
  cbn [has_field negb andb] in H.
  apply bind_inr in H. destruct H as (h1 & [] & F1 & H).
  apply set_frozen_inr in F1. destruct F1 as (l' & c0 & E & G0 & ->).
  inversion E; subst l'; clear E.
  rewrite G in G0. inversion G0; subst c0; clear G0.
  set (cf := mkContainer (object_id c) false (contents c)) in *.
  assert (G1 : heap_get (heap_set h l cf) l = Some cf)
    by (eapply heap_get_set_same; exact G).
  apply bind_inr in H. destruct H as (h2 & ty & Ft & H).
  apply field_inr in Ft. destruct Ft as [Ft ->].
  apply bind_inr in H. destruct H as (h3 & [] & D & H).
  apply bind_inr in H. destruct H as (h4 & [] & F4 & H).
  inversion H; subst h4 v; clear H.
  assert (AP : apply_properties (apply_patch d) (VRef l) props
                 (heap_set h l cf) = (h3, inr tt)).
  { cbn [field lift_opt] in D.
    destruct (String.eqb ty "map").
    - rewrite ret_bind in D. exact D.
    - destruct (String.eqb_spec ty "list") as [->|]; [|discriminate D].
      rewrite (He Ft) in D. cbn [field lift_opt] in D.
      rewrite !ret_bind in D.
      unfold update_list_obj in D.
      apply bind_inr in D. destruct D as (h5 & [] & R & D).
      destruct (read_inv _ _ _ _ _ _ G1 R) as [-> _].
      cbn [for_each] in D. rewrite ret_bind in D. exact D. }
  rewrite (apply_properties_run _ _ _ _ _ G1) in AP.
  assert (Ccf : container_in region cf) by exact Cc.
  assert (Hkf : plain_keys cf props).
  { apply (plain_keys_class c cf); [reflexivity|exact Hk]. }
  destruct (props_apart region d l Nl props cf (heap_set h l cf) h3
              (closed_set_outside region l Nl h cf C) G1 Ccf Hn Hkf AP)
    as (c2 & C2 & G2 & Cc2 & U2 & I2 & O2 & W2).
  apply set_frozen_inr in F4. destruct F4 as (l' & c3 & E & G3 & ->).
  inversion E; subst l'; clear E.
  rewrite G2 in G3. inversion G3; subst c3; clear G3.
  eexists. split; [eapply heap_get_set_same; exact G2|]. split.
  - intros k0 N P0.
    eapply same_slot_trans; [|apply same_slot_contents; reflexivity].
    eapply same_slot_trans; [apply (same_slot_contents k0 c cf); reflexivity|].
    apply O2; [exact N|].
    apply (plain_key_class c cf); [reflexivity|exact P0].
  - intros k cands I Hne Hu.
    destruct (W2 k cands I Hne Hu)
      as (before & after & hk & v & values & _ & _ & So & Gi & Ri).
    exists hk, v, values. split; [exact So|].
    split; [exact Gi|exact Ri].
Qed.

(** C1, as amended: take a container that is not reachable from its
    own conflict history, and a [props] in which no two OperationIds of
    a conflict set are tied and whose keys address the slots one by
    one: any keys on a map, and on a list positions counted from the
    start, each with candidates.  Then the merge of [props] does not
    depend on the order in which the candidate mappings are iterated;
    and when it returns, every key of [props] with candidates shows,
    after the merge of all of [props], the outcome of the merge of its
    own slot: the visible value is the value that the materializer
    produced for the candidate whose OperationId is Lamport-greater
    than all others, and the conflict history of the slot is exactly
    the mapping just computed, from the OperationIds of the conflict
    set and no others to their materialized values.  The store in which
    the slot was merged is the one the keys before it left. *)
Theorem apply_properties_winner (region : loc -> Prop) (depth : nat)
    (l : loc) (c : container) (props : dict key (dict string patch))
    (h : heap) :
  above region l c h -> NoDup (dict_keys props) -> plain_keys c props ->
  ((forall k cands, In (k, cands) props -> untied cands) ->
   forall props', same_candidates props props' ->
     apply_properties (apply_patch depth) (VRef l) props' h =
     apply_properties (apply_patch depth) (VRef l) props h) /\
  (forall h',
     apply_properties (apply_patch depth) (VRef l) props h = (h', inr tt) ->
     exists c', heap_get h' l = Some c' /\
       forall k cands, In (k, cands) props -> cands <> [] ->
         untied cands ->
         exists before after hk v values,
           props = before ++ (k, cands) :: after /\
           apply_properties (apply_patch depth) (VRef l) before h =
             (hk, inr tt) /\
           slot_outcome (apply_patch depth) l k cands hk v values /\
           getitem k c' = Some v /\
           recent_ops_getitem k c' = inr (Some values)).
Proof.
  intros (G & Nl & C & Cc) Hn Hk. split.
  - intros Hu props' S. rewrite !(apply_properties_run _ _ _ _ _ G).
    apply slots_same_candidates; assumption.
  - intros h' H. rewrite (apply_properties_run _ _ _ _ _ G) in H.
    destruct (props_apart region depth l Nl props c h h' C G Cc Hn Hk H)
      as (c' & _ & G' & _ & _ & _ & _ & W).
    exists c'. split; [exact G'|]. intros k cands I Hne Hu.
    destruct (W k cands I Hne Hu)
      as (before & after & hk & v & values & E & B & So & Gi & Ri).
    exists before, after, hk, v, values.
    rewrite (apply_properties_run _ _ _ _ _ G). auto.
Qed.

Lemma untied_3A_4B :
  untied [("3@A", leaf (PInt 10)); ("4@B", leaf (PInt 20))].
Proof.
  split; [repeat constructor; cbn; intuition discriminate|].
  exact distinct_3A_4B.
Qed.

Lemma untied_one (id : string) (sp : patch) : untied [(id, sp)].
Proof.
  split; [repeat constructor; intros []|].
  intros a b [<-|[]] [<-|[]] N. contradiction.
Qed.

Lemma apply_properties_winner_witness :
  apply_properties (apply_patch 2) (VRef 0%nat)
    [(KStr "x", [("4@B", leaf (PInt 20)); ("3@A", leaf (PInt 10))]);
     (KStr "n", [("6@A", map_patch "o9"
                           [(KStr "y", [("7@A", leaf (PInt 5))])])])]
    [root_x10] =
  apply_properties (apply_patch 2) (VRef 0%nat)
    [(KStr "x", [("3@A", leaf (PInt 10)); ("4@B", leaf (PInt 20))]);
     (KStr "n", [("6@A", map_patch "o9"
                           [(KStr "y", [("7@A", leaf (PInt 5))])])])]
    [root_x10].
Proof.
  refine (proj1 (apply_properties_winner (fun x => (1 <= x)%nat) 2 0%nat
                   root_x10 _ [root_x10] _ _ _) _ _ _).
  - split; [reflexivity|]. split; [lia|]. split.
    + split; [|intros x L; exact L].
      intros [|x] c0 G R; [lia|]. destruct x; discriminate G.
    + intros k d [E|[]]. inversion E; subst.
      intros id v [E2|[]]. inversion E2; subst. exact I.
  - repeat constructor; cbn; intuition discriminate.
  - intros k cands _. split; intros D; discriminate D.
  - intros k cands [E|[E|[]]]; inversion E; subst;
      [apply untied_3A_4B|apply untied_one].
  - constructor; [split; [reflexivity|apply perm_swap]|].
    constructor; [split; [reflexivity|apply Permutation_refl]|constructor].
Defined.

(** C1 as stated does not hold in four cases.  Two OperationIds of a
    conflict set are tied: 5@A and 05@A have the same counter and
    actorId, and the visible value is that of whichever comes last in
    the iteration order.  Two keys of [props] address one slot of a
    list: on a list of one element the positions 0 and -1 are the same
    slot, which ends with the value of the key merged last, 30, and not
    with that of the candidate of position 0.  Another key of [props]
    has no candidates, on a list: its slot is removed from the values,
    the later positions move, and position 1 no longer holds what was
    merged into it.  The container is reachable from its own conflict
    history: the candidate of key a is the root itself, and its patch
    writes 2 under x, over the 1 that the merge of x had written. *)
Lemma apply_properties_winner_counterexample :
  (tied "5@A" "05@A" /\
   Permutation [("5@A", leaf (PInt 1)); ("05@A", leaf (PInt 2))]
               [("05@A", leaf (PInt 2)); ("5@A", leaf (PInt 1))] /\
   (exists c,
      apply_properties (apply_patch 1) (VRef 0%nat)
        [(KStr "k", [("5@A", leaf (PInt 1)); ("05@A", leaf (PInt 2))])]
        [Map_empty "root"] = ([c], inr tt) /\
      getitem (KStr "k") c = Some (VPrim (PInt 2))) /\
   (exists c,
      apply_properties (apply_patch 1) (VRef 0%nat)
        [(KStr "k", [("05@A", leaf (PInt 2)); ("5@A", leaf (PInt 1))])]
        [Map_empty "root"] = ([c], inr tt) /\
      getitem (KStr "k") c = Some (VPrim (PInt 1)))) /\
  (exists c,
     apply_properties (apply_patch 1) (VRef 0%nat)
       [(KInt 0, [("2@A", leaf (PInt 20))]);
        (KInt (-1), [("3@A", leaf (PInt 30))])]
       [Samples.list_ten] = ([c], inr tt) /\
     getitem (KInt 0) c = Some (VPrim (PInt 30))) /\
  (exists c,
     apply_properties (apply_patch 1) (VRef 0%nat)
       [(KInt 1, [("5@A", leaf (PInt 50))]); (KInt 0, [])]
       [MoreSamples.list_ten_twenty] = ([c], inr tt) /\
     getitem (KInt 0) c = Some (VPrim (PInt 50)) /\
     getitem (KInt 1) c = None) /\
  (exists c,
     apply_properties (apply_patch 2) (VRef 0%nat)
       [(KStr "x", [("2@A", leaf (PInt 1))]);
        (KStr "a", [("1@A", map_patch "root"
                              [(KStr "x", [("3@A", leaf (PInt 2))])])])]
       [MoreSamples.root_in_itself] = ([c], inr tt) /\
     getitem (KStr "x") c = Some (VPrim (PInt 2))).
Proof.
  split; [split; [reflexivity|]; split; [apply perm_swap|];
          split; eexists; split; reflexivity|].
  split; [eexists; split; reflexivity|].
  split; [eexists; split; [reflexivity|split; reflexivity]|].
  eexists; split; reflexivity.
Qed.

(** C4: materializing a sub-patch that carries an objectId.  When the
    existing conflict entry is a container with that objectId, the
    dispatcher is run on that very container, in the store as it is,
    and what comes back is the same reference, to a container at the
    same place that still has that objectId and class: whoever holds
    the reference sees the update.  When the container is not reachable
    from its own conflict history, as in every document that is a
    tree, nothing but the container and the containers below it has
    changed, and the props of the sub-patch are merged into what the
    container held: a slot that the props do not name keeps its value
    and its conflict history, and a slot that they name with candidates
    shows the outcome of its merge.  When the entry's
    objectId differs, the dispatcher is run on a container created on
    the spot, empty, of the type the sub-patch declares and with the
    sub-patch's objectId; the reference that comes back is the new one,
    every container that existed is as it was, the old entry included,
    and the props are merged into the empty container. *)
Theorem get_value_merges_in_place (depth : nat) (l : loc) (c : container)
    (patch : patch) (oid : string) (h : heap) :
  heap_get h l = Some c -> p_objectId patch = Some oid ->
  (object_id c = oid ->
     get_value (apply_patch depth) (VRef l) patch h =
       apply_patch depth (VRef l) patch h /\
     forall h' v,
       get_value (apply_patch depth) (VRef l) patch h = (h', inr v) ->
       v = VRef l /\
       exists c', heap_get h' l = Some c' /\ same_object c c' /\
         forall region,
           above region l c h ->
           others_untouched region l h h' /\
           forall d props,
             depth = S d -> p_props patch = Some props ->
             (p_type patch = Some "list" -> p_edits patch = Some []) ->
             NoDup (dict_keys props) -> plain_keys c props ->
             merged_into (apply_patch d) l props c c') /\
  (object_id c <> oid ->
     forall ty, p_type patch = Some ty -> ty = "map" \/ ty = "list" ->
     let fresh := if String.eqb ty "map"
                  then Map_empty oid else List_empty oid in
     get_value (apply_patch depth) (VRef l) patch h =
       apply_patch depth (VRef (List.length h)) patch (h ++ [fresh]) /\
     forall h' v,
       get_value (apply_patch depth) (VRef l) patch h = (h', inr v) ->
       v = VRef (List.length h) /\ List.length h <> l /\
       (forall l', (l' < List.length h)%nat ->
          heap_get h' l' = heap_get h l') /\
       exists c', heap_get h' (List.length h) = Some c' /\
         same_object fresh c' /\
         forall d props,
           depth = S d -> p_props patch = Some props ->
           (p_type patch = Some "list" -> p_edits patch = Some []) ->
           NoDup (dict_keys props) -> plain_keys fresh props ->
           merged_into (apply_patch d) (List.length h) props fresh c').
Proof.
  intros Hc Hoid.
  destruct (get_value_container_identity depth l c patch oid h Hc Hoid)
    as [Same Diff].
  split.
  - intros Hs. destruct (Same Hs) as [E Id]. split; [exact E|].
    intros h' v H. destruct (Id h' v H) as (-> & c' & G' & S').
    rewrite E in H.
    split; [reflexivity|].
    exists c'. split; [exact G'|]. split; [exact S'|].
    intros region Ab.
    split; [eapply apply_patch_others; eassumption|].
    intros d props -> Hp He Hn Hk.
    destruct (apply_patch_merges region d l c patch props h h' (VRef l)
                Ab Hp He Hn Hk H) as (c2 & G2 & M).
    rewrite G' in G2. inversion G2; subst c2. exact M.
  - intros Hd ty Hty Hml fresh.
    destruct (Diff Hd ty Hty Hml) as [E Id]. fold fresh in E, Id.
    split; [exact E|].
    intros h' v H. destruct (Id h' v H) as (-> & Nl & (c' & G' & S') & _).
    rewrite E in H.
    assert (Cf : container_in (fun x => (List.length h < x)%nat) fresh)
      by (subst fresh; destruct (String.eqb ty "map"); cbn;
          intros; contradiction).
    assert (Ab : above (fun x => (List.length h < x)%nat) (List.length h)
                   fresh (h ++ [fresh])).
    { split; [apply heap_get_alloc|]. split; [lia|]. split; [|exact Cf].
      split.
      - intros l0 c0 G0 R. apply heap_get_lt in G0.
        rewrite length_app in G0. cbn in G0. lia.
      - intros l0 L. rewrite length_app in L. cbn in L. lia. }
    split; [reflexivity|]. split; [exact Nl|]. split.
    + intros l' L.
      rewrite (apply_patch_others _ _ _ _ _ _ _ _ Ab H l') by lia.
      unfold heap_get. apply nth_error_app1. exact L.
    + exists c'. split; [exact G'|]. split; [exact S'|].
      intros d props -> Hp He Hn Hk.
      destruct (apply_patch_merges _ d _ fresh patch props _ h'
                  (VRef (List.length h)) Ab Hp He Hn Hk H) as (c2 & G2 & M).
      rewrite G' in G2. inversion G2; subst c2. exact M.
Qed.

Lemma get_value_merges_in_place_witness :
  exists c',
    heap_get
      (fst (get_value (apply_patch 2) (VRef 1%nat)
              (map_patch "o1" [(KStr "b", [("7@A", leaf (PInt 5))])])
              [root_with_child; MoreSamples.child_ab])) 1%nat = Some c' /\
    same_slot (KStr "a") MoreSamples.child_ab c' /\
    exists v, getitem (KStr "b") c' = Some v.
Proof.
  destruct (get_value_merges_in_place 2 1%nat MoreSamples.child_ab
              (map_patch "o1" [(KStr "b", [("7@A", leaf (PInt 5))])]) "o1"
              [root_with_child; MoreSamples.child_ab] eq_refl eq_refl)
    as [Same _].
  destruct (Same eq_refl) as [_ Id].
  destruct (Id (fst (get_value (apply_patch 2) (VRef 1%nat)
                      (map_patch "o1" [(KStr "b", [("7@A", leaf (PInt 5))])])
                      [root_with_child; MoreSamples.child_ab]))
              (VRef 1%nat) eq_refl) as (_ & c' & G & _ & R).
  destruct (R (fun x => (2 <= x)%nat)) as (_ & M).
  - split; [reflexivity|]. split; [lia|]. split.
    + split; [|intros x L; exact L].
      intros [|[|x]] c0 G0 R0; try lia. destruct x; discriminate G0.
    + intros k d [E|[E|[]]]; inversion E; subst;
        intros id v [E2|[]]; inversion E2; subst; exact I.
  - exists c'. split; [exact G|].
    destruct (M 1%nat [(KStr "b", [("7@A", leaf (PInt 5))])]
                eq_refl eq_refl) as [Un Nm].
    + intros D. discriminate D.
    + repeat constructor. intros [].
    + intros k cands _. split; intros D; discriminate D.
    + split.
      * apply Un; [|intros D; discriminate D].
        intros [E|[]]. discriminate E.
      * destruct (Nm (KStr "b") [("7@A", leaf (PInt 5))]
                    (or_introl eq_refl) ltac:(discriminate)
                    (untied_one _ _)) as (hk & v & values & _ & Gv & _).
        exists v. exact Gv.
Defined.

End WholeMerge.
